(** * TPC-H graph loaders: a model of [src/memgraph/load.py] and
      [src/arangodb/load.py]

    The two loaders read the eight TPC-H tables from pipe-delimited files,
    map each row to graph records and write them to a graph store.  The
    development embeds

    - the values and rows a data frame hands to the loaders,
    - the loaders themselves, as programs of a state-and-exception monad
      whose state holds the files, the store connection, the history of
      calls and the printed lines,
    - the Cypher statements of the Memgraph loader, with their effect on a
      property graph,

    and proves the properties of batching, load order, key derivation,
    re-runs, error propagation and edge direction. *)

From Stdlib Require Import String Ascii DecimalString.
From Stdlib Require Import List ZArith Lia Bool Arith PeanoNat.
Import ListNotations.

Local Open Scope string_scope.
Local Open Scope list_scope.
Local Open Scope nat_scope.

(* ================================================================== *)
(** * Values and rows *)

(** A cell of a data frame.  The loaders never compute on floating-point
    cells, they only pass them on and print them, so a float is carried by
    its printed form. *)
Inductive value : Type :=
| VInt (z : Z)
| VFloat (repr : string)
| VStr (s : string).

Definition value_eqb (a b : value) : bool :=
  match a, b with
  | VInt x, VInt y => Z.eqb x y
  | VFloat x, VFloat y => String.eqb x y
  | VStr x, VStr y => String.eqb x y
  | _, _ => false
  end.

Lemma value_eqb_eq (a b : value) : value_eqb a b = true <-> a = b.
Proof.
  destruct a, b; simpl; split; intros H; try discriminate; try congruence.
  - apply Z.eqb_eq in H. congruence.
  - injection H as ->. apply Z.eqb_refl.
  - apply String.eqb_eq in H. congruence.
  - injection H as ->. apply String.eqb_refl.
  - apply String.eqb_eq in H. congruence.
  - injection H as ->. apply String.eqb_refl.
Qed.

Lemma value_eqb_refl (a : value) : value_eqb a a = true.
Proof. now apply value_eqb_eq. Qed.

(** Decimal form of an integer, as Python's [str] prints it. *)
Definition showZ (z : Z) : string := NilZero.string_of_int (Z.to_int z).

(** Python's [str(v)], which is also what an f-string field [{v}] prints. *)
Definition str (v : value) : string :=
  match v with
  | VInt z => showZ z
  | VFloat r => r
  | VStr s => s
  end.

(** A dict with string keys, in insertion order. *)
Definition record : Type := list (string * value).

Fixpoint assoc (k : string) (r : record) : option value :=
  match r with
  | [] => None
  | (k', v) :: r' => if String.eqb k k' then Some v else assoc k r'
  end.

(** The missing cell, printed [nan]. *)
Definition NaN : value := VFloat "nan".

(** [row[k]].  Every row the loaders index was built by [set_columns] from
    the very column names they use (see [row_get_columns]), so the default
    is never taken. *)
Definition row_get (r : record) (k : string) : value :=
  match assoc k r with
  | Some v => v
  | None => NaN
  end.

(** [d[k] = v] on a dict: replace in place, or append. *)
Fixpoint assoc_set (k : string) (v : value) (r : record) : record :=
  match r with
  | [] => [(k, v)]
  | (k', v') :: r' =>
      if String.eqb k k' then (k, v) :: r' else (k', v') :: assoc_set k v r'
  end.

(* ================================================================== *)
(** * Python integers, ranges and slices *)

(** Length of [range(start, stop, step)], as CPython computes it. *)
Definition range_len (start stop step : Z) : Z :=
  if (0 <? step)%Z then
    if (start <? stop)%Z then ((stop - start - 1) / step + 1)%Z else 0%Z
  else if (step <? 0)%Z then
    if (stop <? start)%Z then ((start - stop - 1) / (- step) + 1)%Z else 0%Z
  else 0%Z.

(** [range(start, stop, step)] for a non-zero step. *)
Definition py_range (start stop step : Z) : list Z :=
  map (fun i => (start + Z.of_nat i * step)%Z)
      (seq 0 (Z.to_nat (range_len start stop step))).

(** Clamping of a slice bound against a sequence of length [len]. *)
Definition clamp_index (len i : Z) : Z :=
  if (i <? 0)%Z then Z.max 0 (i + len) else Z.min i len.

(** [l[lo:hi]]. *)
Definition py_slice {A : Type} (l : list A) (lo hi : Z) : list A :=
  let len := Z.of_nat (length l) in
  let a := clamp_index len lo in
  let b := clamp_index len hi in
  firstn (Z.to_nat (b - a)) (skipn (Z.to_nat a) l).

(** The [i]-th chunk of [n] elements. *)
Definition chunk_at {A : Type} (n : nat) (l : list A) (i : nat) : list A :=
  firstn n (skipn (i * n) l).

(** Number of chunks of [n > 0] elements that cover [r] elements. *)
Definition ceil_div (r n : nat) : nat := (r + n - 1) / n.

Definition chunks {A : Type} (n : nat) (l : list A) : list (list A) :=
  map (chunk_at n l) (seq 0 (ceil_div (length l) n)).

Lemma firstn_plus {A : Type} (a b : nat) (l : list A) :
  firstn (a + b) l = firstn a l ++ firstn b (skipn a l).
Proof.
  revert l; induction a as [|a IH]; intros l; simpl; [reflexivity|].
  destruct l as [|x l]; simpl.
  - now rewrite firstn_nil.
  - now rewrite IH.
Qed.

Lemma concat_chunk_at {A : Type} (n : nat) (l : list A) (k : nat) :
  concat (map (chunk_at n l) (seq 0 k)) = firstn (k * n) l.
Proof.
  induction k as [|k IH]; [reflexivity|].
  rewrite seq_S, map_app, concat_app, IH. simpl.
  rewrite app_nil_r. unfold chunk_at.
  rewrite <- firstn_plus. f_equal. lia.
Qed.

Lemma ceil_div_bounds (r n : nat) :
  0 < n -> r <= ceil_div r n * n /\ ceil_div r n * n < r + n.
Proof.
  intros Hn. unfold ceil_div.
  pose proof (Nat.div_mod_eq (r + n - 1) n) as E.
  pose proof (Nat.mod_upper_bound (r + n - 1) n ltac:(lia)) as U.
  nia.
Qed.

Lemma ceil_div_unique (r n k : nat) :
  0 < n -> r <= k * n -> k * n < r + n -> k = ceil_div r n.
Proof.
  intros Hn H1 H2. destruct (ceil_div_bounds r n Hn) as [B1 B2]. nia.
Qed.

Lemma concat_chunks {A : Type} (n : nat) (l : list A) :
  0 < n -> concat (chunks n l) = l.
Proof.
  intros Hn. unfold chunks. rewrite concat_chunk_at.
  apply firstn_all2. apply (ceil_div_bounds (length l) n Hn).
Qed.

Lemma length_chunks {A : Type} (n : nat) (l : list A) :
  length (chunks n l) = ceil_div (length l) n.
Proof. unfold chunks. now rewrite length_map, length_seq. Qed.

Lemma length_chunk_at {A : Type} (n : nat) (l : list A) (i : nat) :
  length (chunk_at n l i) = Nat.min n (length l - i * n).
Proof. unfold chunk_at. now rewrite length_firstn, length_skipn. Qed.

Lemma nth_chunks {A : Type} (n : nat) (l : list A) (i : nat) :
  i < ceil_div (length l) n ->
  nth i (chunks n l) [] = chunk_at n l i.
Proof.
  intros Hi. unfold chunks.
  rewrite (nth_indep _ [] (chunk_at n l 0)) by now rewrite length_map, length_seq.
  rewrite map_nth, seq_nth by assumption. reflexivity.
Qed.

(** Every chunk but the last is full. *)
Lemma chunk_full {A : Type} (n : nat) (l : list A) (i : nat) :
  0 < n -> S i < ceil_div (length l) n ->
  length (chunk_at n l i) = n.
Proof.
  intros Hn Hi. rewrite length_chunk_at.
  destruct (ceil_div_bounds (length l) n Hn) as [B1 B2]. nia.
Qed.

(** The last chunk holds the remainder, or a full chunk when there is none. *)
Lemma chunk_last {A : Type} (n : nat) (l : list A) :
  0 < n -> 0 < length l ->
  length (chunk_at n l (ceil_div (length l) n - 1)) =
  if length l mod n =? 0 then n else length l mod n.
Proof.
  intros Hn Hl. rewrite length_chunk_at.
  set (r := length l) in *.
  destruct (ceil_div_bounds r n Hn) as [B1 B2].
  pose proof (Nat.div_mod_eq r n) as E.
  pose proof (Nat.mod_upper_bound r n ltac:(lia)) as U.
  assert (K : 0 < ceil_div r n) by nia.
  destruct (Nat.eqb_spec (r mod n) 0) as [Z0|Z0].
  - assert (ceil_div r n = r / n) by (symmetry; apply ceil_div_unique; nia).
    nia.
  - assert (ceil_div r n = S (r / n)) by (symmetry; apply ceil_div_unique; nia).
    nia.
Qed.

(** [range] and slices of the batching loops, in terms of [chunks]. *)
Lemma range_len_ceil (r : nat) (n : Z) :
  (0 < n)%Z ->
  Z.to_nat (range_len 0 (Z.of_nat r) n) = ceil_div r (Z.to_nat n).
Proof.
  intros Hn. unfold range_len.
  destruct (Z.ltb_spec 0 n) as [_|]; [|lia].
  destruct (Z.ltb_spec 0 (Z.of_nat r)) as [Hr|Hr].
  - apply ceil_div_unique; [lia| |].
    + pose proof (Z.div_mod (Z.of_nat r - 0 - 1) n ltac:(lia)) as E.
      pose proof (Z.mod_pos_bound (Z.of_nat r - 0 - 1) n Hn) as U.
      pose proof (Z.div_pos (Z.of_nat r - 0 - 1) n ltac:(lia) Hn) as P.
      nia.
    + pose proof (Z.div_mod (Z.of_nat r - 0 - 1) n ltac:(lia)) as E.
      pose proof (Z.mod_pos_bound (Z.of_nat r - 0 - 1) n Hn) as U.
      pose proof (Z.div_pos (Z.of_nat r - 0 - 1) n ltac:(lia) Hn) as P.
      nia.
  - assert (r = 0) as -> by lia. unfold ceil_div.
    simpl. symmetry. apply Nat.div_small. lia.
Qed.

Lemma firstn_min_length {A : Type} (n : nat) (l : list A) :
  firstn (Nat.min n (length l)) l = firstn n l.
Proof.
  destruct (Nat.le_ge_cases n (length l)) as [H|H].
  - now rewrite Nat.min_l.
  - rewrite Nat.min_r by assumption.
    now rewrite firstn_all, firstn_all2.
Qed.

Lemma py_slice_chunk {A : Type} (l : list A) (n : Z) (i : nat) :
  (0 < n)%Z -> i * Z.to_nat n <= length l ->
  py_slice l (0 + Z.of_nat i * n) (0 + Z.of_nat i * n + n) =
  chunk_at (Z.to_nat n) l i.
Proof.
  intros Hn Hi. unfold py_slice, chunk_at, clamp_index.
  assert (Hin : (0 <= Z.of_nat i * n)%Z) by nia.
  destruct (Z.ltb_spec (0 + Z.of_nat i * n) 0) as [|_]; [lia|].
  destruct (Z.ltb_spec (0 + Z.of_nat i * n + n) 0) as [|_]; [lia|].
  assert (Ha : Z.to_nat (Z.min (0 + Z.of_nat i * n) (Z.of_nat (length l)))
               = i * Z.to_nat n) by nia.
  rewrite Ha.
  rewrite <- (firstn_min_length (Z.to_nat n)).
  f_equal. rewrite length_skipn. nia.
Qed.

Lemma batches_chunks {A : Type} (l : list A) (n : Z) :
  (0 < n)%Z ->
  map (fun i => py_slice l i (i + n)) (py_range 0 (Z.of_nat (length l)) n) =
  chunks (Z.to_nat n) l.
Proof.
  intros Hn. unfold py_range, chunks.
  rewrite map_map, range_len_ceil by assumption.
  apply map_ext_in. intros i Hi. apply in_seq in Hi.
  apply py_slice_chunk; [assumption|].
  destruct (ceil_div_bounds (length l) (Z.to_nat n) ltac:(lia)) as [B1 B2].
  nia.
Qed.

(* ================================================================== *)
(** * The loaders' machine: files, a store connection, a history *)

(** An [Exception] instance, by its message. *)
Definition exn : Type := string.

(** What a store call hands back. *)
Inductive rvalue : Type :=
| RNone
| RBool (b : bool).

Inductive reply : Type :=
| Ok (v : rvalue)
| Raise (e : exn).

(** Python truthiness of a returned value. *)
Definition truthy (v : rvalue) : bool :=
  match v with
  | RNone => false
  | RBool b => b
  end.

(** A table file as the reader tokenises it: per line, the typed fields
    between the pipes, the empty field after the last pipe included. *)
Definition table_file : Type := list (list value).

Section Machine.
(** The store's calls, the state of the store behind the connection, and
    how the store answers a call. *)
Variables (C B : Type).
Variable respond : B -> C -> B * reply.

(** Where an event of the history comes from. *)
Inductive origin : Type :=
| Store (c : C)
| Reader (path : string) (usecols : nat)
| Python (what : string).

Definition event : Type := (origin * reply)%type.

Record world : Type := World {
  files : string -> exn + table_file;
  conn : B;
  trace : list event;
  out : list string
}.

Definition log (ev : event) (w : world) : world :=
  {| files := files w; conn := conn w;
     trace := trace w ++ [ev]; out := out w |}.

(** A computation either returns or raises. *)
Definition M (A : Type) : Type := world -> world * (exn + A).

Definition ret {A : Type} (a : A) : M A := fun w => (w, inr a).

Definition bind {A X : Type} (m : M A) (k : A -> M X) : M X :=
  fun w =>
    match m w with
    | (w', inr a) => k a w'
    | (w', inl e) => (w', inl e)
    end.

(** A call to the store through the connection. *)
Definition request (c : C) : M rvalue :=
  fun w =>
    let (b', r) := respond (conn w) c in
    let w' := log (Store c, r)
                  {| files := files w; conn := b';
                     trace := trace w; out := out w |} in
    match r with
    | Ok v => (w', inr v)
    | Raise e => (w', inl e)
    end.

(** An exception raised by the interpreter itself. *)
Definition raise {A : Type} (what : string) (e : exn) : M A :=
  fun w => (log (Python what, Raise e) w, inl e).

Definition print (s : string) : M unit :=
  fun w => ({| files := files w; conn := conn w;
               trace := trace w; out := out w ++ [s] |}, inr tt).

(** [try: m  except Exception as e: h e]. *)
Definition try_except {A : Type} (m : M A) (h : exn -> M A) : M A :=
  fun w =>
    match m w with
    | (w', inl e) => h e w'
    | r => r
    end.

(** [for x in xs: f x]. *)
Fixpoint for_ {X : Type} (xs : list X) (f : X -> M unit) : M unit :=
  match xs with
  | [] => ret tt
  | x :: xs' => bind (f x) (fun _ => for_ xs' f)
  end.

(** [pd.read_csv(path, sep="|", header=None, usecols=range(n))]: the
    first [n] fields of every line. *)
Definition read_csv (path : string) (n : nat) : M (list (list value)) :=
  fun w =>
    match files w path with
    | inl e => (log (Reader path n, Raise e) w, inl e)
    | inr lines =>
        if forallb (fun l => n <=? length l) lines
        then (log (Reader path n, Ok RNone) w, inr (map (firstn n) lines))
        else
          let e := "ValueError: Usecols do not match columns" in
          (log (Reader path n, Raise e) w, inl e)
    end.

(** [df.columns = names], and the rows of the frame as dicts. *)
Definition set_columns (df : list (list value)) (names : list string)
  : M (list record) :=
  if forallb (fun r => length r =? length names) df
  then ret (map (combine names) df)
  else raise "df.columns" "ValueError: Length mismatch".

(** [a // b]. *)
Definition floordiv (a b : Z) : M Z :=
  if (b =? 0)%Z
  then raise "//" "ZeroDivisionError: integer division or modulo by zero"
  else ret (a / b)%Z.

Definition exec {A : Type} (m : M A) (w : world) : world := fst (m w).

(** The store calls of a history, in order. *)
Fixpoint calls_of (tr : list event) : list C :=
  match tr with
  | [] => []
  | (Store c, _) :: tr' => c :: calls_of tr'
  | _ :: tr' => calls_of tr'
  end.
End Machine.

Arguments Store {C} c.
Arguments Reader {C} path usecols.
Arguments Python {C} what.
Arguments World {C B} files conn trace out.
Arguments files {C B} w.
Arguments conn {C B} w.
Arguments trace {C B} w.
Arguments out {C B} w.
Arguments log {C B} ev w.
Arguments ret {C B A} a.
Arguments bind {C B A X} m k.
Arguments request {C B} respond c.
Arguments try_except {C B A} m h.
Arguments for_ {C B X} xs f.
Arguments exec {C B A} m w.
Arguments calls_of {C} tr.
Arguments raise {C B A} what e.
Arguments print {C B} s.
Arguments read_csv {C B} path n.
Arguments set_columns {C B} df names.
Arguments floordiv {C B} a b.

Declare Scope monad_scope.
Delimit Scope monad_scope with monad.
Notation "x <- m ;; k" := (bind m (fun x => k))
  (at level 61, m at next level, right associativity) : monad_scope.
Notation "m ;; k" := (bind m (fun _ => k))
  (at level 61, right associativity) : monad_scope.
Local Open Scope monad_scope.

(* ================================================================== *)
(** * Cypher: the statements of the Memgraph loader *)

(** The clauses the loader's queries are made of.  [f] is a field of the
    unwound [row]; a property list [ps] pairs a property with the row field
    it is given. *)
Inductive clause : Type :=
| UNWIND_rows                                       (* UNWIND $rows AS row *)
| MERGE_node (x l k f : string)                     (* MERGE (x:l {k: row.f}) *)
| SET (x : string) (ps : list (string * string))    (* SET x.p = row.f, ... *)
| WITH (xs : list string)                           (* WITH x, row *)
| MATCH_node (x l k f : string)                     (* MATCH (x:l {k: row.f}) *)
| MERGE_rel (a : string) (r : option string) (t b : string)
                                                    (* MERGE (a)-[r:t]->(b) *)
| CREATE_node (x l : string) (ps : list (string * string))
                                                    (* CREATE (x:l {p: row.f, ...}) *)
| CREATE_rel (a t b : string).                      (* CREATE (a)-[:t]->(b) *)

Inductive stmt : Type :=
| CreateIndex (label prop : string)    (* CREATE INDEX ON :label(prop) *)
| DetachDeleteAll                      (* MATCH (n) DETACH DELETE n *)
| Query (q : list clause).

(** ** The property graph *)

(** Nodes and relationships are identified by their position in the store;
    a relationship names its end nodes by position. *)
Record node : Type := Node { nlabel : string; nprops : record }.
Record rel : Type :=
  Rel { rsrc : nat; rtype : string; rdst : nat; rprops : record }.
Record graph : Type := Graph { nodes : list node; rels : list rel }.

Definition empty_graph : graph := Graph [] [].

Inductive ref : Type :=
| NodeRef (i : nat)
| RelRef (i : nat).

(** A record of the binding table: the unwound row and the bound
    variables. *)
Record env : Type := Env { erow : record; evars : list (string * ref) }.

Fixpoint lookup_var (x : string) (vs : list (string * ref)) : option ref :=
  match vs with
  | [] => None
  | (y, r) :: vs' => if String.eqb x y then Some r else lookup_var x vs'
  end.

Definition bind_var (x : string) (r : ref) (e : env) : env :=
  Env (erow e) ((x, r) :: evars e).

Definition bind_opt (x : option string) (r : ref) (e : env) : env :=
  match x with
  | Some y => bind_var y r e
  | None => e
  end.

Definition node_matches (l k : string) (v : value) (n : node) : bool :=
  String.eqb (nlabel n) l &&
  match assoc k (nprops n) with
  | Some v' => value_eqb v' v
  | None => false
  end.

Definition rel_matches (i : nat) (t : string) (j : nat) (r : rel) : bool :=
  Nat.eqb (rsrc r) i && String.eqb (rtype r) t && Nat.eqb (rdst r) j.

(** Positions, counted from [i], of the elements that satisfy [p]. *)
Fixpoint find_from {A : Type} (p : A -> bool) (i : nat) (l : list A)
  : list nat :=
  match l with
  | [] => []
  | a :: l' => if p a then i :: find_from p (S i) l' else find_from p (S i) l'
  end.

Definition find_nodes (l k : string) (v : value) (g : graph) : list nat :=
  find_from (node_matches l k v) 0 (nodes g).

Definition find_rels (i : nat) (t : string) (j : nat) (g : graph) : list nat :=
  find_from (rel_matches i t j) 0 (rels g).

Fixpoint update_nth {A : Type} (i : nat) (f : A -> A) (l : list A) {struct l}
  : list A :=
  match l, i with
  | [], _ => []
  | a :: l', 0 => f a :: l'
  | a :: l', S i' => a :: update_nth i' f l'
  end.

Definition add_node (n : node) (g : graph) : graph :=
  Graph (nodes g ++ [n]) (rels g).

Definition add_rel (r : rel) (g : graph) : graph :=
  Graph (nodes g) (rels g ++ [r]).

(** [SET x.p = row.f, ...] on a property map. *)
Definition set_props (row : record) (ps : list (string * string))
                     (props : record) : record :=
  fold_left (fun r p => assoc_set (fst p) (row_get row (snd p)) r) ps props.

Definition props_of (row : record) (ps : list (string * string)) : record :=
  map (fun p => (fst p, row_get row (snd p))) ps.

(** ** Execution *)

(** One clause on one record of the binding table: the new graph and the
    records that replace it.  A variable the query never bound drops the
    record; the loader's queries bind every variable they use. *)
Definition step (rows : list record) (c : clause) (g : graph) (e : env)
  : graph * list env :=
  match c with
  | UNWIND_rows => (g, map (fun r => Env r (evars e)) rows)
  | MERGE_node x l k f =>
      let v := row_get (erow e) f in
      match find_nodes l k v g with
      | [] => (add_node (Node l [(k, v)]) g,
               [bind_var x (NodeRef (length (nodes g))) e])
      | ids => (g, map (fun i => bind_var x (NodeRef i) e) ids)
      end
  | SET x ps =>
      match lookup_var x (evars e) with
      | Some (NodeRef i) =>
          (Graph (update_nth i
                    (fun n => Node (nlabel n) (set_props (erow e) ps (nprops n)))
                    (nodes g))
                 (rels g), [e])
      | Some (RelRef i) =>
          (Graph (nodes g)
                 (update_nth i
                    (fun r => Rel (rsrc r) (rtype r) (rdst r)
                                  (set_props (erow e) ps (rprops r)))
                    (rels g)), [e])
      | None => (g, [])
      end
  | WITH xs =>
      (g, [Env (if existsb (String.eqb "row") xs then erow e else [])
               (filter (fun b => existsb (String.eqb (fst b)) xs) (evars e))])
  | MATCH_node x l k f =>
      (g, map (fun i => bind_var x (NodeRef i) e)
              (find_nodes l k (row_get (erow e) f) g))
  | MERGE_rel a r t b =>
      match lookup_var a (evars e), lookup_var b (evars e) with
      | Some (NodeRef i), Some (NodeRef j) =>
          match find_rels i t j g with
          | [] => (add_rel (Rel i t j []) g,
                   [bind_opt r (RelRef (length (rels g))) e])
          | ids => (g, map (fun id => bind_opt r (RelRef id) e) ids)
          end
      | _, _ => (g, [])
      end
  | CREATE_node x l ps =>
      (add_node (Node l (props_of (erow e) ps)) g,
       [bind_var x (NodeRef (length (nodes g))) e])
  | CREATE_rel a t b =>
      match lookup_var a (evars e), lookup_var b (evars e) with
      | Some (NodeRef i), Some (NodeRef j) => (add_rel (Rel i t j []) g, [e])
      | _, _ => (g, [])
      end
  end.

(** A clause consumes the whole binding table, record by record, each
    record seeing the writes of the ones before it. *)
Fixpoint run_clause (rows : list record) (c : clause) (g : graph)
                    (table : list env) : graph * list env :=
  match table with
  | [] => (g, [])
  | e :: table' =>
      let (g1, es) := step rows c g e in
      let (g2, es') := run_clause rows c g1 table' in
      (g2, es ++ es')
  end.

Fixpoint run_clauses (rows : list record) (q : list clause) (g : graph)
                     (table : list env) : graph * list env :=
  match q with
  | [] => (g, table)
  | c :: q' =>
      let (g', table') := run_clause rows c g table in
      run_clauses rows q' g' table'
  end.

(** A query starts from the table of one empty record. *)
Definition run_query (q : list clause) (rows : list record) (g : graph)
  : graph :=
  fst (run_clauses rows q g [Env [] []]).

Definition run_stmt (s : stmt) (rows : list record) (g : graph) : graph :=
  match s with
  | CreateIndex _ _ => g
  | DetachDeleteAll => empty_graph
  | Query q => run_query q rows g
  end.

Definition node_count (g : graph) : nat := length (nodes g).

Definition count_label (l : string) (g : graph) : nat :=
  length (filter (fun n => String.eqb (nlabel n) l) (nodes g)).

(* ================================================================== *)
(** * The Memgraph loader ([src/memgraph/load.py]) *)

Module Memgraph.

(** What the loader asks of [mgclient]. *)
Inductive call : Type :=
| Connect                                            (* mgclient.connect *)
| Execute (s : stmt) (rows : option (list record))   (* cursor.execute *)
| Commit                                             (* connection.commit *)
| Close.                                             (* connection.close *)

Definition indices : list stmt :=
  [ CreateIndex "Region" "regionkey";
    CreateIndex "Nation" "nationkey";
    CreateIndex "Supplier" "suppkey";
    CreateIndex "Customer" "custkey";
    CreateIndex "Part" "partkey";
    CreateIndex "Order" "orderkey";
    CreateIndex "Customer" "nationkey";
    CreateIndex "Supplier" "nationkey";
    CreateIndex "Nation" "regionkey";
    CreateIndex "Order" "custkey";
    CreateIndex "LineItem" "orderkey";
    CreateIndex "LineItem" "partkey";
    CreateIndex "LineItem" "suppkey" ].

(** ** The query of each table *)

Definition same (ps : list string) : list (string * string) :=
  map (fun p => (p, p)) ps.

Definition query_region : list clause :=
  [ UNWIND_rows;
    MERGE_node "r" "Region" "regionkey" "regionkey";
    SET "r" (same ["name"; "comment"]) ].

Definition query_nation : list clause :=
  [ UNWIND_rows;
    MERGE_node "n" "Nation" "nationkey" "nationkey";
    SET "n" (same ["name"; "comment"]);
    WITH ["n"; "row"];
    MATCH_node "r" "Region" "regionkey" "regionkey";
    MERGE_rel "n" None "BELONGS_TO" "r" ].

Definition query_supplier : list clause :=
  [ UNWIND_rows;
    MERGE_node "s" "Supplier" "suppkey" "suppkey";
    SET "s" (same ["name"; "address"; "phone"; "acctbal"; "comment"]);
    WITH ["s"; "row"];
    MATCH_node "n" "Nation" "nationkey" "nationkey";
    MERGE_rel "s" None "LOCATED_IN" "n" ].

Definition query_customer : list clause :=
  [ UNWIND_rows;
    MERGE_node "c" "Customer" "custkey" "custkey";
    SET "c" (same ["name"; "address"; "phone"; "acctbal"; "mktsegment";
                   "comment"]);
    WITH ["c"; "row"];
    MATCH_node "n" "Nation" "nationkey" "nationkey";
    MERGE_rel "c" None "LOCATED_IN" "n" ].

Definition query_part : list clause :=
  [ UNWIND_rows;
    MERGE_node "p" "Part" "partkey" "partkey";
    SET "p" (same ["name"; "mfgr"; "brand"; "type"; "size"; "container";
                   "retailprice"; "comment"]) ].

Definition query_partsupp : list clause :=
  [ UNWIND_rows;
    MATCH_node "p" "Part" "partkey" "partkey";
    MATCH_node "s" "Supplier" "suppkey" "suppkey";
    MERGE_rel "s" (Some "ps") "SUPPLIES" "p";
    SET "ps" (same ["availqty"; "supplycost"; "comment"]) ].

Definition query_orders : list clause :=
  [ UNWIND_rows;
    MERGE_node "o" "Order" "orderkey" "orderkey";
    SET "o" (same ["orderstatus"; "totalprice"; "orderdate";
                   "orderpriority"; "clerk"; "shippriority"; "comment"]);
    WITH ["o"; "row"];
    MATCH_node "c" "Customer" "custkey" "custkey";
    MERGE_rel "c" None "PLACED" "o" ].

Definition query_lineitem : list clause :=
  [ UNWIND_rows;
    MATCH_node "o" "Order" "orderkey" "orderkey";
    MATCH_node "p" "Part" "partkey" "partkey";
    MATCH_node "s" "Supplier" "suppkey" "suppkey";
    CREATE_node "li" "LineItem"
      (same ["orderkey"; "partkey"; "suppkey"; "linenumber"; "quantity";
             "extendedprice"; "discount"; "tax"; "returnflag";
             "linestatus"; "shipdate"; "commitdate"; "receiptdate";
             "shipinstruct"; "shipmode"; "comment"]);
    CREATE_rel "o" "CONTAINS" "li";
    CREATE_rel "li" "OF_PART" "p";
    CREATE_rel "li" "SUPPLIED_BY" "s" ].

(** ** The loader *)

Section Loader.
Variable B : Type.
Variable respond : B -> call -> B * reply.

Local Abbreviation M := (M call B).
Local Abbreviation call_ c := (request respond c).

Definition connect : M unit :=
  _ <- call_ Connect;; ret tt.

Definition setup_indices : M unit :=
  for_ indices (fun index_query =>
    try_except
      (_ <- call_ (Execute index_query None);; ret tt)
      (fun e => print ("Index creation warning: " ++ e)%string)).

Definition setup : M unit := setup_indices.

Definition clear : M unit :=
  try_except
    (_ <- call_ (Execute DetachDeleteAll None);; ret tt)
    (fun e => print ("Clear database warning: " ++ e)%string).

Definition batch_load (query : list clause) (data : list record)
                      (table_name : string) (batch_size : Z) : M unit :=
  let len := Z.of_nat (length data) in
  total_batches <- floordiv (len + batch_size - 1) batch_size;;
  for_ (py_range 0 len batch_size) (fun i =>
    let batch := py_slice data i (i + batch_size) in
    _ <- call_ (Execute (Query query) (Some batch));;
    _ <- call_ Commit;;
    print (table_name ++ ": Loaded batch " ++ showZ (i / batch_size + 1)
           ++ " of " ++ showZ total_batches)%string).

Definition aload_region : M unit :=
  df <- read_csv "region.tbl" 3;;
  data <- set_columns df ["regionkey"; "name"; "comment"];;
  batch_load query_region data "Region" 1000.

Definition aload_nation : M unit :=
  df <- read_csv "nation.tbl" 4;;
  data <- set_columns df ["nationkey"; "name"; "regionkey"; "comment"];;
  batch_load query_nation data "Nation" 1000.

Definition aload_supplier : M unit :=
  df <- read_csv "supplier.tbl" 7;;
  data <- set_columns df ["suppkey"; "name"; "address"; "nationkey";
                          "phone"; "acctbal"; "comment"];;
  batch_load query_supplier data "Supplier" 1000.

Definition aload_customer : M unit :=
  df <- read_csv "customer.tbl" 8;;
  data <- set_columns df ["custkey"; "name"; "address"; "nationkey";
                          "phone"; "acctbal"; "mktsegment"; "comment"];;
  batch_load query_customer data "Customer" 1000.

Definition aload_part : M unit :=
  df <- read_csv "part.tbl" 9;;
  data <- set_columns df ["partkey"; "name"; "mfgr"; "brand"; "type";
                          "size"; "container"; "retailprice"; "comment"];;
  batch_load query_part data "Part" 1000.

Definition aload_partsupp : M unit :=
  df <- read_csv "partsupp.tbl" 5;;
  data <- set_columns df ["partkey"; "suppkey"; "availqty"; "supplycost";
                          "comment"];;
  batch_load query_partsupp data "PartSupp" 1000.

Definition aload_orders : M unit :=
  df <- read_csv "orders.tbl" 9;;
  data <- set_columns df ["orderkey"; "custkey"; "orderstatus";
                          "totalprice"; "orderdate"; "orderpriority";
                          "clerk"; "shippriority"; "comment"];;
  batch_load query_orders data "Orders" 1000.

Definition aload_lineitem : M unit :=
  df <- read_csv "lineitem.tbl" 16;;
  data <- set_columns df ["orderkey"; "partkey"; "suppkey"; "linenumber";
                          "quantity"; "extendedprice"; "discount"; "tax";
                          "returnflag"; "linestatus"; "shipdate";
                          "commitdate"; "receiptdate"; "shipinstruct";
                          "shipmode"; "comment"];;
  batch_load query_lineitem data "LineItem" 1000.

Definition aload : M unit :=
  print "Starting TPC-H data load...";;
  aload_region;;
  aload_nation;;
  aload_supplier;;
  aload_customer;;
  aload_part;;
  aload_partsupp;;
  aload_orders;;
  aload_lineitem;;
  print "All tables loaded successfully!".

Definition close : M unit :=
  _ <- call_ Close;; ret tt.

Definition main : M unit :=
  connect;;
  clear;;
  setup;;
  aload;;
  close.
End Loader.

Arguments connect {B} respond.
Arguments setup_indices {B} respond.
Arguments setup {B} respond.
Arguments clear {B} respond.
Arguments batch_load {B} respond query data table_name batch_size.
Arguments aload_region {B} respond.
Arguments aload_nation {B} respond.
Arguments aload_supplier {B} respond.
Arguments aload_customer {B} respond.
Arguments aload_part {B} respond.
Arguments aload_partsupp {B} respond.
Arguments aload_orders {B} respond.
Arguments aload_lineitem {B} respond.
Arguments aload {B} respond.
Arguments close {B} respond.
Arguments main {B} respond.

(** ** Memgraph as the store *)

(** The store behind the connection, when every statement succeeds: a
    query acts on the graph, the other calls leave it as it is. *)
Definition store (g : graph) (c : call) : graph * reply :=
  match c with
  | Execute s (Some rows) => (run_stmt s rows g, Ok RNone)
  | Execute s None => (run_stmt s [] g, Ok RNone)
  | _ => (g, Ok RNone)
  end.

End Memgraph.

(* ================================================================== *)
(** * The ArangoDB loader ([src/arangodb/load.py]) *)

(** [s.split(sep)] for a one-character separator. *)
Fixpoint split_on (sep : ascii) (s : string) : list string :=
  match s with
  | EmptyString => [EmptyString]
  | String c s' =>
      if Ascii.eqb c sep then EmptyString :: split_on sep s'
      else match split_on sep s' with
           | [] => [String c EmptyString]
           | w :: ws => String c w :: ws
           end
  end.

Module Arango.

Inductive kind : Type := DOCUMENT | EDGE.

(** What the loader asks of [arangoasync]. *)
Inductive call : Type :=
| Db (name : string)                                   (* client.db *)
| HasDatabase (name : string)
| CreateDatabase (name : string)
| HasCollection (name : string)
| CreateCollection (name : string) (col_type : kind)
| AddIndex (coll field : string) (unique : bool) (name : string)
| HasGraph (name : string)
| DeleteGraph (name : string) (drop_collections : bool)
| DeleteCollection (name : string)
| InsertMany (coll : string) (docs : list record)
| CreateGraph (name : string)
| CreateEdgeDefinition (edge_collection : string)
                       (from_vertex_collections to_vertex_collections
                        : list string)
| ClientClose.

Definition VERTICES : list string :=
  ["region"; "nation"; "supplier"; "customer"; "part"; "partsupp"; "orders";
   "lineitem"].

Definition EDGES : list string :=
  ["nation_region"; "customer_nation"; "supplier_nation"; "customer_orders";
   "order_lineitems"; "lineitem_supplier"; "lineitem_part"; "partsupp_part";
   "partsupp_supplier"].

Definition INDICES : list (string * list (string * bool)) :=
  [ ("customer", [("c_custkey", true)]);
    ("orders", [("o_orderkey", true); ("o_custkey", false)]);
    ("lineitem", [("l_orderkey", false); ("l_partkey", false);
                  ("l_suppkey", false)]);
    ("partsupp", [("ps_partkey", false); ("ps_suppkey", false)]);
    ("supplier", [("s_suppkey", true)]);
    ("part", [("p_partkey", true)]);
    ("nation", [("n_nationkey", true)]);
    ("region", [("r_regionkey", true)]) ].

(** The default configuration. *)
Definition database : string := "tpch".
Definition graph_name : string := "tpchgraph".

(** ** The row mappers *)

(** [{"_key": key, c: row[c], ...}] for the listed columns. *)
Definition doc_of (key : string) (cols : list string) (row : record)
  : record :=
  ("_key", VStr key) :: map (fun c => (c, row_get row c)) cols.

(** [{"_from": from, "_to": to, c: row[c]}]. *)
Definition edge_of (from to : string) (c : string) (row : record) : record :=
  [("_from", VStr from); ("_to", VStr to); (c, row_get row c)].

Definition region_doc (row : record) : record :=
  doc_of (str (row_get row "r_regionkey"))
         ["r_regionkey"; "r_name"; "r_comment"] row.

Definition nation_doc (row : record) : record :=
  doc_of (str (row_get row "n_nationkey"))
         ["n_nationkey"; "n_name"; "n_comment"] row.

Definition nation_region_edge (row : record) : record :=
  edge_of ("nation/" ++ str (row_get row "n_nationkey"))%string
          ("region/" ++ str (row_get row "n_regionkey"))%string
          "n_regionkey" row.

Definition supplier_doc (row : record) : record :=
  doc_of (str (row_get row "s_suppkey"))
         ["s_suppkey"; "s_name"; "s_address"; "s_phone"; "s_acctbal";
          "s_comment"] row.

Definition supplier_nation_edge (row : record) : record :=
  edge_of ("supplier/" ++ str (row_get row "s_suppkey"))%string
          ("nation/" ++ str (row_get row "s_nationkey"))%string
          "s_nationkey" row.

Definition customer_doc (row : record) : record :=
  doc_of (str (row_get row "c_custkey"))
         ["c_custkey"; "c_name"; "c_address"; "c_phone"; "c_acctbal";
          "c_mktsegment"; "c_comment"] row.

Definition customer_nation_edge (row : record) : record :=
  edge_of ("customer/" ++ str (row_get row "c_custkey"))%string
          ("nation/" ++ str (row_get row "c_nationkey"))%string
          "c_nationkey" row.

Definition part_doc (row : record) : record :=
  doc_of (str (row_get row "p_partkey"))
         ["p_partkey"; "p_name"; "p_mfgr"; "p_brand"; "p_type"; "p_size";
          "p_container"; "p_retailprice"; "p_comment"] row.

Definition partsupp_key (row : record) : string :=
  (str (row_get row "ps_partkey") ++ "_" ++ str (row_get row "ps_suppkey"))
  %string.

Definition partsupp_doc (row : record) : record :=
  doc_of (partsupp_key row)
         ["ps_partkey"; "ps_suppkey"; "ps_availqty"; "ps_supplycost";
          "ps_comment"] row.

Definition partsupp_part_edge (row : record) : record :=
  edge_of ("partsupp/" ++ partsupp_key row)%string
          ("part/" ++ str (row_get row "ps_partkey"))%string
          "ps_partkey" row.

Definition partsupp_supplier_edge (row : record) : record :=
  edge_of ("partsupp/" ++ partsupp_key row)%string
          ("supplier/" ++ str (row_get row "ps_suppkey"))%string
          "ps_suppkey" row.

Definition order_doc (row : record) : record :=
  doc_of (str (row_get row "o_orderkey"))
         ["o_orderkey"; "o_orderstatus"; "o_totalprice"; "o_orderdate";
          "o_orderpriority"; "o_clerk"; "o_shippriority"; "o_comment"] row.

Definition customer_orders_edge (row : record) : record :=
  edge_of ("customer/" ++ str (row_get row "o_custkey"))%string
          ("orders/" ++ str (row_get row "o_orderkey"))%string
          "o_custkey" row.

Definition lineitem_key (row : record) : string :=
  (str (row_get row "l_orderkey") ++ "_" ++ str (row_get row "l_linenumber"))
  %string.

Definition lineitem_doc (row : record) : record :=
  doc_of (lineitem_key row)
         ["l_orderkey"; "l_partkey"; "l_suppkey"; "l_linenumber";
          "l_quantity"; "l_extendedprice"; "l_discount"; "l_tax";
          "l_returnflag"; "l_linestatus"; "l_shipdate"; "l_commitdate";
          "l_receiptdate"; "l_shipinstruct"; "l_shipmode"; "l_comment"] row.

Definition order_lineitems_edge (row : record) : record :=
  edge_of ("orders/" ++ str (row_get row "l_orderkey"))%string
          ("lineitem/" ++ lineitem_key row)%string
          "l_orderkey" row.

Definition lineitem_part_edge (row : record) : record :=
  edge_of ("lineitem/" ++ lineitem_key row)%string
          ("part/" ++ str (row_get row "l_partkey"))%string
          "l_partkey" row.

Definition lineitem_supplier_edge (row : record) : record :=
  edge_of ("lineitem/" ++ lineitem_key row)%string
          ("supplier/" ++ str (row_get row "l_suppkey"))%string
          "l_suppkey" row.

Definition count {A : Type} (l : list A) : string :=
  showZ (Z.of_nat (length l)).

(** ** The loader *)

Section Loader.
Variable B : Type.
Variable respond : B -> call -> B * reply.

Local Abbreviation M := (M call B).
Local Abbreviation call_ c := (request respond c).

Definition insert_many (coll : string) (docs : list record) : M unit :=
  _ <- call_ (InsertMany coll docs);; ret tt.

Definition aconnect : M unit :=
  _ <- call_ (Db "_system");;
  has <- call_ (HasDatabase database);;
  (if negb (truthy has)
   then print ("Database: " ++ database ++ " does not exist, creating...")
              %string;;
        _ <- call_ (CreateDatabase database);; ret tt
   else ret tt);;
  _ <- call_ (Db database);;
  ret tt.

Definition ensure_collection (k : kind) (coll : string) : M unit :=
  has <- call_ (HasCollection coll);;
  if negb (truthy has)
  then _ <- call_ (CreateCollection coll k);; ret tt
  else ret tt.

(** The inner loop of [asetup]: the indices of one collection. *)
Definition add_indices (name : string) (indices : list (string * bool))
  : M unit :=
  for_ indices (fun fu =>
    let idx := (name ++ "_" ++ fst fu ++ "_idx")%string in
    try_except
      (_ <- call_ (AddIndex name (fst fu) (snd fu) idx);; ret tt)
      (fun e => print ("Index creation warning for " ++ idx ++ ": " ++ e)
                      %string)).

Definition asetup : M unit :=
  for_ VERTICES (ensure_collection DOCUMENT);;
  for_ EDGES (ensure_collection EDGE);;
  print "Creating indices...";;
  for_ INDICES (fun ni =>
    has <- call_ (HasCollection (fst ni));;
    if truthy has then add_indices (fst ni) (snd ni) else ret tt).

Definition aclear : M unit :=
  has <- call_ (HasGraph graph_name);;
  if truthy has
  then _ <- call_ (DeleteGraph graph_name true);; ret tt
  else
    for_ (VERTICES ++ EDGES) (fun coll =>
      has <- call_ (HasCollection coll);;
      if truthy has
      then _ <- call_ (DeleteCollection coll);; ret tt
      else ret tt).

Definition aload_region : M unit :=
  print "Loading region data...";;
  df <- read_csv "region.tbl" 3;;
  df <- set_columns df ["r_regionkey"; "r_name"; "r_comment"];;
  let data := map region_doc df in
  insert_many "region" data;;
  print ("Loaded " ++ count data ++ " regions")%string.

Definition aload_nation : M unit :=
  print "Loading nation data...";;
  df <- read_csv "nation.tbl" 4;;
  df <- set_columns df ["n_nationkey"; "n_name"; "n_regionkey"; "n_comment"];;
  let nation_data := map nation_doc df in
  let edge_data := map nation_region_edge df in
  insert_many "nation" nation_data;;
  print ("Loaded " ++ count nation_data ++ " nations")%string;;
  insert_many "nation_region" edge_data;;
  print ("Created " ++ count edge_data ++ " nation-region relationships")
        %string.

Definition aload_supplier : M unit :=
  print "Loading supplier data...";;
  df <- read_csv "supplier.tbl" 7;;
  df <- set_columns df ["s_suppkey"; "s_name"; "s_address"; "s_nationkey";
                        "s_phone"; "s_acctbal"; "s_comment"];;
  let supplier_data := map supplier_doc df in
  let edge_data := map supplier_nation_edge df in
  insert_many "supplier" supplier_data;;
  print ("Loaded " ++ count supplier_data ++ " suppliers")%string;;
  insert_many "supplier_nation" edge_data;;
  print ("Created " ++ count edge_data ++ " supplier-nation relationships")
        %string.

Definition aload_customer : M unit :=
  print "Loading customer data...";;
  df <- read_csv "customer.tbl" 8;;
  df <- set_columns df ["c_custkey"; "c_name"; "c_address"; "c_nationkey";
                        "c_phone"; "c_acctbal"; "c_mktsegment"; "c_comment"];;
  let customer_data := map customer_doc df in
  let edge_data := map customer_nation_edge df in
  insert_many "customer" customer_data;;
  print ("Loaded " ++ count customer_data ++ " customers")%string;;
  insert_many "customer_nation" edge_data;;
  print ("Created " ++ count edge_data ++ " customer-nation relationships")
        %string.

Definition aload_part : M unit :=
  print "Loading part data...";;
  df <- read_csv "part.tbl" 9;;
  df <- set_columns df ["p_partkey"; "p_name"; "p_mfgr"; "p_brand"; "p_type";
                        "p_size"; "p_container"; "p_retailprice";
                        "p_comment"];;
  let data := map part_doc df in
  insert_many "part" data;;
  print ("Loaded " ++ count data ++ " parts")%string.

Definition aload_partsupp : M unit :=
  print "Loading partsupp data...";;
  df <- read_csv "partsupp.tbl" 5;;
  df <- set_columns df ["ps_partkey"; "ps_suppkey"; "ps_availqty";
                        "ps_supplycost"; "ps_comment"];;
  let partsupp_data := map partsupp_doc df in
  let part_edges := map partsupp_part_edge df in
  let supplier_edges := map partsupp_supplier_edge df in
  insert_many "partsupp" partsupp_data;;
  print ("Loaded " ++ count partsupp_data ++ " partsupp records")%string;;
  insert_many "partsupp_part" part_edges;;
  print ("Created " ++ count part_edges ++ " partsupp-part relationships")
        %string;;
  insert_many "partsupp_supplier" supplier_edges;;
  print ("Created " ++ count supplier_edges
         ++ " partsupp-supplier relationships")%string.

Definition aload_orders : M unit :=
  print "Loading orders data...";;
  df <- read_csv "orders.tbl" 9;;
  df <- set_columns df ["o_orderkey"; "o_custkey"; "o_orderstatus";
                        "o_totalprice"; "o_orderdate"; "o_orderpriority";
                        "o_clerk"; "o_shippriority"; "o_comment"];;
  let orders_data := map order_doc df in
  let edge_data := map customer_orders_edge df in
  insert_many "orders" orders_data;;
  print ("Loaded " ++ count orders_data ++ " orders")%string;;
  insert_many "customer_orders" edge_data;;
  print ("Created " ++ count edge_data ++ " customer-orders relationships")
        %string.

(** The batches of [aload_lineitem], for a frame and a batch size. *)
Definition lineitem_batches (batch_size : Z) (df : list record) : M unit :=
  let total_rows := Z.of_nat (length df) in
  total_batches <- floordiv (total_rows + batch_size - 1) batch_size;;
  print ("Processing " ++ showZ total_rows ++ " lineitem records in "
         ++ showZ total_batches ++ " batches of " ++ showZ batch_size)
        %string;;
  for_ (py_range 0 total_batches 1) (fun batch_num =>
    let start_idx := (batch_num * batch_size)%Z in
    let end_idx := Z.min ((batch_num + 1) * batch_size) total_rows in
    let batch_df := py_slice df start_idx end_idx in
    let lineitem_data := map lineitem_doc batch_df in
    let order_edges := map order_lineitems_edge batch_df in
    let part_edges := map lineitem_part_edge batch_df in
    let supplier_edges := map lineitem_supplier_edge batch_df in
    insert_many "lineitem" lineitem_data;;
    insert_many "order_lineitems" order_edges;;
    insert_many "lineitem_part" part_edges;;
    insert_many "lineitem_supplier" supplier_edges;;
    print ("Completed batch " ++ showZ (batch_num + 1) ++ "/"
           ++ showZ total_batches ++ " (" ++ count lineitem_data
           ++ " records)")%string);;
  print ("Loaded " ++ showZ total_rows
         ++ " lineitem records and all relationships successfully!")%string.

Definition aload_lineitem : M unit :=
  print "Loading lineitem data...";;
  df <- read_csv "lineitem.tbl" 16;;
  df <- set_columns df ["l_orderkey"; "l_partkey"; "l_suppkey";
                        "l_linenumber"; "l_quantity"; "l_extendedprice";
                        "l_discount"; "l_tax"; "l_returnflag"; "l_linestatus";
                        "l_shipdate"; "l_commitdate"; "l_receiptdate";
                        "l_shipinstruct"; "l_shipmode"; "l_comment"];;
  lineitem_batches 1000 df.

Definition aload : M unit :=
  print "Starting TPC-H data load for ArangoDB...";;
  aload_region;;
  aload_nation;;
  aload_supplier;;
  aload_customer;;
  aload_part;;
  aload_partsupp;;
  aload_orders;;
  aload_lineitem;;
  print "All tables loaded successfully!".

Definition agraph : M unit :=
  has <- call_ (HasGraph graph_name);;
  if negb (truthy has)
  then
    _ <- call_ (CreateGraph graph_name);;
    for_ EDGES (fun coll =>
      match split_on "_"%char coll with
      | [_from; _to] =>
          _ <- call_ (CreateEdgeDefinition coll [_from] [_to]);; ret tt
      | _ => raise "unpack" "ValueError: not enough values to unpack"
      end)
  else ret tt.

Definition aclose : M unit :=
  _ <- call_ ClientClose;; ret tt.

Definition main : M unit :=
  aconnect;;
  aclear;;
  asetup;;
  aload;;
  agraph;;
  aclose.
End Loader.

Arguments insert_many {B} respond coll docs.
Arguments aconnect {B} respond.
Arguments ensure_collection {B} respond k coll.
Arguments add_indices {B} respond name indices.
Arguments asetup {B} respond.
Arguments aclear {B} respond.
Arguments aload_region {B} respond.
Arguments aload_nation {B} respond.
Arguments aload_supplier {B} respond.
Arguments aload_customer {B} respond.
Arguments aload_part {B} respond.
Arguments aload_partsupp {B} respond.
Arguments aload_orders {B} respond.
Arguments lineitem_batches {B} respond batch_size df.
Arguments aload_lineitem {B} respond.
Arguments aload {B} respond.
Arguments agraph {B} respond.
Arguments aclose {B} respond.
Arguments main {B} respond.

End Arango.

(* ================================================================== *)
(** * Runs against a store that answers every call *)

Section Runs.
Variables (C B : Type).
Variable respond : B -> C -> B * reply.

Local Abbreviation M := (M C B).

(** The store after a sequence of calls. *)
Definition play (cs : list C) (b : B) : B :=
  fold_left (fun b c => fst (respond b c)) cs b.

(** No call raises. *)
Definition reliable : Prop :=
  forall b c, exists v, snd (respond b c) = Ok v.

(** With the files [F], [m] returns [a] after exactly the store calls [cs],
    whatever the history and the store state it starts from. *)
Definition does {A : Type} (F : string -> exn + table_file) (m : M A)
                (cs : list C) (a : A) : Prop :=
  forall w, files w = F ->
    exists w', m w = (w', inr a) /\ files w' = F /\
               conn w' = play cs (conn w) /\
               calls_of (trace w') = calls_of (trace w) ++ cs.

Lemma calls_of_app (tr tr' : list (event C)) :
  calls_of (tr ++ tr') = calls_of tr ++ calls_of tr'.
Proof.
  induction tr as [|[[c|p n|s] r] tr IH]; simpl; try rewrite IH; reflexivity.
Qed.

Lemma play_app (cs cs' : list C) (b : B) :
  play (cs ++ cs') b = play cs' (play cs b).
Proof. unfold play. apply fold_left_app. Qed.

Variable F : string -> exn + table_file.

Lemma does_ret {A : Type} (a : A) : does F (ret a) [] a.
Proof.
  intros w Hw. exists w. simpl. rewrite app_nil_r. auto.
Qed.

Lemma does_bind {A X : Type} (m : M A) (k : A -> M X) cs cs' a x :
  does F m cs a -> does F (k a) cs' x -> does F (bind m k) (cs ++ cs') x.
Proof.
  intros Hm Hk w Hw.
  destruct (Hm w Hw) as (w1 & E1 & F1 & C1 & T1).
  destruct (Hk w1 F1) as (w2 & E2 & F2 & C2 & T2).
  exists w2. unfold bind. rewrite E1, E2.
  repeat split; try assumption.
  - now rewrite C2, C1, play_app.
  - now rewrite T2, T1, app_assoc.
Qed.

Lemma does_print (s : string) : does F (print s) [] tt.
Proof.
  intros w Hw. eexists. split; [reflexivity|]. simpl.
  rewrite app_nil_r. auto.
Qed.

Lemma does_request {X : Type} (c : C) (m : M X) cs x :
  reliable -> does F m cs x ->
  does F (bind (request respond c) (fun _ => m)) (c :: cs) x.
Proof.
  intros R Hm w Hw. unfold bind, request.
  destruct (R (conn w) c) as [v Hv].
  destruct (respond (conn w) c) as [b' r] eqn:E. simpl in Hv. subst r.
  match goal with
  | |- context [m ?w0] => destruct (Hm w0 Hw) as (w1 & E1 & F1 & C1 & T1)
  end.
  exists w1. split; [exact E1|]. split; [exact F1|].
  simpl in C1, T1. rewrite calls_of_app in T1. simpl in T1.
  split.
  - rewrite C1. simpl. now rewrite E.
  - rewrite T1. now rewrite <- app_assoc.
Qed.

Lemma does_read_csv (path : string) (n : nat) (lines : table_file) :
  F path = inr lines ->
  forallb (fun l => n <=? length l) lines = true ->
  does F (read_csv path n) [] (map (firstn n) lines).
Proof.
  intros HF Hn w Hw. unfold read_csv. rewrite Hw, HF, Hn.
  eexists. split; [reflexivity|]. simpl.
  rewrite calls_of_app. simpl. auto.
Qed.

Lemma does_set_columns (df : list (list value)) (names : list string) :
  forallb (fun r => length r =? length names) df = true ->
  does F (set_columns df names) [] (map (combine names) df).
Proof.
  intros H. unfold set_columns. rewrite H. apply does_ret.
Qed.

Lemma does_floordiv (a b : Z) :
  b <> 0%Z -> does F (floordiv a b) [] (a / b)%Z.
Proof.
  intros H. unfold floordiv.
  destruct (Z.eqb_spec b 0); [contradiction|]. apply does_ret.
Qed.

Lemma does_for {X : Type} (xs : list X) (f : X -> M unit)
               (g : X -> list C) :
  (forall x, In x xs -> does F (f x) (g x) tt) ->
  does F (for_ xs f) (flat_map g xs) tt.
Proof.
  induction xs as [|x xs IH]; intros H; simpl.
  - apply does_ret.
  - apply does_bind with (a := tt).
    + apply H. now left.
    + apply IH. intros y Hy. apply H. now right.
Qed.

(** The first [n] fields of a line that has them are [n] fields. *)
Lemma firstn_width (n : nat) (lines : table_file) :
  forallb (fun l => n <=? length l) lines = true ->
  forallb (fun r => length r =? n) (map (firstn n) lines) = true.
Proof.
  intros H. apply forallb_forall. intros r Hr.
  apply in_map_iff in Hr. destruct Hr as (l & <- & Hl).
  rewrite forallb_forall in H. specialize (H l Hl).
  apply Nat.leb_le in H. apply Nat.eqb_eq.
  rewrite length_firstn. lia.
Qed.
End Runs.

Arguments play {C B} respond cs b.
Arguments reliable {C B} respond.
Arguments does {C B} respond {A} F m cs a.

(** The rows a loader gets from [read_csv] and [df.columns = names], when
    the file can be read and has the columns. *)
Definition frame_of (F : string -> exn + table_file) (path : string)
                    (names : list string) : option (list record) :=
  match F path with
  | inl _ => None
  | inr lines =>
      if forallb (fun l => length names <=? length l) lines
      then Some (map (combine names) (map (firstn (length names)) lines))
      else None
  end.

Lemma flat_map_map {A X Y : Type} (h : A -> X) (g : X -> list Y)
                   (l : list A) :
  flat_map g (map h l) = flat_map (fun a => g (h a)) l.
Proof.
  induction l as [|a l IH]; simpl; [reflexivity|]. now rewrite IH.
Qed.

(* ================================================================== *)
(** * Runs of the Memgraph loader *)

Module MemgraphRuns.
Import Memgraph.

(** The calls of [batch_load]: one [execute] and one [commit] per chunk. *)
Definition batch_calls (q : list clause) (n : nat) (data : list record)
  : list call :=
  flat_map (fun chunk => [Execute (Query q) (Some chunk); Commit])
           (chunks n data).

(** The shape all eight table loaders share. *)
Definition load_table {B : Type} (respond : B -> call -> B * reply)
                      (path : string) (names : list string)
                      (q : list clause) (table_name : string)
  : M call B unit :=
  df <- read_csv path (length names);;
  data <- set_columns df names;;
  batch_load respond q data table_name 1000.

Section Reliable.
Variable B : Type.
Variable respond : B -> call -> B * reply.
Hypothesis R : reliable respond.
Variable F : string -> exn + table_file.

Lemma does_batch_load q data name (N : Z) :
  (0 < N)%Z ->
  does respond F (batch_load respond q data name N)
       (batch_calls q (Z.to_nat N) data) tt.
Proof.
  intros HN. unfold batch_load, batch_calls.
  rewrite <- (batches_chunks data N HN), flat_map_map.
  change (flat_map ?g ?l) with ([] ++ flat_map g l).
  eapply does_bind.
  - apply does_floordiv. lia.
  - apply does_for. intros i _.
    apply does_request; [exact R|].
    apply does_request; [exact R|].
    apply does_print.
Qed.

Lemma does_load_table path names q name data :
  frame_of F path names = Some data ->
  does respond F (load_table respond path names q name)
       (batch_calls q 1000 data) tt.
Proof.
  unfold frame_of. intros H.
  destruct (F path) as [e|lines] eqn:HF; [discriminate|].
  destruct (forallb _ lines) eqn:Hn; [|discriminate].
  injection H as <-.
  unfold load_table.
  change (batch_calls q 1000 ?d) with ([] ++ [] ++ batch_calls q 1000 d).
  eapply does_bind; [apply does_read_csv; eassumption|].
  eapply does_bind.
  - apply does_set_columns. now apply firstn_width.
  - apply (does_batch_load q _ name 1000%Z). lia.
Qed.

(** A table that cannot be read stops its loader before any call. *)
Lemma load_table_fails path names q name :
  frame_of F path names = None ->
  forall w, files w = F ->
    exists w' e, load_table respond path names q name w = (w', inl e) /\
                 files w' = F /\ conn w' = conn w /\
                 calls_of (trace w') = calls_of (trace w).
Proof.
  unfold frame_of. intros H w Hw.
  unfold load_table, bind, read_csv. rewrite Hw.
  destruct (F path) as [e|lines] eqn:HF.
  - eexists; eexists. split; [reflexivity|]. simpl.
    rewrite calls_of_app. simpl. rewrite app_nil_r. auto.
  - destruct (forallb _ lines) eqn:Hn; [discriminate|].
    eexists; eexists. split; [reflexivity|]. simpl.
    rewrite calls_of_app. simpl. rewrite app_nil_r. auto.
Qed.
End Reliable.

End MemgraphRuns.

(* ================================================================== *)
(** * Facts about the graph store *)

Module CypherFacts.

(** What a [MERGE] or [MATCH] on label and property [k] sees of a node. *)
Definition kview (k : string) (g : graph) : list (string * option value) :=
  map (fun n => (nlabel n, assoc k (nprops n))) (nodes g).

Definition entry_matches (l : string) (v : value)
                         (e : string * option value) : bool :=
  String.eqb (fst e) l &&
  match snd e with
  | Some v' => value_eqb v' v
  | None => false
  end.

(** [MERGE (x:l {k: v})] over a list of values, on the view. *)
Fixpoint merge_keys (l : string) (vs : list value)
                    (kv : list (string * option value))
  : list (string * option value) :=
  match vs with
  | [] => kv
  | v :: vs' =>
      merge_keys l vs'
        (if existsb (entry_matches l v) kv then kv else kv ++ [(l, Some v)])
  end.

(** Clauses that leave the view on [k] as it is: they create no node and
    set no property [k]. *)
Definition quiet (k : string) (c : clause) : bool :=
  match c with
  | MERGE_node _ _ _ _ => false
  | CREATE_node _ _ _ => false
  | SET _ ps => negb (existsb (String.eqb k) (map fst ps))
  | _ => true
  end.

Lemma find_from_nil {A : Type} (p : A -> bool) (i : nat) (l : list A) :
  find_from p i l = [] <-> existsb p l = false.
Proof.
  revert i; induction l as [|a l IH]; intros i; simpl; [tauto|].
  destruct (p a); simpl; [split; discriminate|apply IH].
Qed.

Lemma find_from_app {A : Type} (p : A -> bool) (i : nat) (l l' : list A) :
  find_from p i (l ++ l') = find_from p i l ++ find_from p (i + length l) l'.
Proof.
  revert i; induction l as [|a l IH]; intros i; simpl.
  - now rewrite Nat.add_0_r.
  - rewrite IH. replace (S i + length l) with (i + S (length l)) by lia.
    now destruct (p a).
Qed.

Lemma find_from_none {A : Type} (p : A -> bool) (i : nat) (l : list A) :
  (forall a, In a l -> p a = false) -> find_from p i l = [].
Proof.
  intros H. apply find_from_nil.
  destruct (existsb p l) eqn:E; [|reflexivity].
  apply existsb_exists in E. destruct E as (a & Ha & Hp).
  rewrite (H a Ha) in Hp. discriminate.
Qed.

Lemma existsb_kview (l k : string) (v : value) (g : graph) :
  existsb (node_matches l k v) (nodes g) =
  existsb (entry_matches l v) (kview k g).
Proof.
  unfold kview. induction (nodes g) as [|n ns IH]; simpl; [reflexivity|].
  now rewrite IH.
Qed.

Lemma assoc_set_same (k : string) (v : value) (r : record) :
  assoc k (assoc_set k v r) = Some v.
Proof.
  induction r as [|[k' v'] r IH]; simpl.
  - now rewrite String.eqb_refl.
  - destruct (String.eqb k k') eqn:E; simpl.
    + now rewrite String.eqb_refl.
    + now rewrite E.
Qed.

Lemma assoc_set_other (k k' : string) (v : value) (r : record) :
  String.eqb k k' = false -> assoc k (assoc_set k' v r) = assoc k r.
Proof.
  intros Hk. induction r as [|[k2 v2] r IH]; simpl.
  - now rewrite Hk.
  - destruct (String.eqb k' k2) eqn:E; simpl.
    + apply String.eqb_eq in E. subst k2. now rewrite Hk.
    + now rewrite IH.
Qed.

Lemma set_props_other (k : string) (row : record)
                      (ps : list (string * string)) (props : record) :
  existsb (String.eqb k) (map fst ps) = false ->
  assoc k (set_props row ps props) = assoc k props.
Proof.
  unfold set_props. revert props.
  induction ps as [|p ps IH]; intros props H; simpl in *; [reflexivity|].
  apply orb_false_iff in H. destruct H as [H1 H2].
  rewrite IH by assumption. now apply assoc_set_other.
Qed.

Lemma map_update_nth {A X : Type} (h : A -> X) (f : A -> A) (i : nat)
                     (l : list A) :
  (forall a, h (f a) = h a) -> map h (update_nth i f l) = map h l.
Proof.
  intros H. revert i; induction l as [|a l IH]; intros i.
  - now destruct i.
  - destruct i; simpl; [now rewrite H|now rewrite IH].
Qed.

Lemma step_quiet (k : string) rows c g e :
  quiet k c = true -> kview k (fst (step rows c g e)) = kview k g.
Proof.
  destruct c; simpl; intros Q; try discriminate; try reflexivity.
  - destruct (lookup_var x (evars e)) as [[i|i]|]; simpl; try reflexivity.
    unfold kview. simpl. apply map_update_nth. intros n. simpl.
    rewrite set_props_other; [reflexivity|].
    now apply negb_true_iff in Q.
  - destruct (lookup_var a (evars e)) as [[i|i]|]; try reflexivity.
    destruct (lookup_var b (evars e)) as [[j|j]|]; try reflexivity.
    now destruct (find_rels i t j g).
  - destruct (lookup_var a (evars e)) as [[i|i]|]; try reflexivity.
    now destruct (lookup_var b (evars e)) as [[j|j]|].
Qed.

Lemma run_clause_quiet (k : string) rows c g table :
  quiet k c = true -> kview k (fst (run_clause rows c g table)) = kview k g.
Proof.
  intros Q. revert g; induction table as [|e t IH]; intros g; simpl.
  - reflexivity.
  - pose proof (step_quiet k rows c g e Q) as S.
    destruct (step rows c g e) as [g1 es]. simpl in S.
    specialize (IH g1).
    destruct (run_clause rows c g1 t) as [g2 es']. simpl in *. congruence.
Qed.

Lemma run_clauses_quiet (k : string) rows q g table :
  forallb (quiet k) q = true ->
  kview k (fst (run_clauses rows q g table)) = kview k g.
Proof.
  revert g table; induction q as [|c q IH]; intros g table Q; simpl.
  - reflexivity.
  - simpl in Q. apply andb_true_iff in Q. destruct Q as [Q1 Q2].
    pose proof (run_clause_quiet k rows c g table Q1) as S.
    destruct (run_clause rows c g table) as [g1 t1]. simpl in S.
    rewrite IH by assumption. exact S.
Qed.

Lemma run_clause_unwind rows g e :
  run_clause rows UNWIND_rows g [e] = (g, map (fun r => Env r (evars e)) rows).
Proof. simpl. now rewrite app_nil_r. Qed.

(** A [MERGE] of a node over the whole table. *)
Lemma run_clause_merge x l k f rows g table :
  kview k (fst (run_clause rows (MERGE_node x l k f) g table)) =
  merge_keys l (map (fun e => row_get (erow e) f) table) (kview k g).
Proof.
  revert g; induction table as [|e t IH]; intros g; [reflexivity|].
  simpl. rewrite <- existsb_kview.
  destruct (find_nodes l k (row_get (erow e) f) g) as [|i ids] eqn:Ef.
  - apply find_from_nil in Ef. rewrite Ef.
    specialize (IH (add_node (Node l [(k, row_get (erow e) f)]) g)).
    destruct (run_clause rows _ _ t) as [g2 es']. simpl in *.
    rewrite IH. f_equal. unfold kview. simpl. rewrite map_app. simpl.
    now rewrite String.eqb_refl.
  - assert (Ex : existsb (node_matches l k (row_get (erow e) f)) (nodes g)
                 = true).
    { destruct (existsb _ (nodes g)) eqn:E; [reflexivity|].
      apply find_from_nil with (i := 0) in E.
      unfold find_nodes in Ef. congruence. }
    rewrite Ex. specialize (IH g).
    destruct (run_clause rows _ g t) as [g2 es']. simpl in *. exact IH.
Qed.

(** Queries that upsert label [l] on property [k], read from field [f]:
    an unwind, the merge of the node, and then quiet clauses. *)
Definition upserts (l k f : string) (q : list clause) : bool :=
  match q with
  | UNWIND_rows :: MERGE_node _ l' k' f' :: rest =>
      String.eqb l l' && String.eqb k k' && String.eqb f f' &&
      forallb (quiet k) rest
  | _ => false
  end.

Lemma run_query_upserts l k f q rows g :
  upserts l k f q = true ->
  kview k (run_query q rows g) =
  merge_keys l (map (fun r => row_get r f) rows) (kview k g).
Proof.
  destruct q as [|[] [|[] rest]]; try discriminate. simpl.
  intros H. repeat (apply andb_true_iff in H; destruct H as [H ?]).
  apply String.eqb_eq in H. apply String.eqb_eq in H1, H2. subst l0 k0 f0.
  unfold run_query. cbn [run_clauses].
  rewrite run_clause_unwind.
  pose proof (run_clause_merge x l k f rows g
                (map (fun r => Env r []) rows)) as S.
  destruct (run_clause rows (MERGE_node x l k f) g _) as [g1 t1].
  rewrite run_clauses_quiet by assumption.
  simpl in S. rewrite S. now rewrite map_map.
Qed.

(** ** Merging the same keys again *)

Lemma merge_keys_app l vs vs' kv :
  merge_keys l (vs ++ vs') kv = merge_keys l vs' (merge_keys l vs kv).
Proof.
  revert kv; induction vs as [|v vs IH]; intros kv; simpl; [reflexivity|].
  apply IH.
Qed.

Lemma merge_keys_extends l vs kv :
  exists ext, merge_keys l vs kv = kv ++ ext.
Proof.
  revert kv; induction vs as [|v vs IH]; intros kv; simpl.
  - exists []. now rewrite app_nil_r.
  - destruct (existsb (entry_matches l v) kv).
    + apply IH.
    + destruct (IH (kv ++ [(l, Some v)])) as [ext E].
      exists ((l, Some v) :: ext). rewrite E. now rewrite <- app_assoc.
Qed.

Lemma merge_keys_keeps l vs kv p :
  existsb p kv = true -> existsb p (merge_keys l vs kv) = true.
Proof.
  intros H. destruct (merge_keys_extends l vs kv) as [ext ->].
  rewrite existsb_app, H. reflexivity.
Qed.

Lemma merge_keys_covers l vs kv v :
  In v vs -> existsb (entry_matches l v) (merge_keys l vs kv) = true.
Proof.
  revert kv; induction vs as [|v' vs IH]; intros kv Hin; [contradiction|].
  simpl. destruct Hin as [->|Hin]; [|now apply IH].
  apply merge_keys_keeps.
  destruct (existsb (entry_matches l v) kv) eqn:E; [exact E|].
  rewrite existsb_app. simpl. unfold entry_matches at 2. simpl.
  rewrite String.eqb_refl, value_eqb_refl. simpl. apply orb_true_r.
Qed.

Lemma merge_keys_fixed l vs kv :
  (forall v, In v vs -> existsb (entry_matches l v) kv = true) ->
  merge_keys l vs kv = kv.
Proof.
  induction vs as [|v vs IH]; intros H; simpl; [reflexivity|].
  rewrite (H v) by now left. apply IH. intros v' Hv'. apply H. now right.
Qed.

Lemma merge_keys_idem l vs kv :
  merge_keys l vs (merge_keys l vs kv) = merge_keys l vs kv.
Proof.
  apply merge_keys_fixed. intros v Hv. now apply merge_keys_covers.
Qed.

(** The same query on chunk after chunk. *)
Definition run_chunks (q : list clause) (chs : list (list record))
                      (g : graph) : graph :=
  fold_left (fun g ch => run_query q ch g) chs g.

Lemma run_chunks_upserts l k f q chs g :
  upserts l k f q = true ->
  kview k (run_chunks q chs g) =
  merge_keys l (map (fun r => row_get r f) (concat chs)) (kview k g).
Proof.
  intros U. unfold run_chunks.
  revert g; induction chs as [|ch chs IH]; intros g; simpl; [reflexivity|].
  rewrite IH, map_app, merge_keys_app.
  now rewrite (run_query_upserts l k f q ch g U).
Qed.

Lemma run_chunks_quiet k q chs g :
  forallb (quiet k) q = true -> kview k (run_chunks q chs g) = kview k g.
Proof.
  intros Q. unfold run_chunks.
  revert g; induction chs as [|ch chs IH]; intros g; simpl; [reflexivity|].
  rewrite IH. unfold run_query. now apply run_clauses_quiet.
Qed.

Lemma node_count_kview k g : node_count g = length (kview k g).
Proof. unfold node_count, kview. now rewrite length_map. Qed.

Lemma count_label_kview k l g :
  count_label l g =
  length (filter (fun e => String.eqb (fst e) l) (kview k g)).
Proof.
  unfold count_label, kview.
  induction (nodes g) as [|n ns IH]; simpl; [reflexivity|].
  destruct (String.eqb (nlabel n) l); simpl; now rewrite IH.
Qed.

(** ** Queries that create a node per matched record *)

(** Clauses that only read the graph. *)
Definition reads (c : clause) : bool :=
  match c with
  | UNWIND_rows | WITH _ | MATCH_node _ _ _ _ => true
  | _ => false
  end.

(** A [MATCH] on a label other than [l]. *)
Definition matches_other (l : string) (c : clause) : bool :=
  match c with
  | MATCH_node _ l' _ _ => negb (String.eqb l' l)
  | _ => false
  end.

(** Clauses that leave the nodes alone. *)
Definition node_silent (c : clause) : bool :=
  match c with
  | UNWIND_rows | WITH _ | MATCH_node _ _ _ _
  | MERGE_rel _ _ _ _ | CREATE_rel _ _ _ => true
  | _ => false
  end.

Lemma run_clauses_app rows q q' g table :
  run_clauses rows (q ++ q') g table =
  run_clauses rows q' (fst (run_clauses rows q g table))
                      (snd (run_clauses rows q g table)).
Proof.
  revert g table; induction q as [|c q IH]; intros g table; simpl.
  - reflexivity.
  - destruct (run_clause rows c g table) as [g1 t1]. apply IH.
Qed.

Lemma step_reads rows c g e : reads c = true -> fst (step rows c g e) = g.
Proof. destruct c; simpl; intros H; try discriminate; reflexivity. Qed.

Lemma run_clause_reads rows c g table :
  reads c = true -> fst (run_clause rows c g table) = g.
Proof.
  intros H. induction table as [|e t IH]; simpl; [reflexivity|].
  pose proof (step_reads rows c g e H) as S.
  destruct (step rows c g e) as [g1 es]. simpl in S. subst g1.
  destruct (run_clause rows c g t) as [g2 es']. exact IH.
Qed.

Lemma run_clauses_reads rows q g table :
  forallb reads q = true -> fst (run_clauses rows q g table) = g.
Proof.
  revert table; induction q as [|c q IH]; intros table H; simpl.
  - reflexivity.
  - simpl in H. apply andb_true_iff in H. destruct H as [H1 H2].
    pose proof (run_clause_reads rows c g table H1) as S.
    destruct (run_clause rows c g table) as [g1 t1]. simpl in S. subst g1.
    now apply IH.
Qed.

Lemma step_node_silent rows c g e :
  node_silent c = true -> nodes (fst (step rows c g e)) = nodes g.
Proof.
  destruct c; simpl; intros H; try discriminate; try reflexivity.
  - destruct (lookup_var a (evars e)) as [[i|i]|]; try reflexivity.
    destruct (lookup_var b (evars e)) as [[j|j]|]; try reflexivity.
    now destruct (find_rels i t j g).
  - destruct (lookup_var a (evars e)) as [[i|i]|]; try reflexivity.
    now destruct (lookup_var b (evars e)) as [[j|j]|].
Qed.

Lemma run_clause_node_silent rows c g table :
  node_silent c = true -> nodes (fst (run_clause rows c g table)) = nodes g.
Proof.
  intros H. revert g; induction table as [|e t IH]; intros g; simpl.
  - reflexivity.
  - pose proof (step_node_silent rows c g e H) as S.
    destruct (step rows c g e) as [g1 es]. simpl in S.
    specialize (IH g1).
    destruct (run_clause rows c g1 t) as [g2 es']. simpl in *. congruence.
Qed.

Lemma run_clauses_node_silent rows q g table :
  forallb node_silent q = true ->
  nodes (fst (run_clauses rows q g table)) = nodes g.
Proof.
  revert g table; induction q as [|c q IH]; intros g table H; simpl.
  - reflexivity.
  - simpl in H. apply andb_true_iff in H. destruct H as [H1 H2].
    pose proof (run_clause_node_silent rows c g table H1) as S.
    destruct (run_clause rows c g table) as [g1 t1]. simpl in S.
    rewrite IH by assumption. exact S.
Qed.

Lemma run_clause_create rows x l ps g table :
  nodes (fst (run_clause rows (CREATE_node x l ps) g table)) =
  nodes g ++ map (fun e => Node l (props_of (erow e) ps)) table.
Proof.
  revert g; induction table as [|e t IH]; intros g; simpl.
  - now rewrite app_nil_r.
  - specialize (IH (add_node (Node l (props_of (erow e) ps)) g)).
    destruct (run_clause rows _ _ t) as [g2 es']. simpl in *.
    rewrite IH. now rewrite <- app_assoc.
Qed.

(** The records that reach the [CREATE]: the rows, multiplied by their
    matches. *)
Definition matched (ms : list clause) (rows : list record) (g : graph)
  : list env :=
  snd (run_clauses rows (UNWIND_rows :: ms) g [Env [] []]).

(** Queries that create a node of label [l] per matched record: an unwind,
    matches on other labels, the creation, and then clauses that leave the
    nodes alone. *)
Definition creates (l : string) (ms : list clause)
                   (ps : list (string * string)) (q : list clause) : Prop :=
  exists x post,
    q = UNWIND_rows :: ms ++ CREATE_node x l ps :: post /\
    forallb (matches_other l) ms = true /\
    forallb node_silent post = true.

Lemma matches_other_reads l ms :
  forallb (matches_other l) ms = true -> forallb reads ms = true.
Proof.
  intros H. apply forallb_forall. intros c Hc.
  rewrite forallb_forall in H. specialize (H c Hc).
  destruct c; simpl in *; try discriminate; reflexivity.
Qed.

Lemma run_query_creates l ms ps q rows g :
  creates l ms ps q ->
  nodes (run_query q rows g) =
  nodes g ++ map (fun e => Node l (props_of (erow e) ps)) (matched ms rows g).
Proof.
  intros (x & post & -> & Hm & Hp). unfold run_query, matched.
  change (UNWIND_rows :: ms ++ CREATE_node x l ps :: post)
    with ((UNWIND_rows :: ms) ++ CREATE_node x l ps :: post).
  rewrite run_clauses_app.
  assert (Hg : fst (run_clauses rows (UNWIND_rows :: ms) g [Env [] []]) = g).
  { apply run_clauses_reads. simpl. now apply matches_other_reads with l. }
  rewrite Hg. cbn [run_clauses].
  pose proof (run_clause_create rows x l ps g
                (snd (run_clauses rows (UNWIND_rows :: ms) g [Env [] []])))
    as S.
  destruct (run_clause rows (CREATE_node x l ps) g _) as [g1 t1].
  rewrite run_clauses_node_silent by assumption. exact S.
Qed.

(** Nodes of label [l] appended to the store are invisible to a match on
    another label. *)
Definition grown (l : string) (g g' : graph) : Prop :=
  exists extra, nodes g' = nodes g ++ extra /\
                Forall (fun n => nlabel n = l) extra.

Lemma grown_refl l g : grown l g g.
Proof. exists []. split; [now rewrite app_nil_r|constructor]. Qed.

Lemma grown_trans l g1 g2 g3 : grown l g1 g2 -> grown l g2 g3 -> grown l g1 g3.
Proof.
  intros (e1 & E1 & F1) (e2 & E2 & F2). exists (e1 ++ e2). split.
  - now rewrite E2, E1, app_assoc.
  - apply Forall_app. now split.
Qed.

Lemma find_nodes_grown l l' k v g g' :
  grown l g g' -> String.eqb l' l = false ->
  find_nodes l' k v g' = find_nodes l' k v g.
Proof.
  intros (extra & E & Fa) Hl. unfold find_nodes. rewrite E, find_from_app.
  rewrite (find_from_none _ _ extra); [apply app_nil_r|].
  intros n Hn. rewrite Forall_forall in Fa. specialize (Fa n Hn).
  unfold node_matches. rewrite Fa.
  rewrite String.eqb_sym, Hl. reflexivity.
Qed.

Definition reads_other (l : string) (c : clause) : bool :=
  match c with
  | UNWIND_rows | WITH _ => true
  | MATCH_node _ l' _ _ => negb (String.eqb l' l)
  | _ => false
  end.

Lemma reads_other_reads l c : reads_other l c = true -> reads c = true.
Proof. destruct c; simpl; intros H; try discriminate; reflexivity. Qed.

Lemma step_grown l rows c g g' e :
  reads_other l c = true -> grown l g g' ->
  snd (step rows c g' e) = snd (step rows c g e).
Proof.
  destruct c; simpl; intros H G; try discriminate; try reflexivity.
  apply negb_true_iff in H.
  now rewrite (find_nodes_grown l l0 k (row_get (erow e) f) g g' G H).
Qed.

Lemma run_clause_reads_snd rows c g table :
  reads c = true ->
  snd (run_clause rows c g table) =
  flat_map (fun e => snd (step rows c g e)) table.
Proof.
  intros H. induction table as [|e t IH]; simpl; [reflexivity|].
  pose proof (step_reads rows c g e H) as S.
  destruct (step rows c g e) as [g1 es]. simpl in S. subst g1.
  destruct (run_clause rows c g t) as [g2 es']. simpl in *. now rewrite IH.
Qed.

Lemma run_clauses_grown l rows q g g' table :
  forallb (reads_other l) q = true -> grown l g g' ->
  snd (run_clauses rows q g' table) = snd (run_clauses rows q g table).
Proof.
  intros H G. revert table; induction q as [|c q IH]; intros table; simpl.
  - reflexivity.
  - simpl in H. apply andb_true_iff in H. destruct H as [H1 H2].
    pose proof (reads_other_reads l c H1) as Rc.
    pose proof (run_clause_reads rows c g table Rc) as S1.
    pose proof (run_clause_reads rows c g' table Rc) as S2.
    pose proof (run_clause_reads_snd rows c g table Rc) as T1.
    pose proof (run_clause_reads_snd rows c g' table Rc) as T2.
    destruct (run_clause rows c g table) as [g1 t1].
    destruct (run_clause rows c g' table) as [g2 t2].
    simpl in *. subst g1 g2.
    assert (t2 = t1) as ->.
    { rewrite T1, T2. apply flat_map_ext. intros e.
      now apply step_grown with l. }
    now apply IH.
Qed.

Lemma matched_grown l ms rows g g' :
  forallb (matches_other l) ms = true -> grown l g g' ->
  matched ms rows g' = matched ms rows g.
Proof.
  intros H G. unfold matched. apply run_clauses_grown with l; [|exact G].
  simpl. apply forallb_forall. intros c Hc.
  rewrite forallb_forall in H. specialize (H c Hc).
  destruct c; simpl in *; try discriminate; assumption.
Qed.

(** Number of nodes a load creates: the matched records of every chunk. *)
Definition created (ms : list clause) (chs : list (list record)) (g : graph)
  : nat :=
  list_sum (map (fun ch => length (matched ms ch g)) chs).

Lemma run_chunks_creates l ms ps q chs g g' :
  creates l ms ps q -> grown l g g' ->
  exists news,
    nodes (run_chunks q chs g') = nodes g' ++ news /\
    Forall (fun n => nlabel n = l) news /\
    length news = created ms chs g.
Proof.
  intros Cq. unfold run_chunks, created.
  revert g'; induction chs as [|ch chs IH]; intros g' G; simpl.
  - exists []. rewrite app_nil_r. repeat split. constructor.
  - pose proof (run_query_creates l ms ps q ch g' Cq) as E.
    assert (Hm : forallb (matches_other l) ms = true).
    { destruct Cq as (x & post & _ & Hm & _). exact Hm. }
    rewrite (matched_grown l ms ch g g' Hm G) in E.
    set (mk := fun e => Node l (props_of (erow e) ps)) in *.
    assert (Fa : Forall (fun n => nlabel n = l) (map mk (matched ms ch g))).
    { apply Forall_forall. intros n Hn. apply in_map_iff in Hn.
      destruct Hn as (e & <- & _). reflexivity. }
    assert (G1 : grown l g (run_query q ch g')).
    { apply grown_trans with g'; [exact G|].
      exists (map mk (matched ms ch g)). now split. }
    destruct (IH _ G1) as (news & N1 & N2 & N3).
    exists (map mk (matched ms ch g) ++ news). repeat split.
    + rewrite N1, E. now rewrite <- app_assoc.
    + apply Forall_app. now split.
    + rewrite length_app, length_map, N3. reflexivity.
Qed.

Lemma count_label_app l g ns :
  count_label l (Graph (nodes g ++ ns) (rels g)) =
  count_label l g + length (filter (fun n => String.eqb (nlabel n) l) ns).
Proof. unfold count_label. simpl. now rewrite filter_app, length_app. Qed.

Lemma filter_all_label l (ns : list node) :
  Forall (fun n => nlabel n = l) ns ->
  filter (fun n => String.eqb (nlabel n) l) ns = ns.
Proof.
  induction 1 as [|n ns H _ IH]; simpl; [reflexivity|].
  rewrite H, String.eqb_refl. now rewrite IH.
Qed.

End CypherFacts.

(* ================================================================== *)
(** * The Memgraph loader on the graph store *)

(** [m], [k] times over. *)
Definition times {C B A : Type} (k : nat) (m : M C B A) (w : world C B)
  : world C B :=
  Nat.iter k (exec m) w.

(** The eight tables, in the order the loaders take them. *)
Inductive table : Type :=
| region | nation | supplier | customer | part | partsupp | orders | lineitem.

Definition load_order : list table :=
  [region; nation; supplier; customer; part; partsupp; orders; lineitem].

Module MemgraphStore.
Import Memgraph MemgraphRuns CypherFacts.

Definition aload_of {B : Type} (respond : B -> call -> B * reply) (t : table)
  : M call B unit :=
  match t with
  | region => aload_region respond
  | nation => aload_nation respond
  | supplier => aload_supplier respond
  | customer => aload_customer respond
  | part => aload_part respond
  | partsupp => aload_partsupp respond
  | orders => aload_orders respond
  | lineitem => aload_lineitem respond
  end.

(** File, columns, query and printed name of each table, as its loader has
    them. *)
Definition path_of (t : table) : string :=
  match t with
  | region => "region.tbl" | nation => "nation.tbl"
  | supplier => "supplier.tbl" | customer => "customer.tbl"
  | part => "part.tbl" | partsupp => "partsupp.tbl"
  | orders => "orders.tbl" | lineitem => "lineitem.tbl"
  end.

Definition columns_of (t : table) : list string :=
  match t with
  | region => ["regionkey"; "name"; "comment"]
  | nation => ["nationkey"; "name"; "regionkey"; "comment"]
  | supplier => ["suppkey"; "name"; "address"; "nationkey"; "phone";
                 "acctbal"; "comment"]
  | customer => ["custkey"; "name"; "address"; "nationkey"; "phone";
                 "acctbal"; "mktsegment"; "comment"]
  | part => ["partkey"; "name"; "mfgr"; "brand"; "type"; "size"; "container";
             "retailprice"; "comment"]
  | partsupp => ["partkey"; "suppkey"; "availqty"; "supplycost"; "comment"]
  | orders => ["orderkey"; "custkey"; "orderstatus"; "totalprice";
               "orderdate"; "orderpriority"; "clerk"; "shippriority";
               "comment"]
  | lineitem => ["orderkey"; "partkey"; "suppkey"; "linenumber"; "quantity";
                 "extendedprice"; "discount"; "tax"; "returnflag";
                 "linestatus"; "shipdate"; "commitdate"; "receiptdate";
                 "shipinstruct"; "shipmode"; "comment"]
  end.

Definition query_of (t : table) : list clause :=
  match t with
  | region => query_region | nation => query_nation
  | supplier => query_supplier | customer => query_customer
  | part => query_part | partsupp => query_partsupp
  | orders => query_orders | lineitem => query_lineitem
  end.

Definition name_of (t : table) : string :=
  match t with
  | region => "Region" | nation => "Nation" | supplier => "Supplier"
  | customer => "Customer" | part => "Part" | partsupp => "PartSupp"
  | orders => "Orders" | lineitem => "LineItem"
  end.

Lemma aload_of_load_table {B : Type} (respond : B -> call -> B * reply) t :
  aload_of respond t =
  load_table respond (path_of t) (columns_of t) (query_of t) (name_of t).
Proof. destruct t; reflexivity. Qed.

Lemma store_reliable : reliable store.
Proof.
  intros g c. destruct c as [|s [rows|]| |]; simpl; eexists; reflexivity.
Qed.

Lemma play_batch_calls q n data g :
  play store (batch_calls q n data) g = run_chunks q (chunks n data) g.
Proof.
  unfold batch_calls, run_chunks, play.
  revert g; induction (chunks n data) as [|ch chs IH]; intros g; simpl.
  - reflexivity.
  - apply IH.
Qed.

(** The graph a table's rows are loaded into, chunk by chunk; a table that
    cannot be read leaves the graph as it is. *)
Definition loaded (F : string -> exn + table_file) (t : table) (g : graph)
  : graph :=
  match frame_of F (path_of t) (columns_of t) with
  | Some data => run_chunks (query_of t) (chunks 1000 data) g
  | None => g
  end.

Lemma aload_of_store t (w : world call graph) :
  files (exec (aload_of store t) w) = files w /\
  conn (exec (aload_of store t) w) = loaded (files w) t (conn w).
Proof.
  rewrite aload_of_load_table. unfold exec, loaded.
  destruct (frame_of (files w) (path_of t) (columns_of t)) as [data|] eqn:E.
  - destruct (does_load_table graph store store_reliable (files w)
                (path_of t) (columns_of t) (query_of t) (name_of t) data E
                w eq_refl) as (w' & E' & F' & C' & _).
    rewrite E'. simpl. split; [exact F'|].
    rewrite C'. apply play_batch_calls.
  - destruct (load_table_fails graph store (files w)
                (path_of t) (columns_of t) (query_of t) (name_of t) E
                w eq_refl) as (w' & e & E' & F' & C' & _).
    rewrite E'. simpl. now split.
Qed.

Lemma times_store t k (w : world call graph) :
  files (times k (aload_of store t) w) = files w /\
  conn (times k (aload_of store t) w) =
  Nat.iter k (loaded (files w) t) (conn w).
Proof.
  induction k as [|k [IHf IHc]]; simpl; [now split|].
  destruct (aload_of_store t (times k (aload_of store t) w)) as [Hf Hc].
  unfold times in *. simpl. split.
  - now rewrite Hf.
  - now rewrite Hc, IHf, IHc.
Qed.

(** Natural key of the tables whose query merges a node. *)
Definition merged_tables : list (table * (string * string)) :=
  [ (region, ("Region", "regionkey"));
    (nation, ("Nation", "nationkey"));
    (supplier, ("Supplier", "suppkey"));
    (customer, ("Customer", "custkey"));
    (part, ("Part", "partkey"));
    (orders, ("Order", "orderkey")) ].

Lemma merged_tables_upsert :
  Forall (fun tk => upserts (fst (snd tk)) (snd (snd tk)) (snd (snd tk))
                            (query_of (fst tk)) = true) merged_tables.
Proof. repeat constructor. Qed.

(** Loading a merged table again changes no node's label or key. *)
Lemma loaded_upserts_again F t l k g n :
  upserts l k k (query_of t) = true ->
  kview k (Nat.iter (S n) (loaded F t) g) = kview k (loaded F t g).
Proof.
  intros U. induction n as [|n IH]; [reflexivity|].
  change (Nat.iter (S (S n)) (loaded F t) g)
    with (loaded F t (Nat.iter (S n) (loaded F t) g)).
  revert IH. generalize (Nat.iter (S n) (loaded F t) g) as g'. intros g' IH.
  unfold loaded in *.
  destruct (frame_of F (path_of t) (columns_of t)) as [data|]; [|exact IH].
  rewrite (run_chunks_upserts l k k _ _ g' U), IH.
  rewrite (run_chunks_upserts l k k _ _ g U).
  apply merge_keys_idem.
Qed.

Lemma loaded_quiet F t k g n :
  forallb (quiet k) (query_of t) = true ->
  kview k (Nat.iter n (loaded F t) g) = kview k g.
Proof.
  intros Q. induction n as [|n IH]; [reflexivity|].
  simpl. unfold loaded at 1.
  destruct (frame_of F (path_of t) (columns_of t)) as [data|]; [|exact IH].
  now rewrite run_chunks_quiet.
Qed.

Definition lineitem_matches : list clause :=
  [ MATCH_node "o" "Order" "orderkey" "orderkey";
    MATCH_node "p" "Part" "partkey" "partkey";
    MATCH_node "s" "Supplier" "suppkey" "suppkey" ].

Lemma query_lineitem_creates :
  exists ps, creates "LineItem" lineitem_matches ps query_lineitem.
Proof.
  eexists. eexists. eexists. split; [reflexivity|]. split; reflexivity.
Qed.

(** Nodes one lineitem load creates on [g]. *)
Definition lineitem_created (F : string -> exn + table_file) (g : graph)
  : nat :=
  match frame_of F (path_of lineitem) (columns_of lineitem) with
  | Some data => created lineitem_matches (chunks 1000 data) g
  | None => 0
  end.

Lemma loaded_lineitem F g n :
  exists news,
    nodes (Nat.iter n (loaded F lineitem) g) = nodes g ++ news /\
    Forall (fun nd => nlabel nd = "LineItem") news /\
    length news = n * lineitem_created F g.
Proof.
  induction n as [|n (news & N1 & N2 & N3)]; simpl.
  - exists []. rewrite app_nil_r. repeat split. constructor.
  - unfold lineitem_created in *. unfold loaded at 1.
    destruct (frame_of F (path_of lineitem) (columns_of lineitem))
      as [data|].
    + destruct query_lineitem_creates as [ps Cq].
      destruct (run_chunks_creates "LineItem" lineitem_matches ps
                  query_lineitem (chunks 1000 data) g
                  (Nat.iter n (loaded F lineitem) g) Cq)
        as (more & M1 & M2 & M3).
      { exists news. now split. }
      exists (news ++ more). repeat split.
      * simpl query_of. rewrite M1, N1. now rewrite <- app_assoc.
      * apply Forall_app. now split.
      * rewrite length_app, N3, M3. lia.
    + exists news. repeat split; assumption.
Qed.

End MemgraphStore.

(* ================================================================== *)
(** * Re-running the Memgraph loaders *)

Section Reruns.
Import Memgraph MemgraphRuns CypherFacts MemgraphStore.

Lemma rerun_merged t l k (w : world call graph) n :
  upserts l k k (query_of t) = true ->
  node_count (conn (times (S n) (aload_of store t) w)) =
  node_count (conn (times 1 (aload_of store t) w)).
Proof.
  intros U.
  destruct (times_store t (S n) w) as [_ ->].
  destruct (times_store t 1 w) as [_ ->].
  rewrite !(node_count_kview k).
  now rewrite (loaded_upserts_again (files w) t l k (conn w) n U).
Qed.

Lemma rerun_partsupp (w : world call graph) n :
  node_count (conn (times n (aload_of store partsupp) w)) =
  node_count (conn w).
Proof.
  destruct (times_store partsupp n w) as [_ ->].
  rewrite !(node_count_kview "partkey").
  now rewrite loaded_quiet.
Qed.

Lemma rerun_lineitem (w : world call graph) n :
  count_label "LineItem" (conn (times n (aload_of store lineitem) w)) =
  count_label "LineItem" (conn w) + n * lineitem_created (files w) (conn w)
  /\
  node_count (conn (times n (aload_of store lineitem) w)) =
  node_count (conn w) + n * lineitem_created (files w) (conn w).
Proof.
  destruct (times_store lineitem n w) as [_ ->].
  destruct (loaded_lineitem (files w) (conn w) n) as (news & N1 & N2 & N3).
  unfold count_label, node_count. rewrite N1. split.
  - rewrite filter_app, length_app, (filter_all_label _ _ N2). lia.
  - rewrite length_app. lia.
Qed.

(** C4.  On the Memgraph store, loading any table other than lineitem
    again and again leaves as many nodes as loading it once: its query
    merges the node on the natural key (partsupp merges a relationship
    only).  Every lineitem load creates its nodes anew, so [k] loads
    produce [k] times the LineItem nodes, and [k] times the nodes, of one
    load. *)
Theorem memgraph_rerun_counts (w : world call graph) (k : nat) :
  Forall (fun t =>
            node_count (conn (times (S k) (aload_of store t) w)) =
            node_count (conn (times 1 (aload_of store t) w)))
         [region; nation; supplier; customer; part; partsupp; orders]
  /\
  count_label "LineItem" (conn (times k (aload_of store lineitem) w)) =
  count_label "LineItem" (conn w) +
  k * (count_label "LineItem" (conn (times 1 (aload_of store lineitem) w))
       - count_label "LineItem" (conn w))
  /\
  node_count (conn (times k (aload_of store lineitem) w)) =
  node_count (conn w) +
  k * (node_count (conn (times 1 (aload_of store lineitem) w))
       - node_count (conn w)).
Proof.
  split.
  - repeat constructor.
    + now apply rerun_merged with "Region" "regionkey".
    + now apply rerun_merged with "Nation" "nationkey".
    + now apply rerun_merged with "Supplier" "suppkey".
    + now apply rerun_merged with "Customer" "custkey".
    + now apply rerun_merged with "Part" "partkey".
    + now rewrite !rerun_partsupp.
    + now apply rerun_merged with "Order" "orderkey".
  - destruct (rerun_lineitem w k) as [Hl Hn].
    destruct (rerun_lineitem w 1) as [Hl1 Hn1].
    rewrite Hl, Hn, Hl1, Hn1. split; f_equal; f_equal; lia.
Qed.
End Reruns.

(* ================================================================== *)
(** * Batches *)

(** [ws] cuts [data] into batches of [n]: as many as needed and no more,
    all full but possibly the last, which holds the remainder, and in
    order. *)
Definition batching {A : Type} (n : nat) (data : list A)
                    (ws : list (list A)) : Prop :=
  length ws = ceil_div (length data) n /\
  (length data <= length ws * n /\ length ws * n < length data + n) /\
  (forall i, S i < length ws -> length (nth i ws []) = n) /\
  (0 < length data ->
   length (last ws []) =
   if length data mod n =? 0 then n else length data mod n) /\
  concat ws = data.

Lemma last_nth {A : Type} (l : list A) (d : A) :
  last l d = nth (length l - 1) l d.
Proof.
  induction l as [|a l IH]; [reflexivity|].
  destruct l as [|b l]; [reflexivity|].
  change (last (a :: b :: l) d) with (last (b :: l) d). rewrite IH.
  simpl. now rewrite Nat.sub_0_r.
Qed.

Lemma last_map {A X : Type} (f : A -> X) (l : list A) (d : A) :
  last (map f l) (f d) = f (last l d).
Proof.
  induction l as [|a l IH]; [reflexivity|].
  destruct l as [|b l]; [reflexivity|]. exact IH.
Qed.

Lemma batching_chunks {A : Type} (n : nat) (data : list A) :
  0 < n -> batching n data (chunks n data).
Proof.
  intros Hn. unfold batching. rewrite length_chunks.
  split; [reflexivity|]. split; [now apply ceil_div_bounds|].
  split; [|split].
  - intros i Hi. rewrite nth_chunks by lia. now apply chunk_full.
  - intros Hd.
    assert (K : 0 < ceil_div (length data) n).
    { destruct (ceil_div_bounds (length data) n Hn). nia. }
    rewrite last_nth, length_chunks, nth_chunks by lia.
    now apply chunk_last.
  - now apply concat_chunks.
Qed.

Lemma batching_map {A X : Type} (f : A -> X) (n : nat) (data : list A) ws :
  batching n data ws -> batching n (map f data) (map (map f) ws).
Proof.
  intros (H1 & H2 & H3 & H4 & H5). unfold batching.
  rewrite !length_map. repeat split; try assumption; try apply H2.
  - intros i Hi.
    change (@nil X) with (map f []). rewrite map_nth, length_map.
    now apply H3.
  - intros Hd. change (@nil X) with (map f []) at 1.
    rewrite last_map, length_map. now apply H4.
  - rewrite <- concat_map. now rewrite H5.
Qed.

Section Frames.
Variables (C B : Type).
Variable respond : B -> C -> B * reply.
Variable F : string -> exn + table_file.

Lemma does_eq {A : Type} (m : M C B A) cs cs' a :
  does respond F m cs a -> cs = cs' -> does respond F m cs' a.
Proof. now intros H <-. Qed.

(** Reading a table and naming its columns. *)
Lemma does_frame {X : Type} path names df (k : list record -> M C B X) cs x :
  frame_of F path names = Some df ->
  does respond F (k df) cs x ->
  does respond F
       (bind (read_csv path (length names))
             (fun d => bind (set_columns d names) k)) cs x.
Proof.
  unfold frame_of. intros H Hk.
  destruct (F path) as [e|lines] eqn:HF; [discriminate|].
  destruct (forallb _ lines) eqn:Hn; [|discriminate].
  injection H as <-.
  change cs with ([] ++ [] ++ cs).
  eapply does_bind; [apply does_read_csv; eassumption|].
  eapply does_bind; [|exact Hk].
  apply does_set_columns. now apply firstn_width.
Qed.

(** A table that cannot be read raises before any call. *)
Lemma frame_fails {X : Type} path names (k : list record -> M C B X) w :
  frame_of (files w) path names = None ->
  exists w' e,
    bind (read_csv path (length names))
         (fun d => bind (set_columns d names) k) w = (w', inl e) /\
    files w' = files w /\ conn w' = conn w /\
    calls_of (trace w') = calls_of (trace w).
Proof.
  unfold frame_of. intros H. unfold bind, read_csv.
  destruct (files w path) as [e|lines] eqn:HF.
  - eexists; eexists. split; [reflexivity|]. simpl.
    rewrite calls_of_app. simpl. rewrite app_nil_r. auto.
  - destruct (forallb _ lines) eqn:Hn; [discriminate|].
    eexists; eexists. split; [reflexivity|]. simpl.
    rewrite calls_of_app. simpl. rewrite app_nil_r. auto.
Qed.
End Frames.

(** [range(total_batches)] and [df.iloc[start:end]] of the ArangoDB
    lineitem loop, in terms of [chunks]. *)
Lemma py_slice_min {A : Type} (l : list A) (lo hi : Z) :
  (0 <= hi)%Z ->
  py_slice l lo (Z.min hi (Z.of_nat (length l))) = py_slice l lo hi.
Proof.
  intros H. unfold py_slice, clamp_index.
  destruct (Z.ltb_spec hi 0) as [|_]; [lia|].
  destruct (Z.ltb_spec (Z.min hi (Z.of_nat (length l))) 0) as [|_]; [lia|].
  now rewrite <- Z.min_assoc, Z.min_id.
Qed.

Lemma total_batches_ceil (r : nat) (n : Z) :
  (0 < n)%Z ->
  ((Z.of_nat r + n - 1) / n)%Z = Z.of_nat (ceil_div r (Z.to_nat n)).
Proof.
  intros Hn.
  pose proof (Z.div_mod (Z.of_nat r + n - 1) n ltac:(lia)) as E.
  pose proof (Z.mod_pos_bound (Z.of_nat r + n - 1) n Hn) as U.
  pose proof (Z.div_pos (Z.of_nat r + n - 1) n ltac:(lia) Hn) as P.
  rewrite <- (Z2Nat.id _ P) at 1. f_equal.
  set (q := ((Z.of_nat r + n - 1) / n)%Z) in *.
  set (m := ((Z.of_nat r + n - 1) mod n)%Z) in *. clearbody q m.
  assert (Hq : Z.of_nat (Z.to_nat q) = q) by lia.
  assert (Hm : Z.of_nat (Z.to_nat n) = n) by lia.
  apply ceil_div_unique; [lia| |].
  - apply Nat2Z.inj_le. rewrite Nat2Z.inj_mul, Hq, Hm. nia.
  - apply Nat2Z.inj_lt. rewrite Nat2Z.inj_add, Nat2Z.inj_mul, Hq, Hm. nia.
Qed.

Lemma iloc_chunks {A : Type} (l : list A) (n : Z) :
  (0 < n)%Z ->
  map (fun b => py_slice l (b * n)
                  (Z.min ((b + 1) * n) (Z.of_nat (length l))))
      (py_range 0 ((Z.of_nat (length l) + n - 1) / n) 1) =
  chunks (Z.to_nat n) l.
Proof.
  intros Hn. rewrite total_batches_ceil by assumption.
  unfold py_range, chunks. rewrite map_map.
  assert (L : Z.to_nat (range_len 0 (Z.of_nat (ceil_div (length l) (Z.to_nat n))) 1)
              = ceil_div (length l) (Z.to_nat n)).
  { generalize (ceil_div (length l) (Z.to_nat n)) as c. intros c.
    unfold range_len. change (0 <? 1)%Z with true. cbv iota.
    destruct (Z.ltb_spec 0 (Z.of_nat c)).
    - rewrite Z.div_1_r. lia.
    - lia. }
  rewrite L. apply map_ext_in. intros i Hi. apply in_seq in Hi.
  rewrite py_slice_min by nia.
  replace ((0 + Z.of_nat i * 1) * n)%Z with (0 + Z.of_nat i * n)%Z by lia.
  replace ((0 + Z.of_nat i * 1 + 1) * n)%Z
    with (0 + Z.of_nat i * n + n)%Z by lia.
  apply py_slice_chunk; [assumption|].
  destruct (ceil_div_bounds (length l) (Z.to_nat n) ltac:(lia)) as [B1 B2].
  nia.
Qed.

(* ================================================================== *)
(** * Runs of the ArangoDB loader *)

Module ArangoRuns.
Import Arango.

Definition aload_of {B : Type} (respond : B -> call -> B * reply) (t : table)
  : M call B unit :=
  match t with
  | region => aload_region respond
  | nation => aload_nation respond
  | supplier => aload_supplier respond
  | customer => aload_customer respond
  | part => aload_part respond
  | partsupp => aload_partsupp respond
  | orders => aload_orders respond
  | lineitem => aload_lineitem respond
  end.

Definition path_of (t : table) : string :=
  match t with
  | region => "region.tbl" | nation => "nation.tbl"
  | supplier => "supplier.tbl" | customer => "customer.tbl"
  | part => "part.tbl" | partsupp => "partsupp.tbl"
  | orders => "orders.tbl" | lineitem => "lineitem.tbl"
  end.

Definition columns_of (t : table) : list string :=
  match t with
  | region => ["r_regionkey"; "r_name"; "r_comment"]
  | nation => ["n_nationkey"; "n_name"; "n_regionkey"; "n_comment"]
  | supplier => ["s_suppkey"; "s_name"; "s_address"; "s_nationkey";
                 "s_phone"; "s_acctbal"; "s_comment"]
  | customer => ["c_custkey"; "c_name"; "c_address"; "c_nationkey";
                 "c_phone"; "c_acctbal"; "c_mktsegment"; "c_comment"]
  | part => ["p_partkey"; "p_name"; "p_mfgr"; "p_brand"; "p_type"; "p_size";
             "p_container"; "p_retailprice"; "p_comment"]
  | partsupp => ["ps_partkey"; "ps_suppkey"; "ps_availqty"; "ps_supplycost";
                 "ps_comment"]
  | orders => ["o_orderkey"; "o_custkey"; "o_orderstatus"; "o_totalprice";
               "o_orderdate"; "o_orderpriority"; "o_clerk"; "o_shippriority";
               "o_comment"]
  | lineitem => ["l_orderkey"; "l_partkey"; "l_suppkey"; "l_linenumber";
                 "l_quantity"; "l_extendedprice"; "l_discount"; "l_tax";
                 "l_returnflag"; "l_linestatus"; "l_shipdate";
                 "l_commitdate"; "l_receiptdate"; "l_shipinstruct";
                 "l_shipmode"; "l_comment"]
  end.

(** The four writes of one lineitem batch. *)
Definition lineitem_batch_calls (batch_df : list record) : list call :=
  [ InsertMany "lineitem" (map lineitem_doc batch_df);
    InsertMany "order_lineitems" (map order_lineitems_edge batch_df);
    InsertMany "lineitem_part" (map lineitem_part_edge batch_df);
    InsertMany "lineitem_supplier" (map lineitem_supplier_edge batch_df) ].

(** The store calls of a table's load step, for the rows [df] of its
    frame. *)
Definition writes_of (t : table) (df : list record) : list call :=
  match t with
  | region => [InsertMany "region" (map region_doc df)]
  | nation => [InsertMany "nation" (map nation_doc df);
               InsertMany "nation_region" (map nation_region_edge df)]
  | supplier => [InsertMany "supplier" (map supplier_doc df);
                 InsertMany "supplier_nation" (map supplier_nation_edge df)]
  | customer => [InsertMany "customer" (map customer_doc df);
                 InsertMany "customer_nation" (map customer_nation_edge df)]
  | part => [InsertMany "part" (map part_doc df)]
  | partsupp => [InsertMany "partsupp" (map partsupp_doc df);
                 InsertMany "partsupp_part" (map partsupp_part_edge df);
                 InsertMany "partsupp_supplier"
                            (map partsupp_supplier_edge df)]
  | orders => [InsertMany "orders" (map order_doc df);
               InsertMany "customer_orders" (map customer_orders_edge df)]
  | lineitem => flat_map lineitem_batch_calls (chunks 1000 df)
  end.

(** The batches written to one collection. *)
Definition inserted (coll : string) (cs : list call) : list (list record) :=
  flat_map (fun c => match c with
                     | InsertMany c' docs =>
                         if String.eqb c' coll then [docs] else []
                     | _ => []
                     end) cs.

Section Reliable.
Variable B : Type.
Variable respond : B -> call -> B * reply.
Hypothesis R : reliable respond.
Variable F : string -> exn + table_file.

Lemma does_insert_many {X : Type} coll docs (m : M call B X) cs x :
  does respond F m cs x ->
  does respond F (bind (insert_many respond coll docs) (fun _ => m))
       (InsertMany coll docs :: cs) x.
Proof.
  intros Hm. unfold insert_many.
  change (InsertMany coll docs :: cs) with ([InsertMany coll docs] ++ cs).
  eapply does_bind; [|exact Hm].
  apply does_request; [exact R|apply does_ret].
Qed.

Lemma does_print_then {X : Type} s (m : M call B X) cs x :
  does respond F m cs x ->
  does respond F (bind (print s) (fun _ => m)) cs x.
Proof.
  intros Hm. change cs with ([] ++ cs).
  eapply does_bind; [apply does_print|exact Hm].
Qed.

Lemma does_lineitem_batches (N : Z) df :
  (0 < N)%Z ->
  does respond F (lineitem_batches respond N df)
       (flat_map lineitem_batch_calls (chunks (Z.to_nat N) df)) tt.
Proof.
  intros HN. unfold lineitem_batches.
  rewrite <- (iloc_chunks df N HN), flat_map_map.
  change (flat_map ?g ?l) with ([] ++ flat_map g l).
  eapply does_bind; [apply does_floordiv; lia|].
  apply does_print_then.
  rewrite <- (app_nil_r (flat_map _ _)).
  eapply does_bind; [|apply does_print].
  apply does_for. intros b _.
  unfold lineitem_batch_calls.
  repeat apply does_insert_many. apply does_print.
Qed.

Lemma does_aload_of t df :
  frame_of F (path_of t) (columns_of t) = Some df ->
  does respond F (aload_of respond t) (writes_of t df) tt.
Proof.
  intros Hf.
  destruct t; simpl aload_of; simpl writes_of;
    apply does_print_then;
    apply (does_frame call B respond F _ _ df _ _ _ Hf);
    try (repeat first [apply does_insert_many | apply does_print_then];
         apply does_print).
  apply (does_lineitem_batches 1000%Z). lia.
Qed.

(** A table that cannot be read stops its step before any call. *)
Lemma aload_of_fails t w :
  frame_of (files w) (path_of t) (columns_of t) = None ->
  exists w' e, aload_of respond t w = (w', inl e) /\
               files w' = files w /\ conn w' = conn w /\
               calls_of (trace w') = calls_of (trace w).
Proof.
  intros Hf.
  assert (G : forall (k : list record -> M call B unit) s,
             exists w' e,
               bind (print s)
                    (fun _ => bind (read_csv (path_of t)
                                             (length (columns_of t)))
                                (fun d => bind (set_columns d (columns_of t))
                                               k)) w = (w', inl e) /\
               files w' = files w /\ conn w' = conn w /\
               calls_of (trace w') = calls_of (trace w)).
  { intros k s. unfold bind at 1. simpl.
    match goal with
    | |- context [bind ?m ?k' ?w0] =>
        destruct (frame_fails call B (path_of t) (columns_of t) k w0 Hf)
          as (w' & e & E & E1 & E2 & E3)
    end.
    exists w', e. rewrite E. auto. }
  destruct t; apply G.
Qed.
End Reliable.

End ArangoRuns.

(* ================================================================== *)
(** * What each load step of the ArangoDB loader writes *)

Module ArangoSteps.
Import Arango ArangoRuns.

(** Vertex collection and vertex mapper of a table. *)
Definition vertex_of (t : table) : string * (record -> record) :=
  match t with
  | region => ("region", region_doc)
  | nation => ("nation", nation_doc)
  | supplier => ("supplier", supplier_doc)
  | customer => ("customer", customer_doc)
  | part => ("part", part_doc)
  | partsupp => ("partsupp", partsupp_doc)
  | orders => ("orders", order_doc)
  | lineitem => ("lineitem", lineitem_doc)
  end.

(** Edge collections and edge mappers of a table. *)
Definition edges_of (t : table) : list (string * (record -> record)) :=
  match t with
  | region => []
  | nation => [("nation_region", nation_region_edge)]
  | supplier => [("supplier_nation", supplier_nation_edge)]
  | customer => [("customer_nation", customer_nation_edge)]
  | part => []
  | partsupp => [("partsupp_part", partsupp_part_edge);
                 ("partsupp_supplier", partsupp_supplier_edge)]
  | orders => [("customer_orders", customer_orders_edge)]
  | lineitem => [("order_lineitems", order_lineitems_edge);
                 ("lineitem_part", lineitem_part_edge);
                 ("lineitem_supplier", lineitem_supplier_edge)]
  end.

(** Position of a table in the load order. *)
Definition table_index (t : table) : nat :=
  match t with
  | region => 0 | nation => 1 | supplier => 2 | customer => 3
  | part => 4 | partsupp => 5 | orders => 6 | lineitem => 7
  end.

(** The step that writes a vertex collection. *)
Definition vertex_step (coll : string) : option nat :=
  match find (fun t => String.eqb (fst (vertex_of t)) coll) load_order with
  | Some t => Some (table_index t)
  | None => None
  end.

(** The collection an endpoint ["collection/key"] names. *)
Definition endpoint_coll (v : value) : string :=
  match v with
  | VStr s => hd "" (split_on "/"%char s)
  | _ => ""
  end.

(** Every write of a step sends the rows of some batch through the
    table's vertex mapper or through one of its edge mappers. *)
Lemma writes_of_shape t df c :
  In c (writes_of t df) ->
  exists ve rows,
    In ve (vertex_of t :: edges_of t) /\
    c = InsertMany (fst ve) (map (snd ve) rows) /\
    (forall r, In r rows -> In r df).
Proof.
  destruct t; simpl;
    try (intros H; repeat destruct H as [<-|H]; try contradiction;
         eexists (_, _), df; simpl; (split; [|split; [reflexivity|auto]]);
         tauto).
  intros H. apply in_flat_map in H. destruct H as (ch & Hch & H).
  assert (Hsub : forall r, In r ch -> In r df).
  { intros r Hr. rewrite <- (concat_chunks 1000 df) by lia.
    apply in_concat. eauto. }
  simpl in H. repeat destruct H as [<-|H]; try contradiction;
    eexists (_, _), ch; simpl; (split; [|split; [reflexivity|exact Hsub]]);
    tauto.
Qed.

Lemma inserted_lineitem_batches (chs : list (list record)) :
  inserted "lineitem" (flat_map lineitem_batch_calls chs)
  = map (map lineitem_doc) chs /\
  inserted "order_lineitems" (flat_map lineitem_batch_calls chs)
  = map (map order_lineitems_edge) chs /\
  inserted "lineitem_part" (flat_map lineitem_batch_calls chs)
  = map (map lineitem_part_edge) chs /\
  inserted "lineitem_supplier" (flat_map lineitem_batch_calls chs)
  = map (map lineitem_supplier_edge) chs.
Proof.
  unfold inserted.
  induction chs as [|ch chs (I1 & I2 & I3 & I4)]; simpl; [auto|].
  rewrite I1, I2, I3, I4. auto.
Qed.

End ArangoSteps.

(** The batches of rows the [execute] calls of a history carry. *)
Definition executed (cs : list Memgraph.call) : list (list record) :=
  flat_map (fun c => match c with
                     | Memgraph.Execute (Query _) (Some rows) => [rows]
                     | _ => []
                     end) cs.

Lemma executed_batch_calls q n data :
  executed (MemgraphRuns.batch_calls q n data) = chunks n data.
Proof.
  unfold executed, MemgraphRuns.batch_calls.
  induction (chunks n data) as [|ch chs IH]; simpl; [reflexivity|].
  now rewrite IH.
Qed.

(** A store that answers nothing to every call, and never raises. *)
Definition mute {C : Type} (b : unit) (c : C) : unit * reply := (b, Ok RNone).

Lemma mute_reliable {C : Type} : reliable (@mute C).
Proof. intros b c. now exists RNone. Qed.

(** No file can be read. *)
Definition no_files (path : string) : exn + table_file :=
  inl "FileNotFoundError".

(** C1.  With a batch size [N > 0] and a store that answers every call,
    [batch_load] of the Memgraph loader and the lineitem loop of the
    ArangoDB loader return after one write per batch and target: the
    batches are [ceil (R / N)], each but the last holds [N] records, the
    last holds [R mod N] (or [N] when [N] divides [R]), and the batches in
    the order of their writes make up the records again. *)
Theorem batches_cover_records
    (B1 B2 : Type)
    (mg : B1 -> Memgraph.call -> B1 * reply)
    (ar : B2 -> Arango.call -> B2 * reply)
    (F : string -> exn + table_file)
    (query : list clause) (table_name : string)
    (data df : list record) (N : Z) :
  reliable mg -> reliable ar -> (0 < N)%Z ->
  (exists cs,
     does mg F (Memgraph.batch_load mg query data table_name N) cs tt /\
     batching (Z.to_nat N) data (executed cs))
  /\
  (exists cs,
     does ar F (Arango.lineitem_batches ar N df) cs tt /\
     batching (Z.to_nat N) (map Arango.lineitem_doc df)
              (ArangoRuns.inserted "lineitem" cs) /\
     batching (Z.to_nat N) (map Arango.order_lineitems_edge df)
              (ArangoRuns.inserted "order_lineitems" cs) /\
     batching (Z.to_nat N) (map Arango.lineitem_part_edge df)
              (ArangoRuns.inserted "lineitem_part" cs) /\
     batching (Z.to_nat N) (map Arango.lineitem_supplier_edge df)
              (ArangoRuns.inserted "lineitem_supplier" cs)).
Proof.
  intros Rm Ra HN. split.
  - exists (MemgraphRuns.batch_calls query (Z.to_nat N) data). split.
    + now apply MemgraphRuns.does_batch_load.
    + rewrite executed_batch_calls. apply batching_chunks. lia.
  - exists (flat_map ArangoRuns.lineitem_batch_calls
                     (chunks (Z.to_nat N) df)).
    split; [now apply ArangoRuns.does_lineitem_batches|].
    destruct (ArangoSteps.inserted_lineitem_batches (chunks (Z.to_nat N) df))
      as (-> & -> & -> & ->).
    split; [|split; [|split]]; apply batching_map; apply batching_chunks;
      lia.
Qed.

Definition five_rows : list record :=
  map (fun i => [("l_orderkey", VInt i); ("l_linenumber", VInt 1)])
      [1; 2; 3; 4; 5]%Z.

Lemma batches_cover_records_witness :
  (exists cs,
     does mute no_files
          (Memgraph.batch_load mute Memgraph.query_region five_rows
                               "Region" 2) cs tt /\
     batching 2 five_rows (executed cs))
  /\
  (exists cs,
     does mute no_files (Arango.lineitem_batches mute 2 five_rows) cs tt /\
     batching 2 (map Arango.lineitem_doc five_rows)
              (ArangoRuns.inserted "lineitem" cs) /\
     batching 2 (map Arango.order_lineitems_edge five_rows)
              (ArangoRuns.inserted "order_lineitems" cs) /\
     batching 2 (map Arango.lineitem_part_edge five_rows)
              (ArangoRuns.inserted "lineitem_part" cs) /\
     batching 2 (map Arango.lineitem_supplier_edge five_rows)
              (ArangoRuns.inserted "lineitem_supplier" cs)).
Proof.
  apply (batches_cover_records unit unit mute mute no_files
           Memgraph.query_region "Region" five_rows five_rows 2%Z).
  - apply mute_reliable.
  - apply mute_reliable.
  - lia.
Defined.

(* ================================================================== *)
(** * One insert per collection, except for lineitem *)

Section SingleInsert.
Import Arango ArangoRuns ArangoSteps.

(** C10.  In the ArangoDB loader every table but lineitem is written
    whole: its load step issues exactly one [insert_many] with all the
    vertex records and one with all the records of each of its edge
    collections, and nothing else, whatever the number of rows.  The
    lineitem step instead issues one [insert_many] per batch of 1000 rows
    and collection. *)
Theorem arango_single_insert
    (B : Type) (ar : B -> call -> B * reply)
    (F : string -> exn + table_file) (t : table) (df : list record) :
  reliable ar ->
  frame_of F (path_of t) (columns_of t) = Some df ->
  exists cs,
    does ar F (aload_of ar t) cs tt /\
    (t <> lineitem ->
     inserted (fst (vertex_of t)) cs = [map (snd (vertex_of t)) df] /\
     Forall (fun e => inserted (fst e) cs = [map (snd e) df]) (edges_of t) /\
     length cs = 1 + length (edges_of t)) /\
    (t = lineitem ->
     inserted (fst (vertex_of t)) cs =
     map (map (snd (vertex_of t))) (chunks 1000 df) /\
     Forall (fun e => inserted (fst e) cs =
                      map (map (snd e)) (chunks 1000 df)) (edges_of t) /\
     length cs = 4 * ceil_div (length df) 1000).
Proof.
  intros R Hf. exists (writes_of t df).
  split; [now apply does_aload_of|].
  split.
  - intros Ht.
    destruct t; try contradiction; simpl; repeat constructor.
  - intros ->.
    destruct (inserted_lineitem_batches (chunks 1000 df))
      as (I1 & I2 & I3 & I4).
    split; [exact I1|]. split; [repeat constructor; assumption|].
    rewrite <- (length_chunks 1000 df).
    change (writes_of lineitem df)
      with (flat_map lineitem_batch_calls (chunks 1000 df)).
    clear. induction (chunks 1000 df) as [|ch chs IH]; [reflexivity|].
    cbn [flat_map lineitem_batch_calls app length]. rewrite IH. lia.
Qed.

Definition two_customers (path : string) : exn + table_file :=
  if String.eqb path "customer.tbl"
  then inr [ [VInt 1; VStr "Customer#1"; VStr "a"; VInt 15; VStr "25-989";
              VFloat "711.56"; VStr "BUILDING"; VStr "c1"; NaN];
             [VInt 2; VStr "Customer#2"; VStr "b"; VInt 13; VStr "23-768";
              VFloat "121.65"; VStr "AUTOMOBILE"; VStr "c2"; NaN] ]
  else inl "FileNotFoundError".

Definition two_customer_rows : list record :=
  map (combine (columns_of customer))
      [ [VInt 1; VStr "Customer#1"; VStr "a"; VInt 15; VStr "25-989";
         VFloat "711.56"; VStr "BUILDING"; VStr "c1"];
        [VInt 2; VStr "Customer#2"; VStr "b"; VInt 13; VStr "23-768";
         VFloat "121.65"; VStr "AUTOMOBILE"; VStr "c2"] ].

Lemma arango_single_insert_witness :
  exists cs,
    does mute two_customers (aload_customer mute) cs tt /\
    (customer <> lineitem ->
     inserted "customer" cs = [map customer_doc two_customer_rows] /\
     Forall (fun e => inserted (fst e) cs = [map (snd e) two_customer_rows])
            (edges_of customer) /\
     length cs = 1 + length (edges_of customer)) /\
    (customer = lineitem ->
     inserted "customer" cs =
     map (map customer_doc) (chunks 1000 two_customer_rows) /\
     Forall (fun e => inserted (fst e) cs =
                      map (map (snd e)) (chunks 1000 two_customer_rows))
            (edges_of customer) /\
     length cs = 4 * ceil_div (length two_customer_rows) 1000).
Proof.
  apply (arango_single_insert unit mute two_customers customer
           two_customer_rows).
  - apply mute_reliable.
  - reflexivity.
Defined.
End SingleInsert.

(* ================================================================== *)
(** * The load order *)

(** The relationship types a query writes. *)
Definition rel_types (q : list clause) : list string :=
  flat_map (fun c => match c with
                     | MERGE_rel _ _ t _ => [t]
                     | CREATE_rel _ t _ => [t]
                     | _ => []
                     end) q.

Section LoadOrder.
Import ArangoRuns ArangoSteps.

Lemma edge_endpoints_loaded t e row :
  In e (edges_of t) ->
  exists i j,
    vertex_step (endpoint_coll (row_get (snd e row) "_from")) = Some i /\
    vertex_step (endpoint_coll (row_get (snd e row) "_to")) = Some j /\
    i <= table_index t /\ j <= table_index t.
Proof.
  destruct t; simpl; intros H;
    repeat destruct H as [<-|H]; try contradiction;
    simpl; eexists; eexists;
    (split; [reflexivity|]); (split; [reflexivity|]); simpl; lia.
Qed.

Lemma vertex_written_in_own_step t ve :
  In ve (vertex_of t :: edges_of t) ->
  forall i, vertex_step (fst ve) = Some i -> i = table_index t.
Proof.
  destruct t; simpl; intros H;
    repeat destruct H as [<-|H]; try contradiction;
    intros i Hi; vm_compute in Hi; congruence.
Qed.

(** C2.  With a store that answers every call and eight readable tables,
    [aload] of either loader runs the load steps of region, nation,
    supplier, customer, part, partsupp, orders and lineitem, in this order
    and nothing else.  In the ArangoDB loader a step writes only the
    vertex collection and the edge collections of its own table, a vertex
    collection is written in its own step only, and both ends of every
    edge record name vertex collections written in the same or an earlier
    step.  In the Memgraph loader the relationships of a table are written
    by the table's own query. *)
Theorem load_order_fixed
    (B1 B2 : Type)
    (mg : B1 -> Memgraph.call -> B1 * reply)
    (ar : B2 -> Arango.call -> B2 * reply)
    (F : string -> exn + table_file)
    (mrows arows : table -> list record) :
  reliable mg -> reliable ar ->
  (forall t, frame_of F (MemgraphStore.path_of t) (MemgraphStore.columns_of t)
             = Some (mrows t)) ->
  (forall t, frame_of F (path_of t) (columns_of t) = Some (arows t)) ->
  load_order =
    [region; nation; supplier; customer; part; partsupp; orders; lineitem]
  /\
  does mg F (Memgraph.aload mg)
       (flat_map (fun t => MemgraphRuns.batch_calls
                             (MemgraphStore.query_of t) 1000 (mrows t))
                 load_order) tt
  /\
  map (fun t => rel_types (MemgraphStore.query_of t)) load_order =
    [ []; ["BELONGS_TO"]; ["LOCATED_IN"]; ["LOCATED_IN"]; []; ["SUPPLIES"];
      ["PLACED"]; ["CONTAINS"; "OF_PART"; "SUPPLIED_BY"] ]
  /\
  does ar F (Arango.aload ar)
       (flat_map (fun t => writes_of t (arows t)) load_order) tt
  /\
  (forall t c, In c (writes_of t (arows t)) ->
     exists ve docs,
       In ve (vertex_of t :: edges_of t) /\ c = Arango.InsertMany (fst ve) docs /\
       (forall i, vertex_step (fst ve) = Some i -> i = table_index t) /\
       (In ve (edges_of t) ->
        forall d, In d docs ->
          exists i j,
            vertex_step (endpoint_coll (row_get d "_from")) = Some i /\
            vertex_step (endpoint_coll (row_get d "_to")) = Some j /\
            i <= table_index t /\ j <= table_index t)).
Proof.
  intros Rm Ra Hm Ha.
  split; [reflexivity|]. split; [|split; [reflexivity|split]].
  - unfold Memgraph.aload. cbn [flat_map load_order].
    change (MemgraphRuns.batch_calls ?q 1000 ?d ++ ?r)
      with ([] ++ MemgraphRuns.batch_calls q 1000 d ++ r) at 1.
    eapply does_bind; [apply does_print|].
    assert (S : forall t,
               does mg F (MemgraphStore.aload_of mg t)
                    (MemgraphRuns.batch_calls (MemgraphStore.query_of t) 1000
                                              (mrows t)) tt).
    { intros t. rewrite MemgraphStore.aload_of_load_table.
      now apply MemgraphRuns.does_load_table. }
    eapply does_bind; [apply (S region)|].
    eapply does_bind; [apply (S nation)|].
    eapply does_bind; [apply (S supplier)|].
    eapply does_bind; [apply (S customer)|].
    eapply does_bind; [apply (S part)|].
    eapply does_bind; [apply (S partsupp)|].
    eapply does_bind; [apply (S orders)|].
    eapply does_bind; [apply (S lineitem)|].
    apply does_print.
  - unfold Arango.aload. cbn [flat_map load_order].
    change (writes_of region (arows region) ++ ?r)
      with ([] ++ writes_of region (arows region) ++ r).
    eapply does_bind; [apply does_print|].
    eapply does_bind; [apply (does_aload_of B2 ar Ra F region _ (Ha _))|].
    eapply does_bind; [apply (does_aload_of B2 ar Ra F nation _ (Ha _))|].
    eapply does_bind; [apply (does_aload_of B2 ar Ra F supplier _ (Ha _))|].
    eapply does_bind; [apply (does_aload_of B2 ar Ra F customer _ (Ha _))|].
    eapply does_bind; [apply (does_aload_of B2 ar Ra F part _ (Ha _))|].
    eapply does_bind; [apply (does_aload_of B2 ar Ra F partsupp _ (Ha _))|].
    eapply does_bind; [apply (does_aload_of B2 ar Ra F orders _ (Ha _))|].
    eapply does_bind; [apply (does_aload_of B2 ar Ra F lineitem _ (Ha _))|].
    apply does_print.
  - intros t c Hc.
    destruct (writes_of_shape t (arows t) c Hc) as (ve & rows & Hve & -> & _).
    exists ve, (map (snd ve) rows). split; [exact Hve|].
    split; [reflexivity|]. split.
    + now apply vertex_written_in_own_step.
    + intros He d Hd. apply in_map_iff in Hd. destruct Hd as (row & <- & _).
      now apply edge_endpoints_loaded.
Qed.
End LoadOrder.

(** Eight files of one line each, wide enough for every table. *)
Definition one_line : list value :=
  map VInt [1; 2; 3; 4; 5; 6; 7; 8; 9; 10; 11; 12; 13; 14; 15; 16; 17]%Z.

Definition one_line_files (path : string) : exn + table_file :=
  inr [one_line].

Definition one_line_rows (columns : table -> list string) (t : table)
  : list record :=
  [combine (columns t) (firstn (length (columns t)) one_line)].

Lemma load_order_fixed_witness :
  does mute one_line_files (Memgraph.aload mute)
       (flat_map (fun t => MemgraphRuns.batch_calls
                             (MemgraphStore.query_of t) 1000
                             (one_line_rows MemgraphStore.columns_of t))
                 load_order) tt
  /\
  does mute one_line_files (Arango.aload mute)
       (flat_map (fun t => ArangoRuns.writes_of t
                             (one_line_rows ArangoRuns.columns_of t))
                 load_order) tt.
Proof.
  destruct (load_order_fixed unit unit mute mute one_line_files
              (one_line_rows MemgraphStore.columns_of)
              (one_line_rows ArangoRuns.columns_of))
    as (_ & H1 & _ & H2 & _).
  - apply mute_reliable.
  - apply mute_reliable.
  - intros t. destruct t; reflexivity.
  - intros t. destruct t; reflexivity.
  - split; assumption.
Defined.

(* ================================================================== *)
(** * Identity keys *)

(** A row built from the column names has every column. *)
Lemma row_get_columns (names : list string) (vals : list value) (k : string) :
  In k names -> length names <= length vals ->
  exists v, assoc k (combine names vals) = Some v /\ In v vals.
Proof.
  revert vals; induction names as [|n names IH]; intros vals Hk Hl;
    [contradiction|].
  destruct vals as [|v vals]; simpl in Hl; [lia|]. simpl.
  destruct (String.eqb k n) eqn:E.
  - exists v. split; [reflexivity|now left].
  - destruct Hk as [->|Hk]; [now rewrite String.eqb_refl in E|].
    destruct (IH vals Hk ltac:(lia)) as (v' & H1 & H2).
    exists v'. split; [exact H1|now right].
Qed.

Section Keys.
Import Arango ArangoRuns ArangoSteps.

(** The natural key of each table, as its mapper reads it. *)
Definition key_fields (t : table) : list string :=
  match t with
  | region => ["r_regionkey"]
  | nation => ["n_nationkey"]
  | supplier => ["s_suppkey"]
  | customer => ["c_custkey"]
  | part => ["p_partkey"]
  | partsupp => ["ps_partkey"; "ps_suppkey"]
  | orders => ["o_orderkey"]
  | lineitem => ["l_orderkey"; "l_linenumber"]
  end.

(** The string forms of the key values, joined by underscores. *)
Definition key_string (vals : list value) : string :=
  String.concat "_" (map str vals).

(** C3.  The [_key] of a vertex record is a function of the values of the
    row's natural key fields alone: their string forms joined by single
    underscores.  For the six tables with one key field it is the string
    form of that field, for partsupp it is
    [<ps_partkey>_<ps_suppkey>] and for lineitem
    [<l_orderkey>_<l_linenumber>]. *)
Theorem identity_keys (t : table) (row : record) :
  assoc "_key" (snd (vertex_of t) row) =
    Some (VStr (key_string (map (row_get row) (key_fields t))))
  /\
  (In t [region; nation; supplier; customer; part; orders] ->
   exists f, key_fields t = [f] /\
             assoc "_key" (snd (vertex_of t) row) =
             Some (VStr (str (row_get row f))))
  /\
  assoc "_key" (partsupp_doc row) =
    Some (VStr (str (row_get row "ps_partkey") ++ "_"
                ++ str (row_get row "ps_suppkey"))%string)
  /\
  assoc "_key" (lineitem_doc row) =
    Some (VStr (str (row_get row "l_orderkey") ++ "_"
                ++ str (row_get row "l_linenumber"))%string).
Proof.
  split; [destruct t; reflexivity|].
  split; [|split; reflexivity].
  intros H. simpl in H.
  repeat destruct H as [<-|H]; try contradiction;
    eexists; split; reflexivity.
Qed.

Definition row_7_3 : record :=
  [("ps_partkey", VInt 7); ("ps_suppkey", VInt 3); ("ps_availqty", VInt 10);
   ("ps_supplycost", VFloat "1.5"); ("ps_comment", VStr "none");
   ("o_orderkey", VInt (-42))].

Lemma identity_keys_witness :
  assoc "_key" (order_doc row_7_3) = Some (VStr "-42") /\
  assoc "_key" (partsupp_doc row_7_3) = Some (VStr "7_3").
Proof.
  destruct (identity_keys orders row_7_3) as (H1 & _ & H2 & _).
  split; [exact H1|exact H2].
Defined.
End Keys.

(* ================================================================== *)
(** * The columns the reader keeps *)

Section Columns.
Import ArangoRuns ArangoSteps.

(** Number of columns each loader asks [read_csv] for. *)
Definition ncols (t : table) : nat :=
  match t with
  | region => 3 | nation => 4 | supplier => 7 | customer => 8
  | part => 9 | partsupp => 5 | orders => 9 | lineitem => 16
  end.

(** The rows of a frame: the first [ncols t] fields of every line, under
    the loader's column names. *)
Definition rows_of (columns : table -> list string) (t : table)
                   (lines : table_file) : list record :=
  map (fun line => combine (columns t) (firstn (ncols t) line)) lines.

Lemma frame_of_rows F (path : table -> string) columns t lines :
  length (columns t) = ncols t ->
  F (path t) = inr lines ->
  Forall (fun line => ncols t <= length line) lines ->
  frame_of F (path t) (columns t) = Some (rows_of columns t lines).
Proof.
  intros Hc HF Hl. unfold frame_of, rows_of. rewrite HF, Hc.
  replace (forallb _ lines) with true.
  - now rewrite map_map.
  - symmetry. apply forallb_forall. intros l Hin.
    rewrite Forall_forall in Hl. apply Nat.leb_le. now apply Hl.
Qed.

(** C9.  For every table, both loaders work on exactly the first
    3, 4, 7, 8, 9, 5, 9 and 16 fields of the lines of the region, nation,
    supplier, customer, part, partsupp, orders and lineitem file: the rows
    they load have that many cells, taken in order from the front of the
    line, and what follows them on the line (the empty field after the
    last pipe) is dropped. *)
Theorem reader_keeps_first_columns
    (B1 B2 : Type)
    (mg : B1 -> Memgraph.call -> B1 * reply)
    (ar : B2 -> Arango.call -> B2 * reply)
    (F : string -> exn + table_file) (t : table) (lines : table_file) :
  reliable mg -> reliable ar ->
  F (path_of t) = inr lines ->
  Forall (fun line => ncols t <= length line) lines ->
  map ncols load_order = [3; 4; 7; 8; 9; 5; 9; 16] /\
  does mg F (MemgraphStore.aload_of mg t)
       (MemgraphRuns.batch_calls (MemgraphStore.query_of t) 1000
          (rows_of MemgraphStore.columns_of t lines)) tt /\
  does ar F (aload_of ar t)
       (writes_of t (rows_of columns_of t lines)) tt /\
  Forall (fun r => map snd r = firstn (ncols t) (map snd r) /\
                   length r = ncols t)
         (rows_of MemgraphStore.columns_of t lines ++
          rows_of columns_of t lines) /\
  map (map snd) (rows_of MemgraphStore.columns_of t lines) =
    map (firstn (ncols t)) lines /\
  map (map snd) (rows_of columns_of t lines) = map (firstn (ncols t)) lines.
Proof.
  intros Rm Ra HF Hl.
  assert (Hcm : length (MemgraphStore.columns_of t) = ncols t)
    by (destruct t; reflexivity).
  assert (Hca : length (columns_of t) = ncols t) by (destruct t; reflexivity).
  assert (Hsnd : forall (names : list string) (line : list value),
             length names = ncols t -> ncols t <= length line ->
             map snd (combine names (firstn (ncols t) line))
             = firstn (ncols t) line).
  { intros names line Hn Hle.
    assert (L : length (firstn (ncols t) line) = length names)
      by (rewrite length_firstn; lia).
    revert L. generalize (firstn (ncols t) line) as vs. clear.
    induction names as [|n names IH]; intros [|v vs] L; simpl in *;
      try discriminate; [reflexivity|].
    f_equal. apply IH. lia. }
  split; [reflexivity|]. split; [|split; [|split; [|split]]].
  - rewrite MemgraphStore.aload_of_load_table.
    apply MemgraphRuns.does_load_table; [exact Rm|].
    now apply (frame_of_rows F MemgraphStore.path_of).
  - apply does_aload_of; [exact Ra|].
    now apply (frame_of_rows F path_of).
  - apply Forall_forall. intros r Hr. apply in_app_or in Hr.
    rewrite Forall_forall in Hl.
    destruct Hr as [Hr|Hr]; unfold rows_of in Hr; apply in_map_iff in Hr;
      destruct Hr as (line & <- & Hin); specialize (Hl line Hin);
      rewrite Hsnd by assumption;
      (split; [now rewrite firstn_firstn, Nat.min_id|]);
      rewrite length_combine, length_firstn; lia.
  - unfold rows_of. rewrite map_map. apply map_ext_in. intros line Hin.
    rewrite Forall_forall in Hl. now apply Hsnd; [|apply Hl].
  - unfold rows_of. rewrite map_map. apply map_ext_in. intros line Hin.
    rewrite Forall_forall in Hl. now apply Hsnd; [|apply Hl].
Qed.

Definition region_lines : table_file :=
  [ [VInt 0; VStr "AFRICA"; VStr "lar deposits"; NaN];
    [VInt 1; VStr "AMERICA"; VStr "hs use ironic"; NaN] ].

Definition region_file (path : string) : exn + table_file :=
  if String.eqb path "region.tbl" then inr region_lines
  else inl "FileNotFoundError".

Lemma reader_keeps_first_columns_witness :
  map (map snd) (rows_of MemgraphStore.columns_of region region_lines) =
    [ [VInt 0; VStr "AFRICA"; VStr "lar deposits"];
      [VInt 1; VStr "AMERICA"; VStr "hs use ironic"] ] /\
  map (map snd) (rows_of columns_of region region_lines) =
    [ [VInt 0; VStr "AFRICA"; VStr "lar deposits"];
      [VInt 1; VStr "AMERICA"; VStr "hs use ironic"] ].
Proof.
  destruct (reader_keeps_first_columns unit unit mute mute region_file
              region region_lines) as (_ & _ & _ & _ & H1 & H2).
  - apply mute_reliable.
  - apply mute_reliable.
  - reflexivity.
  - repeat constructor.
  - split; [exact H1|exact H2].
Defined.
End Columns.

(* ================================================================== *)
(** * Which errors stop a run *)

Section Propagation.
Variables (C B : Type).
Variable respond : B -> C -> B * reply.

(** The origins whose errors the program is meant to survive. *)
Variable recoverable : origin C -> bool.

Local Abbreviation M := (M C B).

(** Every error in the events was a recoverable one. *)
Definition calm (tr : list (event C)) : Prop :=
  forall o e, In (o, Raise e) tr -> recoverable o = true.

(** A run from [w] only appends events.  If it returns, every error on its
    way was recoverable; if it raises [e], then [e] is an error that is not
    recoverable, it was raised by the last event of the run, and every
    error before it was recoverable. *)
Definition outcome {A : Type} (w : world C B) (res : world C B * (exn + A))
  : Prop :=
  exists tr,
    trace (fst res) = trace w ++ tr /\
    match snd res with
    | inr _ => calm tr
    | inl e => exists tr0 o, tr = tr0 ++ [(o, Raise e)] /\
                             recoverable o = false /\ calm tr0
    end.

Definition sound {A : Type} (m : M A) : Prop := forall w, outcome w (m w).

Lemma calm_nil : calm [].
Proof. intros o e []. Qed.

Lemma calm_app tr tr' : calm tr -> calm tr' -> calm (tr ++ tr').
Proof.
  intros H H' o e Hin. apply in_app_or in Hin.
  destruct Hin; [now apply (H o e)|now apply (H' o e)].
Qed.

Lemma calm_ok o v : calm [(o, Ok v)].
Proof. intros o' e [H|[]]. discriminate. Qed.

Lemma sound_ret {A : Type} (a : A) : sound (ret a).
Proof.
  intros w. exists []. simpl. rewrite app_nil_r. split; [reflexivity|].
  apply calm_nil.
Qed.

Lemma sound_print (s : string) : sound (print s).
Proof.
  intros w. exists []. simpl. rewrite app_nil_r. split; [reflexivity|].
  apply calm_nil.
Qed.

Lemma sound_bind {A X : Type} (m : M A) (k : A -> M X) :
  sound m -> (forall a, sound (k a)) -> sound (bind m k).
Proof.
  intros Hm Hk w. unfold bind.
  destruct (Hm w) as (tr1 & T1 & O1).
  destruct (m w) as [w1 [e|a]]; simpl in *.
  - exists tr1. now split.
  - destruct (Hk a w1) as (tr2 & T2 & O2).
    exists (tr1 ++ tr2). split.
    + now rewrite T2, T1, app_assoc.
    + destruct (snd (k a w1)) as [e|x].
      * destruct O2 as (tr0 & o & -> & Ho & Hc).
        exists (tr1 ++ tr0), o. rewrite app_assoc.
        split; [reflexivity|]. split; [exact Ho|now apply calm_app].
      * now apply calm_app.
Qed.

Lemma sound_request (c : C) :
  recoverable (Store c) = false -> sound (request respond c).
Proof.
  intros Hc w. unfold request.
  destruct (respond (conn w) c) as [b' [v|e]]; simpl.
  - exists [(Store c, Ok v)]. split; [reflexivity|apply calm_ok].
  - exists [(Store c, Raise e)]. split; [reflexivity|].
    exists [], (Store c). split; [reflexivity|]. split; [exact Hc|].
    apply calm_nil.
Qed.

Lemma sound_raise {A : Type} (what : string) (e : exn) :
  recoverable (Python what) = false -> sound (@raise C B A what e).
Proof.
  intros Hc w. exists [(Python what, Raise e)]. split; [reflexivity|].
  exists [], (Python what). split; [reflexivity|]. split; [exact Hc|].
  apply calm_nil.
Qed.

Lemma sound_read_csv (path : string) (n : nat) :
  recoverable (Reader path n) = false -> sound (@read_csv C B path n).
Proof.
  intros Hc w. unfold read_csv.
  destruct (files w path) as [e|lines].
  - exists [(Reader path n, Raise e)]. split; [reflexivity|].
    exists [], (Reader path n). split; [reflexivity|].
    split; [exact Hc|apply calm_nil].
  - destruct (forallb _ lines).
    + exists [(Reader path n, Ok RNone)]. split; [reflexivity|apply calm_ok].
    + eexists [(Reader path n, Raise _)]. split; [reflexivity|].
      exists [], (Reader path n). split; [reflexivity|].
      split; [exact Hc|apply calm_nil].
Qed.

Lemma sound_set_columns df names :
  recoverable (Python "df.columns") = false ->
  sound (@set_columns C B df names).
Proof.
  intros Hc. unfold set_columns.
  destruct (forallb _ df); [apply sound_ret|now apply sound_raise].
Qed.

Lemma sound_floordiv a b :
  recoverable (Python "//") = false -> sound (@floordiv C B a b).
Proof.
  intros Hc. unfold floordiv.
  destruct (b =? 0)%Z; [now apply sound_raise|apply sound_ret].
Qed.

Lemma sound_for {X : Type} (xs : list X) (f : X -> M unit) :
  (forall x, sound (f x)) -> sound (for_ xs f).
Proof.
  intros H. induction xs as [|x xs IH]; simpl.
  - apply sound_ret.
  - apply sound_bind; [apply H|intros _; exact IH].
Qed.

(** A guarded call: [try: call  except Exception as e: print(...)]. *)
Definition guarded (c : C) (warn : exn -> string) : M unit :=
  try_except (bind (request respond c) (fun _ => ret tt))
             (fun e => print (warn e)).

Lemma sound_guarded (c : C) (warn : exn -> string) :
  recoverable (Store c) = true -> sound (guarded c warn).
Proof.
  intros Hc w. unfold guarded, try_except, bind, request.
  destruct (respond (conn w) c) as [b' [v|e]]; simpl.
  - exists [(Store c, Ok v)]. split; [reflexivity|apply calm_ok].
  - exists [(Store c, Raise e)]. split; [reflexivity|].
    intros o e' [H|[]]. injection H as <- <-. exact Hc.
Qed.

(** Number of errors in the events. *)
Fixpoint raises (tr : list (event C)) : nat :=
  match tr with
  | [] => 0
  | (_, Raise _) :: tr' => S (raises tr')
  | _ :: tr' => raises tr'
  end.

(** A loop of guarded calls makes every one of its calls, in order,
    prints one warning per error, and returns. *)
Lemma guarded_loop {X : Type} (xs : list X) (c : X -> C)
                   (warn : X -> exn -> string) (w : world C B) :
  exists w' tr,
    for_ xs (fun x => guarded (c x) (warn x)) w = (w', inr tt) /\
    trace w' = trace w ++ tr /\
    map fst tr = map (fun x => Store (c x)) xs /\
    length (out w') = length (out w) + raises tr /\
    files w' = files w.
Proof.
  revert w; induction xs as [|x xs IH]; intros w; simpl.
  - exists w, []. rewrite app_nil_r. repeat split. simpl. lia.
  - unfold bind at 1. unfold guarded at 1, try_except, bind, request.
    destruct (respond (conn w) (c x)) as [b' [v|e]]; simpl.
    + match goal with
      | |- context [for_ xs ?f ?w0] =>
          destruct (IH w0) as (w' & tr & E & T & Cs & O & Fs)
      end.
      exists w', ((Store (c x), Ok v) :: tr). rewrite E.
      simpl in *. rewrite T, <- app_assoc, Cs.
      repeat split; assumption.
    + match goal with
      | |- context [for_ xs ?f ?w0] =>
          destruct (IH w0) as (w' & tr & E & T & Cs & O & Fs)
      end.
      exists w', ((Store (c x), Raise e) :: tr). rewrite E.
      simpl in *. rewrite T, <- app_assoc, Cs.
      repeat split; try assumption.
      rewrite O, length_app. simpl. lia.
Qed.
End Propagation.

Arguments calm {C} recoverable tr.
Arguments outcome {C B} recoverable {A} w res.
Arguments sound {C B} recoverable {A} m.
Arguments guarded {C B} respond c warn.
Arguments raises {C} tr.

Lemma sound_for_in {C B X : Type} (recoverable : origin C -> bool)
                   (xs : list X) (f : X -> M C B unit) :
  (forall x, In x xs -> sound recoverable (f x)) ->
  sound recoverable (for_ xs f).
Proof.
  intros H. induction xs as [|x xs IH]; simpl.
  - apply sound_ret.
  - apply sound_bind; [apply H; now left|intros _].
    apply IH. intros y Hy. apply H. now right.
Qed.

(** One step of a proof that a program is [sound], by its head. *)
Ltac sound_step :=
  match goal with
  | |- sound _ (bind _ _) => apply sound_bind; [|intros ?]
  | |- sound _ (ret _) => apply sound_ret
  | |- sound _ (print _) => apply sound_print
  | |- sound _ (request _ _) => apply sound_request; reflexivity
  | |- sound _ (for_ _ _) => apply sound_for_in; intros ? ?
  | |- sound _ (try_except _ _) => apply sound_guarded; reflexivity
  | |- sound _ (read_csv _ _) => apply sound_read_csv; reflexivity
  | |- sound _ (set_columns _ _) => apply sound_set_columns; reflexivity
  | |- sound _ (floordiv _ _) => apply sound_floordiv; reflexivity
  | |- sound _ (raise _ _) => apply sound_raise; reflexivity
  | |- sound _ (if ?b then _ else _) => destruct b
  | |- sound _ (match ?l with _ => _ end) => destruct l
  end.

Module Policy.

(** The calls that create an index. *)
Definition memgraph_index (o : origin Memgraph.call) : bool :=
  match o with
  | Store (Memgraph.Execute (CreateIndex _ _) _) => true
  | _ => false
  end.

Definition arango_index (o : origin Arango.call) : bool :=
  match o with
  | Store (Arango.AddIndex _ _ _ _) => true
  | _ => false
  end.

(** The call that clears the Memgraph store. *)
Definition memgraph_clear (o : origin Memgraph.call) : bool :=
  match o with
  | Store (Memgraph.Execute DetachDeleteAll _) => true
  | _ => false
  end.

(** What the Memgraph loader guards: index creation and the clearing. *)
Definition memgraph_guarded (o : origin Memgraph.call) : bool :=
  memgraph_index o || memgraph_clear o.

Section Mains.
Variables B1 B2 : Type.
Variable mg : B1 -> Memgraph.call -> B1 * reply.
Variable ar : B2 -> Arango.call -> B2 * reply.

Lemma sound_setup_indices (rec : origin Memgraph.call -> bool) :
  (forall o, memgraph_index o = true -> rec o = true) ->
  sound rec (Memgraph.setup_indices mg).
Proof.
  intros H. unfold Memgraph.setup_indices.
  apply sound_for_in. intros s Hs. apply sound_guarded. apply H.
  unfold Memgraph.indices in Hs. simpl in Hs.
  repeat destruct Hs as [<-|Hs]; try reflexivity. contradiction.
Qed.

Lemma sound_memgraph_aload (rec : origin Memgraph.call -> bool) :
  (forall o, memgraph_guarded o = false -> rec o = false) ->
  sound rec (Memgraph.aload mg).
Proof.
  intros H.
  unfold Memgraph.aload, Memgraph.aload_region, Memgraph.aload_nation,
    Memgraph.aload_supplier, Memgraph.aload_customer, Memgraph.aload_part,
    Memgraph.aload_partsupp, Memgraph.aload_orders, Memgraph.aload_lineitem,
    Memgraph.batch_load.
  cbv zeta.
  repeat first
    [ sound_step
    | apply sound_request; apply H; reflexivity
    | apply sound_read_csv; apply H; reflexivity
    | apply sound_set_columns; apply H; reflexivity
    | apply sound_floordiv; apply H; reflexivity ].
Qed.

Lemma sound_memgraph_main : sound memgraph_guarded (Memgraph.main mg).
Proof.
  unfold Memgraph.main, Memgraph.connect, Memgraph.clear, Memgraph.setup,
    Memgraph.close.
  apply sound_bind; [repeat sound_step|intros _].
  apply sound_bind; [repeat sound_step|intros _].
  apply sound_bind.
  { apply sound_setup_indices. intros o Ho. unfold memgraph_guarded.
    now rewrite Ho. }
  intros _.
  apply sound_bind; [now apply sound_memgraph_aload|intros _].
  repeat sound_step.
Qed.

Lemma sound_add_indices name indices :
  sound arango_index (Arango.add_indices ar name indices).
Proof.
  unfold Arango.add_indices. cbv zeta. repeat sound_step.
Qed.

Lemma sound_asetup : sound arango_index (Arango.asetup ar).
Proof.
  unfold Arango.asetup, Arango.ensure_collection.
  repeat first [apply sound_add_indices | sound_step].
Qed.

Lemma sound_arango_aload : sound arango_index (Arango.aload ar).
Proof.
  unfold Arango.aload, Arango.aload_region, Arango.aload_nation,
    Arango.aload_supplier, Arango.aload_customer, Arango.aload_part,
    Arango.aload_partsupp, Arango.aload_orders, Arango.aload_lineitem,
    Arango.lineitem_batches, Arango.insert_many.
  cbv zeta. repeat sound_step.
Qed.

Lemma sound_arango_main : sound arango_index (Arango.main ar).
Proof.
  unfold Arango.main.
  apply sound_bind;
    [unfold Arango.aconnect; repeat sound_step|intros _].
  apply sound_bind;
    [unfold Arango.aclear; repeat sound_step|intros _].
  apply sound_bind; [apply sound_asetup|intros _].
  apply sound_bind; [apply sound_arango_aload|intros _].
  apply sound_bind;
    [unfold Arango.agraph; repeat sound_step|intros _].
  unfold Arango.aclose. repeat sound_step.
Qed.
End Mains.

End Policy.

(* ================================================================== *)
(** * Errors of index creation and of clearing *)

Section Errors.
Import Policy.

(** A Memgraph store that fails to clear, and answers everything else. *)
Definition clear_fails (b : unit) (c : Memgraph.call) : unit * reply :=
  match c with
  | Memgraph.Execute DetachDeleteAll _ => (b, Raise "Connection lost")
  | _ => (b, Ok RNone)
  end.

(** Stores that refuse every index, and answer everything else; the
    ArangoDB one has every collection and no graph. *)
Definition memgraph_index_fails (b : unit) (c : Memgraph.call)
  : unit * reply :=
  match c with
  | Memgraph.Execute (CreateIndex _ _) _ => (b, Raise "Index already exists")
  | _ => (b, Ok RNone)
  end.

Definition arango_index_fails (b : unit) (c : Arango.call) : unit * reply :=
  match c with
  | Arango.AddIndex _ _ _ _ => (b, Raise "Index already exists")
  | Arango.HasCollection _ | Arango.HasDatabase _ => (b, Ok (RBool true))
  | Arango.HasGraph _ => (b, Ok (RBool false))
  | _ => (b, Ok RNone)
  end.

Definition fresh_world {C : Type} : world C unit :=
  World one_line_files tt [] [].

(** The failed clearing does not stop the Memgraph loader: the run goes on
    to the end, although clearing is not index creation. *)
Lemma memgraph_clear_error_swallowed :
  snd (Memgraph.main clear_fails fresh_world) = inr tt /\
  In (Store (Memgraph.Execute DetachDeleteAll None), Raise "Connection lost")
     (trace (fst (Memgraph.main clear_fails fresh_world))) /\
  memgraph_index (Store (Memgraph.Execute DetachDeleteAll None)) = false /\
  ~ sound memgraph_index (Memgraph.main clear_fails).
Proof.
  assert (E1 : snd (Memgraph.main clear_fails fresh_world) = inr tt)
    by (vm_compute; reflexivity).
  assert (E2 : In (Store (Memgraph.Execute DetachDeleteAll None),
                   Raise "Connection lost")
                  (trace (fst (Memgraph.main clear_fails fresh_world))))
    by (vm_compute; right; left; reflexivity).
  split; [exact E1|]. split; [exact E2|]. split; [reflexivity|].
  intros S. destruct (S fresh_world) as (tr & T & O).
  change (trace fresh_world ++ tr) with tr in T.
  rewrite E1 in O. cbv iota in O.
  rewrite T in E2. apply O in E2. discriminate E2.
Qed.

Lemma guarded_returns {C B : Type} (respond : B -> C -> B * reply)
                      (c : C) (warn : exn -> string) (w : world C B) :
  snd (guarded respond c warn w) = inr tt.
Proof.
  unfold guarded, try_except, bind, request.
  now destruct (respond (conn w) c) as [b' [v|e]].
Qed.

(** C5, amended.  In a run of either loader an error stops the run at the
    event that raised it and is the run's result, unless it comes from an
    index creation or, in the Memgraph loader, from the clearing of the
    store: [clear], [setup_indices] and [add_indices] always return.
    Batch writes, commits and the ArangoDB clearing are not among the
    guarded calls. *)
Theorem errors_propagate_unless_guarded
    (B1 B2 : Type)
    (mg : B1 -> Memgraph.call -> B1 * reply)
    (ar : B2 -> Arango.call -> B2 * reply) :
  sound memgraph_guarded (Memgraph.main mg) /\
  sound arango_index (Arango.main ar) /\
  (forall w, snd (Memgraph.clear mg w) = inr tt) /\
  (forall w, snd (Memgraph.setup_indices mg w) = inr tt) /\
  (forall name indices w,
     snd (Arango.add_indices ar name indices w) = inr tt) /\
  (forall q rows,
     memgraph_guarded (Store (Memgraph.Execute (Query q) rows)) = false) /\
  memgraph_guarded (Store Memgraph.Commit) = false /\
  (forall coll docs, arango_index (Store (Arango.InsertMany coll docs)) = false)
  /\
  (forall name drop,
     arango_index (Store (Arango.DeleteGraph name drop)) = false) /\
  (forall name, arango_index (Store (Arango.DeleteCollection name)) = false).
Proof.
  split; [apply sound_memgraph_main|].
  split; [apply sound_arango_main|].
  split; [intros w; apply guarded_returns|].
  split.
  { intros w.
    destruct (guarded_loop Memgraph.call B1 mg Memgraph.indices
                (fun s => Memgraph.Execute s None)
                (fun _ e => ("Index creation warning: " ++ e)%string) w)
      as (w' & tr & E & _).
    unfold Memgraph.setup_indices.
    change (for_ Memgraph.indices
              (fun x => guarded mg (Memgraph.Execute x None)
                          (fun e => ("Index creation warning: " ++ e)%string))
              w = (w', inr tt)) in E.
    unfold guarded in E. now rewrite E. }
  split.
  { intros name indices w.
    destruct (guarded_loop Arango.call B2 ar indices
                (fun fu => Arango.AddIndex name (fst fu) (snd fu)
                             (name ++ "_" ++ fst fu ++ "_idx")%string)
                (fun fu e => ("Index creation warning for "
                              ++ (name ++ "_" ++ fst fu ++ "_idx") ++ ": "
                              ++ e)%string) w)
      as (w' & tr & E & _).
    unfold Arango.add_indices. cbv zeta.
    unfold guarded in E. cbv beta in E. now rewrite E. }
  repeat split.
Qed.
End Errors.

Section IndexErrors.
Import Policy.

(** C8.  [setup_indices] of the Memgraph loader and [add_indices] of the
    ArangoDB loader attempt every index in order, whatever the store
    answers, print one warning per error, and return.  An error that ends
    [asetup] or a whole run is therefore never one of index creation. *)
Theorem index_errors_never_abort
    (B1 B2 : Type)
    (mg : B1 -> Memgraph.call -> B1 * reply)
    (ar : B2 -> Arango.call -> B2 * reply) :
  (forall w, exists w' tr,
     Memgraph.setup_indices mg w = (w', inr tt) /\
     trace w' = trace w ++ tr /\
     map fst tr =
       map (fun s => Store (Memgraph.Execute s None)) Memgraph.indices /\
     length (out w') = length (out w) + raises tr)
  /\
  (forall name indices w, exists w' tr,
     Arango.add_indices ar name indices w = (w', inr tt) /\
     trace w' = trace w ++ tr /\
     map fst tr =
       map (fun fu => Store (Arango.AddIndex name (fst fu) (snd fu)
                               (name ++ "_" ++ fst fu ++ "_idx")%string))
           indices /\
     length (out w') = length (out w) + raises tr)
  /\
  Forall (fun s => memgraph_index (Store (Memgraph.Execute s None)) = true)
         Memgraph.indices
  /\
  sound memgraph_guarded (Memgraph.setup mg) /\
  sound arango_index (Arango.asetup ar) /\
  sound memgraph_guarded (Memgraph.main mg) /\
  sound arango_index (Arango.main ar).
Proof.
  split.
  { intros w.
    destruct (guarded_loop Memgraph.call B1 mg Memgraph.indices
                (fun s => Memgraph.Execute s None)
                (fun _ e => ("Index creation warning: " ++ e)%string) w)
      as (w' & tr & E & T & Cs & O & _).
    exists w', tr. split; [exact E|]. split; [exact T|]. now split. }
  split.
  { intros name indices w.
    destruct (guarded_loop Arango.call B2 ar indices
                (fun fu => Arango.AddIndex name (fst fu) (snd fu)
                             (name ++ "_" ++ fst fu ++ "_idx")%string)
                (fun fu e => ("Index creation warning for "
                              ++ (name ++ "_" ++ fst fu ++ "_idx") ++ ": "
                              ++ e)%string) w)
      as (w' & tr & E & T & Cs & O & _).
    exists w', tr. split; [exact E|]. split; [exact T|]. now split. }
  split; [repeat constructor|].
  split.
  { apply sound_setup_indices. intros o Ho. unfold memgraph_guarded.
    now rewrite Ho. }
  split; [apply sound_asetup|].
  split; [apply sound_memgraph_main|apply sound_arango_main].
Qed.

(** Both loaders run to the end on stores that refuse every index, with
    one warning per index. *)
Example index_failures_do_not_stop_the_load :
  snd (Memgraph.main memgraph_index_fails fresh_world) = inr tt /\
  raises (trace (fst (Memgraph.main memgraph_index_fails fresh_world))) = 13
  /\
  snd (Arango.main arango_index_fails fresh_world) = inr tt /\
  raises (trace (fst (Arango.main arango_index_fails fresh_world))) = 12.
Proof.
  split; [vm_compute; reflexivity|].
  split; [vm_compute; reflexivity|].
  split; vm_compute; reflexivity.
Qed.
End IndexErrors.

(* ================================================================== *)
(** * The direction of the relationships a query writes *)

Module CypherTyping.

Definition label_at (g : graph) (i : nat) : option string :=
  option_map nlabel (nth_error (nodes g) i).

(** What a query knows of its variables: the label of a node variable,
    [None] for a relationship variable. *)
Definition ctx : Type := list (string * option string).

Fixpoint ctx_get (x : string) (G : ctx) : option (option string) :=
  match G with
  | [] => None
  | (y, t) :: G' => if String.eqb x y then Some t else ctx_get x G'
  end.

Definition ctx_step (c : clause) (G : ctx) : ctx :=
  match c with
  | MERGE_node x l _ _ | MATCH_node x l _ _ | CREATE_node x l _ =>
      (x, Some l) :: G
  | WITH xs => filter (fun b => existsb (String.eqb (fst b)) xs) G
  | MERGE_rel _ (Some r) _ _ => (r, None) :: G
  | _ => G
  end.

(** A direction: label of the start node, relationship type, label of the
    end node. *)
Definition direction : Type := (string * string * string)%type.

Definition clause_dirs (c : clause) (G : ctx) : list direction :=
  match c with
  | MERGE_rel a _ t b | CREATE_rel a t b =>
      match ctx_get a G, ctx_get b G with
      | Some (Some la), Some (Some lb) => [(la, t, lb)]
      | _, _ => []
      end
  | _ => []
  end.

(** The directions of the relationships a query can write, read off its
    clauses. *)
Fixpoint query_dirs (q : list clause) (G : ctx) : list direction :=
  match q with
  | [] => []
  | c :: q' => clause_dirs c G ++ query_dirs q' (ctx_step c G)
  end.

(** A relationship of the graph runs in one of the directions [D]. *)
Definition rel_typed (g : graph) (D : list direction) (r : rel) : Prop :=
  exists ls lt,
    label_at g (rsrc r) = Some ls /\ label_at g (rdst r) = Some lt /\
    In (ls, rtype r, lt) D.

(** The bindings of a record agree with the context, in the graph. *)
Definition binding_typed (g : graph) (b : string * ref)
                         (t : string * option string) : Prop :=
  fst b = fst t /\
  match snd b, snd t with
  | NodeRef i, Some l => label_at g i = Some l
  | RelRef _, None => True
  | _, _ => False
  end.

Definition env_typed (g : graph) (G : ctx) (e : env) : Prop :=
  Forall2 (binding_typed g) (evars e) G.

(** [g'] keeps what [g] has: the labels of its nodes, and the ends and the
    type of its relationships. *)
Definition keeps (g g' : graph) : Prop :=
  (forall i l, label_at g i = Some l -> label_at g' i = Some l) /\
  (forall i r, nth_error (rels g) i = Some r ->
     exists r', nth_error (rels g') i = Some r' /\
                rsrc r' = rsrc r /\ rtype r' = rtype r /\ rdst r' = rdst r).

Lemma keeps_refl g : keeps g g.
Proof. split; [auto|]. intros i r H. now exists r. Qed.

Lemma keeps_trans g1 g2 g3 : keeps g1 g2 -> keeps g2 g3 -> keeps g1 g3.
Proof.
  intros [L1 R1] [L2 R2]. split; [auto|].
  intros i r H. destruct (R1 i r H) as (r' & H' & A & T & Z).
  destruct (R2 i r' H') as (r2 & H2 & A2 & T2 & Z2).
  exists r2. repeat split; congruence.
Qed.

Lemma env_typed_keeps g g' G e :
  keeps g g' -> env_typed g G e -> env_typed g' G e.
Proof.
  intros [L _] H. unfold env_typed in *.
  induction H as [|b t bs ts [Hn Hb] _ IH]; constructor; [|exact IH].
  split; [exact Hn|].
  destruct (snd b), (snd t); try assumption. now apply L.
Qed.

Lemma rel_typed_keeps g g' D r r' :
  keeps g g' -> rsrc r' = rsrc r -> rtype r' = rtype r -> rdst r' = rdst r ->
  rel_typed g D r -> rel_typed g' D r'.
Proof.
  intros [L _] A T Z (ls & lt & H1 & H2 & H3).
  exists ls, lt. rewrite A, T, Z. auto.
Qed.

Lemma rel_typed_more g D D' r :
  rel_typed g D r -> rel_typed g (D ++ D') r /\ rel_typed g (D' ++ D) r.
Proof.
  intros (ls & lt & H1 & H2 & H3).
  split; exists ls, lt; repeat split; try assumption; apply in_or_app; auto.
Qed.

Lemma lookup_typed g G e x :
  env_typed g G e ->
  match lookup_var x (evars e) with
  | Some (NodeRef i) =>
      exists l, ctx_get x G = Some (Some l) /\ label_at g i = Some l
  | Some (RelRef _) => ctx_get x G = Some None
  | None => True
  end.
Proof.
  unfold env_typed. generalize (evars e) as vs. intros vs H.
  induction H as [|[y r] [y' t] bs ts [Hn Hb] _ IH]; simpl; [exact I|].
  simpl in Hn, Hb. subst y'.
  destruct (String.eqb x y); [|exact IH].
  destruct r as [i|i], t as [l|]; try contradiction; eauto.
Qed.

Lemma find_from_spec {A : Type} (p : A -> bool) (s : nat) (l : list A)
                     (i : nat) :
  In i (find_from p s l) ->
  s <= i /\ exists a, nth_error l (i - s) = Some a /\ p a = true.
Proof.
  revert s; induction l as [|a l IH]; intros s H; simpl in H; [contradiction|].
  destruct (p a) eqn:E.
  - destruct H as [<-|H].
    + split; [lia|]. exists a. now rewrite Nat.sub_diag.
    + destruct (IH (S s) H) as (Hs & a' & Hn & Hp). split; [lia|].
      exists a'. replace (i - s) with (S (i - S s)) by lia. now split.
  - destruct (IH (S s) H) as (Hs & a' & Hn & Hp). split; [lia|].
    exists a'. replace (i - s) with (S (i - S s)) by lia. now split.
Qed.

Lemma find_nodes_label l k v g i :
  In i (find_nodes l k v g) -> label_at g i = Some l.
Proof.
  intros H. apply find_from_spec in H. destruct H as (_ & n & Hn & Hp).
  rewrite Nat.sub_0_r in Hn. unfold label_at. rewrite Hn. simpl.
  unfold node_matches in Hp. apply andb_true_iff in Hp.
  destruct Hp as [Hp _]. apply String.eqb_eq in Hp. now rewrite Hp.
Qed.

Lemma nth_error_update_nth {A : Type} (f : A -> A) (i j : nat) (l : list A) :
  nth_error (update_nth i f l) j =
  if Nat.eqb j i then option_map f (nth_error l j) else nth_error l j.
Proof.
  revert i j; induction l as [|a l IH]; intros i j.
  - destruct i, j; simpl; try reflexivity; now destruct (Nat.eqb j i).
  - destruct i, j; simpl; try reflexivity. apply IH.
Qed.

Lemma keeps_add_node n g : keeps g (add_node n g).
Proof.
  split; [|intros i r H; now exists r].
  intros i l H. unfold label_at, add_node in *. simpl.
  destruct (nth_error (nodes g) i) eqn:E; [|discriminate].
  rewrite nth_error_app1; [now rewrite E|].
  apply nth_error_Some. congruence.
Qed.

Lemma keeps_add_rel r g : keeps g (add_rel r g).
Proof.
  split; [auto|]. intros i r0 H. exists r0. simpl.
  rewrite nth_error_app1; [auto|]. apply nth_error_Some. congruence.
Qed.

Lemma label_at_new n g :
  label_at (add_node n g) (length (nodes g)) = Some (nlabel n).
Proof.
  unfold label_at, add_node. simpl.
  rewrite nth_error_app2 by lia. now rewrite Nat.sub_diag.
Qed.

Lemma length_update_nth {A : Type} (f : A -> A) (i : nat) (l : list A) :
  length (update_nth i f l) = length l.
Proof.
  revert i; induction l as [|a l IH]; intros i; destruct i; simpl;
    try reflexivity. now rewrite IH.
Qed.

(** The relationships from position [n0] on run in the directions [D]. *)
Definition new_rels_typed (n0 : nat) (D : list direction) (g : graph)
  : Prop :=
  forall i r, n0 <= i -> nth_error (rels g) i = Some r -> rel_typed g D r.

Lemma new_rels_none g g' D :
  length (rels g') = length (rels g) ->
  new_rels_typed (length (rels g)) D g'.
Proof.
  intros H i r Hi Hn.
  assert (nth_error (rels g') i <> None) by congruence.
  apply nth_error_Some in H0. lia.
Qed.

Lemma env_typed_bind_node g G e x i l :
  env_typed g G e -> label_at g i = Some l ->
  env_typed g ((x, Some l) :: G) (bind_var x (NodeRef i) e).
Proof.
  intros H L. unfold env_typed, bind_var. simpl.
  constructor; [now split|exact H].
Qed.

Lemma env_typed_bind_rel g G e r i :
  env_typed g G e ->
  env_typed g (match r with Some x => (x, None) :: G | None => G end)
            (bind_opt r (RelRef i) e).
Proof.
  intros H. destruct r as [x|]; simpl; [|exact H].
  unfold env_typed, bind_var. simpl. constructor; [now split|exact H].
Qed.

Lemma env_typed_filter g G e (p : string -> bool) row :
  env_typed g G e ->
  env_typed g (filter (fun b => p (fst b)) G)
            (Env row (filter (fun b => p (fst b)) (evars e))).
Proof.
  unfold env_typed. simpl. generalize (evars e) as vs. intros vs H.
  induction H as [|b t bs ts Hb _ IH]; simpl; [constructor|].
  destruct Hb as [Hn Hb]. rewrite <- Hn.
  destruct (p (fst b)); [|exact IH].
  constructor; [now split|exact IH].
Qed.

Lemma new_rel_typed g D i t j la lb :
  label_at g i = Some la -> label_at g j = Some lb -> In (la, t, lb) D ->
  new_rels_typed (length (rels g)) D (add_rel (Rel i t j []) g).
Proof.
  intros Li Lj HD n r Hn Hr. simpl in Hr.
  rewrite nth_error_app2 in Hr by assumption.
  destruct (n - length (rels g)) as [|m]; simpl in Hr.
  - injection Hr as <-. exists la, lb. simpl. auto.
  - now destruct m.
Qed.

(** One clause on one well-typed record. *)
Lemma step_typed rows c g e G :
  env_typed g G e ->
  keeps g (fst (step rows c g e)) /\
  Forall (env_typed (fst (step rows c g e)) (ctx_step c G))
         (snd (step rows c g e)) /\
  new_rels_typed (length (rels g)) (clause_dirs c G) (fst (step rows c g e)).
Proof.
  intros He. destruct c; simpl.
  - (* UNWIND *)
    split; [apply keeps_refl|]. split; [|now apply new_rels_none].
    apply Forall_forall. intros e' H. apply in_map_iff in H.
    destruct H as (r & <- & _). exact He.
  - (* MERGE node *)
    destruct (find_nodes l k (row_get (erow e) f) g) as [|i ids] eqn:Ef;
      simpl.
    + split; [apply keeps_add_node|]. split; [|now apply new_rels_none].
      constructor; [|constructor].
      apply env_typed_bind_node; [|apply (label_at_new (Node l _))].
      apply env_typed_keeps with g; [apply keeps_add_node|exact He].
    + split; [apply keeps_refl|]. split; [|now apply new_rels_none].
      change (bind_var x (NodeRef i) e :: map _ ids)
        with (map (fun i0 => bind_var x (NodeRef i0) e) (i :: ids)).
      rewrite <- Ef. apply Forall_forall. intros e' H.
      apply in_map_iff in H. destruct H as (i' & <- & Hi).
      apply env_typed_bind_node; [exact He|].
      now apply find_nodes_label with k (row_get (erow e) f).
  - (* SET *)
    destruct (lookup_var x (evars e)) as [[i|i]|]; simpl.
    + assert (K : keeps g (Graph (update_nth i
                    (fun n => Node (nlabel n)
                                (set_props (erow e) ps (nprops n)))
                    (nodes g)) (rels g))).
      { split; [|intros j r H; now exists r].
        intros j l H. unfold label_at in *. simpl.
        rewrite nth_error_update_nth.
        destruct (Nat.eqb j i); [|exact H].
        now destruct (nth_error (nodes g) j). }
      split; [exact K|]. split; [|now apply new_rels_none].
      constructor; [|constructor]. now apply env_typed_keeps with g.
    + assert (K : keeps g (Graph (nodes g) (update_nth i
                    (fun r => Rel (rsrc r) (rtype r) (rdst r)
                                (set_props (erow e) ps (rprops r)))
                    (rels g)))).
      { split; [auto|]. intros j r H. simpl.
        rewrite nth_error_update_nth, H.
        destruct (Nat.eqb j i); simpl; eexists; split; try reflexivity;
          auto. }
      split; [exact K|]. split.
      * constructor; [|constructor]. now apply env_typed_keeps with g.
      * apply new_rels_none. simpl. apply length_update_nth.
    + split; [apply keeps_refl|]. split; [constructor|].
      now apply new_rels_none.
  - (* WITH *)
    split; [apply keeps_refl|]. split; [|now apply new_rels_none].
    constructor; [|constructor].
    apply (env_typed_filter g G e (fun y => existsb (String.eqb y) xs)).
    exact He.
  - (* MATCH *)
    split; [apply keeps_refl|]. split; [|now apply new_rels_none].
    apply Forall_forall. intros e' H. apply in_map_iff in H.
    destruct H as (i' & <- & Hi).
    apply env_typed_bind_node; [exact He|].
    now apply find_nodes_label with k (row_get (erow e) f).
  - (* MERGE relationship *)
    pose proof (lookup_typed g G e a He) as Ta.
    pose proof (lookup_typed g G e b He) as Tb.
    destruct (lookup_var a (evars e)) as [[i|i]|];
      try (split; [apply keeps_refl|]; split; [constructor|];
           now apply new_rels_none).
    destruct (lookup_var b (evars e)) as [[j|j]|];
      try (split; [apply keeps_refl|]; split; [constructor|];
           now apply new_rels_none).
    destruct Ta as (la & Ga & La). destruct Tb as (lb & Gb & Lb).
    rewrite Ga, Gb.
    destruct (find_rels i t j g) as [|id ids]; simpl.
    + split; [apply keeps_add_rel|]. split.
      * constructor; [|constructor]. apply env_typed_bind_rel.
        apply env_typed_keeps with g; [apply keeps_add_rel|exact He].
      * apply new_rel_typed with la lb; auto. now left.
    + split; [apply keeps_refl|]. split; [|now apply new_rels_none].
      constructor; [now apply env_typed_bind_rel|].
      apply Forall_forall. intros e' H. apply in_map_iff in H.
      destruct H as (i' & <- & _). now apply env_typed_bind_rel.
  - (* CREATE node *)
    split; [apply keeps_add_node|]. split; [|now apply new_rels_none].
    constructor; [|constructor].
    apply env_typed_bind_node; [|apply (label_at_new (Node l _))].
    apply env_typed_keeps with g; [apply keeps_add_node|exact He].
  - (* CREATE relationship *)
    pose proof (lookup_typed g G e a He) as Ta.
    pose proof (lookup_typed g G e b He) as Tb.
    destruct (lookup_var a (evars e)) as [[i|i]|];
      try (split; [apply keeps_refl|]; split; [constructor|];
           now apply new_rels_none).
    destruct (lookup_var b (evars e)) as [[j|j]|];
      try (split; [apply keeps_refl|]; split; [constructor|];
           now apply new_rels_none).
    destruct Ta as (la & Ga & La). destruct Tb as (lb & Gb & Lb).
    rewrite Ga, Gb. simpl.
    split; [apply keeps_add_rel|]. split.
    + constructor; [|constructor].
      apply env_typed_keeps with g; [apply keeps_add_rel|exact He].
    + apply new_rel_typed with la lb; auto. now left.
Qed.

Lemma new_rels_keep n0 D g g' :
  keeps g g' -> new_rels_typed n0 D g ->
  new_rels_typed (length (rels g)) D g' -> new_rels_typed n0 D g'.
Proof.
  intros K N1 N2 i r' Hi Hr.
  destruct (Nat.lt_ge_cases i (length (rels g))) as [Hlt|Hge].
  - destruct (nth_error (rels g) i) as [r|] eqn:E.
    + destruct K as [KL KR].
      destruct (KR i r E) as (r2 & H2 & A & T & Z).
      assert (r2 = r') by congruence. subst r2.
      apply rel_typed_keeps with g r; try assumption; [now split|].
      now apply (N1 i).
    + apply nth_error_None in E. lia.
  - now apply (N2 i).
Qed.

Lemma new_rels_weaken n0 D D' g :
  new_rels_typed n0 D g ->
  new_rels_typed n0 (D ++ D') g /\ new_rels_typed n0 (D' ++ D) g.
Proof.
  intros N. split; intros i r Hi Hr;
    now apply (rel_typed_more g D D' r (N i r Hi Hr)).
Qed.

Lemma run_clause_typed rows c g table G :
  Forall (env_typed g G) table ->
  keeps g (fst (run_clause rows c g table)) /\
  Forall (env_typed (fst (run_clause rows c g table)) (ctx_step c G))
         (snd (run_clause rows c g table)) /\
  new_rels_typed (length (rels g)) (clause_dirs c G)
                 (fst (run_clause rows c g table)).
Proof.
  revert g; induction table as [|e t IH]; intros g Ht; simpl.
  - split; [apply keeps_refl|]. split; [constructor|].
    now apply new_rels_none.
  - inversion Ht as [|? ? He Ht']; subst.
    destruct (step_typed rows c g e G He) as (K1 & E1 & N1).
    destruct (step rows c g e) as [g1 es]. simpl in K1, E1, N1.
    assert (Ht1 : Forall (env_typed g1 G) t).
    { apply Forall_forall. intros e' H. rewrite Forall_forall in Ht'.
      apply env_typed_keeps with g; auto. }
    destruct (IH g1 Ht1) as (K2 & E2 & N2).
    destruct (run_clause rows c g1 t) as [g2 es']. simpl in *.
    split; [now apply keeps_trans with g1|]. split.
    + apply Forall_app. split; [|exact E2].
      apply Forall_forall. intros e' H. rewrite Forall_forall in E1.
      apply env_typed_keeps with g1; auto.
    + now apply new_rels_keep with g1.
Qed.

Lemma run_clauses_typed rows q g table G :
  Forall (env_typed g G) table ->
  keeps g (fst (run_clauses rows q g table)) /\
  new_rels_typed (length (rels g)) (query_dirs q G)
                 (fst (run_clauses rows q g table)).
Proof.
  revert g table G; induction q as [|c q IH]; intros g table G Ht; simpl.
  - split; [apply keeps_refl|now apply new_rels_none].
  - destruct (run_clause_typed rows c g table G Ht) as (K1 & E1 & N1).
    destruct (run_clause rows c g table) as [g1 t1]. simpl in K1, E1, N1.
    destruct (IH g1 t1 (ctx_step c G) E1) as (K2 & N2).
    split; [now apply keeps_trans with g1|].
    apply new_rels_keep with g1; [exact K2| |].
    + exact (proj1 (new_rels_weaken _ _ _ _ N1)).
    + exact (proj2 (new_rels_weaken _ _ _ _ N2)).
Qed.

Lemma run_query_typed q rows g :
  keeps g (run_query q rows g) /\
  new_rels_typed (length (rels g)) (query_dirs q []) (run_query q rows g).
Proof.
  unfold run_query. apply run_clauses_typed.
  constructor; [constructor|constructor].
Qed.

Lemma run_chunks_typed q chs g :
  keeps g (CypherFacts.run_chunks q chs g) /\
  new_rels_typed (length (rels g)) (query_dirs q [])
                 (CypherFacts.run_chunks q chs g).
Proof.
  unfold CypherFacts.run_chunks.
  revert g; induction chs as [|ch chs IH]; intros g; simpl.
  - split; [apply keeps_refl|now apply new_rels_none].
  - destruct (run_query_typed q ch g) as (K1 & N1).
    destruct (IH (run_query q ch g)) as (K2 & N2).
    split; [now apply keeps_trans with (run_query q ch g)|].
    now apply new_rels_keep with (run_query q ch g).
Qed.

End CypherTyping.

(* ================================================================== *)
(** * How many nodes a load adds *)

Module CypherCounts.
Import CypherFacts.

(** Keys that are new and pairwise distinct add a node each. *)
Lemma merge_keys_fresh l vs kv :
  NoDup vs ->
  (forall v, In v vs -> existsb (entry_matches l v) kv = false) ->
  merge_keys l vs kv = kv ++ map (fun v => (l, Some v)) vs.
Proof.
  revert kv; induction vs as [|v vs IH]; intros kv Hnd Hf; simpl.
  - now rewrite app_nil_r.
  - inversion Hnd as [|? ? Hv Hnd']; subst.
    rewrite (Hf v) by now left.
    rewrite IH; [now rewrite <- app_assoc|exact Hnd'|].
    intros v' Hv'. rewrite existsb_app, (Hf v') by now right. simpl.
    unfold entry_matches. simpl. rewrite String.eqb_refl. simpl.
    rewrite orb_false_r.
    destruct (value_eqb v v') eqn:E; [|reflexivity].
    apply value_eqb_eq in E. subst v'. contradiction.
Qed.

Lemma no_label_no_match k l g v :
  count_label l g = 0 -> existsb (entry_matches l v) (kview k g) = false.
Proof.
  unfold count_label, kview. intros H.
  induction (nodes g) as [|n ns IH]; simpl in *; [reflexivity|].
  unfold entry_matches at 1. simpl.
  destruct (String.eqb (nlabel n) l); simpl in *; [discriminate|].
  now apply IH.
Qed.

(** The records of a table all come through a chain of matches that each
    find exactly one node. *)
Definition unique_matches (ms : list clause) (g : graph) (r : record)
  : bool :=
  forallb (fun c => match c with
                    | MATCH_node _ l k f =>
                        length (find_nodes l k (row_get r f) g) =? 1
                    | _ => false
                    end) ms.

Lemma run_clause_match_unique rows x l k f g table :
  (forall r, In r (map erow table) ->
             length (find_nodes l k (row_get r f) g) = 1) ->
  map erow (snd (run_clause rows (MATCH_node x l k f) g table))
  = map erow table.
Proof.
  intros H. rewrite run_clause_reads_snd by reflexivity.
  change (map erow
            (flat_map (fun e => map (fun i => bind_var x (NodeRef i) e)
                                  (find_nodes l k (row_get (erow e) f) g))
                      table) = map erow table).
  induction table as [|e t IH]; [reflexivity|].
  cbn [flat_map map]. rewrite map_app, IH by (intros r Hr; apply H; now right).
  assert (L : length (find_nodes l k (row_get (erow e) f) g) = 1)
    by (apply H; now left).
  destruct (find_nodes l k (row_get (erow e) f) g) as [|i [|j ids]];
    try discriminate. reflexivity.
Qed.

Lemma run_clauses_nil rows q g :
  snd (run_clauses rows q g []) = [].
Proof.
  revert g; induction q as [|c q IH]; intros g; simpl; [reflexivity|].
  apply IH.
Qed.

Lemma run_clauses_match_unique rows ms g table :
  (forall r, In r (map erow table) -> unique_matches ms g r = true) ->
  map erow (snd (run_clauses rows ms g table)) = map erow table.
Proof.
  revert table; induction ms as [|c ms IH]; intros table H.
  - reflexivity.
  - destruct table as [|e0 t0]; [now rewrite run_clauses_nil|].
    assert (Hc : exists x l k f, c = MATCH_node x l k f).
    { specialize (H (erow e0) (or_introl eq_refl)). simpl in H.
      destruct c; try discriminate. eauto. }
    destruct Hc as (x & l & k & f & ->).
    set (table := e0 :: t0) in *.
    assert (Hu : forall r, In r (map erow table) ->
                           length (find_nodes l k (row_get r f) g) = 1).
    { intros r Hr. specialize (H r Hr). simpl in H.
      apply andb_true_iff in H. destruct H as [H _].
      now apply Nat.eqb_eq in H. }
    pose proof (run_clause_reads rows (MATCH_node x l k f) g table eq_refl)
      as Hg.
    pose proof (run_clause_match_unique rows x l k f g table Hu) as Hr.
    cbn [run_clauses].
    destruct (run_clause rows (MATCH_node x l k f) g table) as [g1 t1].
    simpl in Hg, Hr. subst g1. rewrite IH; [exact Hr|].
    intros r Hin. rewrite Hr in Hin. specialize (H r Hin). simpl in H.
    now apply andb_true_iff in H.
Qed.

(** When every match of every row finds exactly one node, the records that
    reach the creation are the rows. *)
Lemma matched_unique ms rows g :
  (forall r, In r rows -> unique_matches ms g r = true) ->
  length (matched ms rows g) = length rows.
Proof.
  intros H. unfold matched. cbn [run_clauses].
  rewrite run_clause_unwind.
  set (t := map (fun r => Env r (evars (Env [] []))) rows).
  assert (Ht : map erow t = rows).
  { unfold t. rewrite map_map. simpl. apply map_id. }
  assert (E : map erow (snd (run_clauses rows ms g t)) = map erow t).
  { apply run_clauses_match_unique. rewrite Ht. exact H. }
  apply (f_equal (@length record)) in E.
  rewrite Ht, length_map in E. exact E.
Qed.

Lemma created_unique ms chs g :
  (forall ch r, In ch chs -> In r ch -> unique_matches ms g r = true) ->
  created ms chs g = length (concat chs).
Proof.
  unfold created. induction chs as [|ch chs IH]; intros H; simpl.
  - reflexivity.
  - rewrite length_app, IH by (intros c r Hc; apply H; now right).
    rewrite matched_unique; [reflexivity|].
    intros r Hr. apply (H ch r); [now left|exact Hr].
Qed.
End CypherCounts.

(* ================================================================== *)
(** * A small database *)

(** One row per table, with keys that refer to each other. *)
Definition tiny_tables : list (string * table_file) :=
  [ ("region.tbl", [[VInt 0; VStr "AFRICA"; VStr "special deposits"; NaN]]);
    ("nation.tbl",
     [[VInt 0; VStr "ALGERIA"; VInt 0; VStr "final accounts"; NaN]]);
    ("supplier.tbl",
     [[VInt 1; VStr "Supplier#000000001"; VStr "N kD4on9OM"; VInt 0;
       VStr "27-918-335-1736"; VFloat "5755.94"; VStr "each slyly"; NaN]]);
    ("customer.tbl",
     [[VInt 1; VStr "Customer#000000001"; VStr "IVhzIApeRb"; VInt 0;
       VStr "25-989-741-2988"; VFloat "711.56"; VStr "BUILDING";
       VStr "to the even"; NaN]]);
    ("part.tbl",
     [[VInt 1; VStr "goldenrod lavender"; VStr "Manufacturer#1";
       VStr "Brand#13"; VStr "PROMO BURNISHED COPPER"; VInt 7;
       VStr "JUMBO PKG"; VFloat "901.0"; VStr "ly. slyly"; NaN]]);
    ("partsupp.tbl",
     [[VInt 1; VInt 1; VInt 3325; VFloat "771.64"; VStr "even theodolites";
       NaN]]);
    ("orders.tbl",
     [[VInt 1; VInt 1; VStr "O"; VFloat "173665.47"; VStr "1996-01-02";
       VStr "5-LOW"; VStr "Clerk#000000951"; VInt 0; VStr "nstructions";
       NaN]]);
    ("lineitem.tbl",
     [[VInt 1; VInt 1; VInt 1; VInt 1; VInt 17; VFloat "21168.23";
       VFloat "0.04"; VFloat "0.02"; VStr "N"; VStr "O"; VStr "1996-03-13";
       VStr "1996-02-12"; VStr "1996-03-22"; VStr "DELIVER IN PERSON";
       VStr "TRUCK"; VStr "egular courts"; NaN]]) ].

Fixpoint lookup_file (path : string) (fs : list (string * table_file))
  : exn + table_file :=
  match fs with
  | [] => inl "FileNotFoundError"
  | (p, lines) :: fs' =>
      if String.eqb path p then inr lines else lookup_file path fs'
  end.

Definition tiny_files (path : string) : exn + table_file :=
  lookup_file path tiny_tables.

(** The Memgraph store once part and supplier of the small database are
    loaded. *)
Definition parts_and_suppliers : world Memgraph.call graph :=
  exec (Memgraph.aload_supplier Memgraph.store)
       (exec (Memgraph.aload_part Memgraph.store)
             (World tiny_files empty_graph [] [])).

(** Labels of the ends and type of every relationship of a graph. *)
Definition directions_of (g : graph) : list (option string * string * option string) :=
  map (fun r => (CypherTyping.label_at g (rsrc r), rtype r,
                 CypherTyping.label_at g (rdst r))) (rels g).

(* ================================================================== *)
(** * One vertex per row *)

Section Vertices.
Import ArangoRuns ArangoSteps CypherFacts CypherCounts.

(** The partsupp load of the Memgraph loader reads one row and adds no
    node: the store has its Part and Supplier nodes before and after, and
    one SUPPLIES relationship more. *)
Lemma memgraph_partsupp_adds_no_vertex :
  option_map (@length record)
    (frame_of tiny_files "partsupp.tbl"
              (MemgraphStore.columns_of partsupp)) = Some 1 /\
  map nlabel (nodes (conn parts_and_suppliers)) = ["Part"; "Supplier"] /\
  map nlabel (nodes (conn (exec (Memgraph.aload_partsupp Memgraph.store)
                                parts_and_suppliers)))
  = ["Part"; "Supplier"] /\
  length (rels (conn parts_and_suppliers)) = 0 /\
  length (rels (conn (exec (Memgraph.aload_partsupp Memgraph.store)
                           parts_and_suppliers))) = 1.
Proof.
  split; [vm_compute; reflexivity|].
  split; [vm_compute; reflexivity|].
  split; [vm_compute; reflexivity|].
  split; vm_compute; reflexivity.
Qed.

Lemma map_fst_kview k g : map fst (kview k g) = map nlabel (nodes g).
Proof. unfold kview. now rewrite map_map. Qed.

Lemma in_chunks {A : Type} (n : nat) (l : list A) ch r :
  0 < n -> In ch (chunks n l) -> In r ch -> In r l.
Proof.
  intros Hn Hc Hr. rewrite <- (concat_chunks n l Hn).
  apply in_concat. eauto.
Qed.

(** C6, amended.  In the ArangoDB loader each of the eight tables gives
    one vertex record per source row, in the order of the rows.  In the
    Memgraph loader the partsupp load adds no node whatever the store and
    the rows; a load of region, nation, supplier, customer, part or orders
    leaves a node of the table's label for the key of every row, and one
    node per row when the keys are pairwise distinct and the store held no
    node of that label; the lineitem load adds one LineItem node per row
    when the order, the part and the supplier of every row each match
    exactly one node. *)
Theorem vertex_per_row
    (B : Type) (ar : B -> Arango.call -> B * reply)
    (F : string -> exn + table_file) (t : table) (df : list record)
    (w : world Memgraph.call graph) (data : list record) :
  reliable ar ->
  frame_of F (path_of t) (columns_of t) = Some df ->
  frame_of (files w) (MemgraphStore.path_of t) (MemgraphStore.columns_of t)
  = Some data ->
  let g' := conn (exec (MemgraphStore.aload_of Memgraph.store t) w) in
  (exists cs,
     does ar F (aload_of ar t) cs tt /\
     concat (inserted (fst (vertex_of t)) cs) = map (snd (vertex_of t)) df)
  /\
  (t = partsupp -> map nlabel (nodes g') = map nlabel (nodes (conn w)))
  /\
  (forall l k, In (t, (l, k)) MemgraphStore.merged_tables ->
     (forall row, In row data ->
        existsb (node_matches l k (row_get row k)) (nodes g') = true) /\
     (NoDup (map (fun r => row_get r k) data) ->
      count_label l (conn w) = 0 ->
      count_label l g' = length data /\
      node_count g' = node_count (conn w) + length data))
  /\
  (t = lineitem ->
   (forall row, In row data ->
      unique_matches MemgraphStore.lineitem_matches (conn w) row = true) ->
   count_label "LineItem" g' = count_label "LineItem" (conn w) + length data
   /\ node_count g' = node_count (conn w) + length data).
Proof.
  intros R Hf Hm g'.
  assert (Eg : g' = run_chunks (MemgraphStore.query_of t) (chunks 1000 data)
                               (conn w)).
  { unfold g'. destruct (MemgraphStore.aload_of_store t w) as [_ ->].
    unfold MemgraphStore.loaded. now rewrite Hm. }
  split; [|split; [|split]].
  - exists (writes_of t df). split; [now apply does_aload_of|].
    destruct t; simpl; try (now rewrite app_nil_r).
    destruct (inserted_lineitem_batches (chunks 1000 df)) as (-> & _).
    rewrite <- concat_map. f_equal. apply concat_chunks. lia.
  - intros ->. rewrite <- !(map_fst_kview "partkey"). f_equal.
    rewrite Eg. now apply run_chunks_quiet.
  - intros l k Hin.
    assert (U : upserts l k k (MemgraphStore.query_of t) = true).
    { pose proof MemgraphStore.merged_tables_upsert as Hu.
      rewrite Forall_forall in Hu. apply (Hu _ Hin). }
    assert (Ek : kview k g' =
                 merge_keys l (map (fun r => row_get r k) data)
                            (kview k (conn w))).
    { rewrite Eg, (run_chunks_upserts l k k _ _ _ U).
      now rewrite concat_chunks by lia. }
    split.
    + intros row Hrow. rewrite existsb_kview, Ek.
      apply merge_keys_covers.
      now apply (in_map (fun r => row_get r k)).
    + intros Hnd H0.
      assert (Ek' : kview k g' =
                    kview k (conn w) ++
                    map (fun v => (l, Some v))
                        (map (fun r => row_get r k) data)).
      { rewrite Ek. apply merge_keys_fresh; [exact Hnd|].
        intros v _. now apply no_label_no_match. }
      split.
      * rewrite (count_label_kview k l g'), Ek', filter_app, length_app.
        rewrite <- (count_label_kview k l (conn w)), H0.
        rewrite map_map. simpl.
        clear. induction data as [|r data IH']; simpl; [reflexivity|].
        rewrite String.eqb_refl. simpl. f_equal.
        apply IH'.
      * rewrite (node_count_kview k g'), Ek', length_app, !length_map.
        now rewrite <- node_count_kview.
  - intros -> Hu.
    destruct MemgraphStore.query_lineitem_creates as [ps Cq].
    destruct (run_chunks_creates "LineItem" MemgraphStore.lineitem_matches
                ps Memgraph.query_lineitem (chunks 1000 data) (conn w)
                (conn w) Cq (grown_refl _ _)) as (news & N1 & N2 & N3).
    rewrite created_unique in N3.
    + rewrite concat_chunks in N3 by lia.
      simpl in Eg. unfold count_label, node_count.
      rewrite Eg, N1. split.
      * rewrite filter_app, length_app, (filter_all_label _ _ N2). lia.
      * rewrite length_app. lia.
    + intros ch r Hc Hr. apply Hu. apply (in_chunks 1000 data ch r); auto.
      lia.
Qed.
End Vertices.

Section VerticesWitness.
Import ArangoRuns ArangoSteps CypherFacts.

Definition tiny_world : world Memgraph.call graph :=
  World tiny_files empty_graph [] [].

Definition tiny_region_lines : table_file :=
  [[VInt 0; VStr "AFRICA"; VStr "special deposits"; NaN]].

Lemma vertex_per_row_witness :
  (exists cs,
     does mute tiny_files (Arango.aload_region mute) cs tt /\
     concat (inserted "region" cs) =
     map Arango.region_doc (rows_of columns_of region tiny_region_lines))
  /\
  count_label "Region"
    (conn (exec (Memgraph.aload_region Memgraph.store) tiny_world)) = 1.
Proof.
  pose proof (vertex_per_row unit mute tiny_files region
                (rows_of columns_of region tiny_region_lines)
                tiny_world
                (rows_of MemgraphStore.columns_of region tiny_region_lines)
                mute_reliable eq_refl eq_refl) as H.
  cbv zeta in H. destruct H as (H1 & _ & H3 & _).
  split; [exact H1|].
  destruct (H3 "Region" "regionkey" (or_introl eq_refl)) as (_ & H).
  destruct H as [H _].
  - repeat constructor. intros [].
  - reflexivity.
  - exact H.
Defined.
End VerticesWitness.

(* ================================================================== *)
(** * Edge directions *)

Section Directions.
Import ArangoRuns ArangoSteps CypherTyping.

(** Edge collection, start collection and end collection of the edge
    records of one row. *)
Definition arango_edges (t : table) (row : record)
  : list (string * string * string) :=
  map (fun e => (fst e,
                 endpoint_coll (row_get (snd e row) "_from"),
                 endpoint_coll (row_get (snd e row) "_to")))
      (edges_of t).

Definition arango_directions (t : table) : list (string * string * string) :=
  match t with
  | region | part => []
  | nation => [("nation_region", "nation", "region")]
  | supplier => [("supplier_nation", "supplier", "nation")]
  | customer => [("customer_nation", "customer", "nation")]
  | partsupp => [("partsupp_part", "partsupp", "part");
                 ("partsupp_supplier", "partsupp", "supplier")]
  | orders => [("customer_orders", "customer", "orders")]
  | lineitem => [("order_lineitems", "orders", "lineitem");
                 ("lineitem_part", "lineitem", "part");
                 ("lineitem_supplier", "lineitem", "supplier")]
  end.

Definition memgraph_directions (t : table) : list direction :=
  match t with
  | region | part => []
  | nation => [("Nation", "BELONGS_TO", "Region")]
  | supplier => [("Supplier", "LOCATED_IN", "Nation")]
  | customer => [("Customer", "LOCATED_IN", "Nation")]
  | partsupp => [("Supplier", "SUPPLIES", "Part")]
  | orders => [("Customer", "PLACED", "Order")]
  | lineitem => [("Order", "CONTAINS", "LineItem");
                 ("LineItem", "OF_PART", "Part");
                 ("LineItem", "SUPPLIED_BY", "Supplier")]
  end.

Definition tiny_partsupp_row : record :=
  combine (columns_of partsupp)
          [VInt 1; VInt 1; VInt 3325; VFloat "771.64"; VStr "even theodolites"].

(** The partsupp row of the small database becomes, in the Memgraph store,
    one relationship from the supplier to the part; in the ArangoDB loader
    it becomes two edges from the partsupp vertex, to the part and to the
    supplier. *)
Lemma memgraph_partsupp_is_supplier_to_part :
  directions_of (conn (exec (Memgraph.aload_partsupp Memgraph.store)
                            parts_and_suppliers))
  = [(Some "Supplier", "SUPPLIES", Some "Part")] /\
  arango_edges partsupp tiny_partsupp_row
  = [("partsupp_part", "partsupp", "part");
     ("partsupp_supplier", "partsupp", "supplier")].
Proof. split; vm_compute; reflexivity. Qed.

(** C7, amended.  In the ArangoDB loader the edge records of every row run
    nation to region, supplier to nation, customer to nation, customer to
    orders, orders to lineitem, lineitem to part, lineitem to supplier,
    partsupp to part and partsupp to supplier.  In the Memgraph loader
    every relationship a load adds runs Nation to Region, Supplier to
    Nation, Customer to Nation, Customer to Order, Order to LineItem,
    LineItem to Part or LineItem to Supplier, and for partsupp, which has
    no node there, Supplier to Part. *)
Theorem edge_directions (t : table) (row : record)
                        (w : world Memgraph.call graph) :
  arango_edges t row = arango_directions t
  /\
  let g' := conn (exec (MemgraphStore.aload_of Memgraph.store t) w) in
  forall i r,
    length (rels (conn w)) <= i -> nth_error (rels g') i = Some r ->
    exists ls lt,
      label_at g' (rsrc r) = Some ls /\ label_at g' (rdst r) = Some lt /\
      In (ls, rtype r, lt) (memgraph_directions t).
Proof.
  split; [destruct t; reflexivity|].
  intros g'.
  assert (N : new_rels_typed (length (rels (conn w)))
                (query_dirs (MemgraphStore.query_of t) []) g').
  { unfold g'. destruct (MemgraphStore.aload_of_store t w) as [_ ->].
    unfold MemgraphStore.loaded.
    destruct (frame_of _ _ _) as [data|].
    - apply run_chunks_typed.
    - now apply new_rels_none. }
  replace (memgraph_directions t)
    with (query_dirs (MemgraphStore.query_of t) [])
    by (destruct t; reflexivity).
  exact N.
Qed.

Lemma edge_directions_witness :
  arango_edges nation
    [("n_nationkey", VInt 0); ("n_name", VStr "ALGERIA");
     ("n_regionkey", VInt 0); ("n_comment", VStr "final accounts")]
  = [("nation_region", "nation", "region")]
  /\
  exists ls lt,
    label_at (conn (exec (Memgraph.aload_partsupp Memgraph.store)
                         parts_and_suppliers)) 1 = Some ls /\
    label_at (conn (exec (Memgraph.aload_partsupp Memgraph.store)
                         parts_and_suppliers)) 0 = Some lt /\
    In (ls, "SUPPLIES", lt) (memgraph_directions partsupp).
Proof.
  split.
  - exact (proj1 (edge_directions nation _ parts_and_suppliers)).
  - exact (proj2 (edge_directions partsupp [] parts_and_suppliers)
                 0 (Rel 1 "SUPPLIES" 0
                        [("availqty", VInt 3325);
                         ("supplycost", VFloat "771.64");
                         ("comment", VStr "even theodolites")])
                 (le_n 0) eq_refl).
Defined.
End Directions.

(* ================================================================== *)
(** * The loaders on the small database *)

Section Tiny.
Import CypherFacts.

(** 2500 rows in batches of 1000: two full batches and one of 500. *)
Example batches_of_2500 :
  map (@length nat) (chunks 1000 (seq 0 2500)) = [1000; 1000; 500].
Proof. vm_compute. reflexivity. Qed.

(** A whole run of the Memgraph loader: one node per table but partsupp,
    and the eight relationships of the one row of each table. *)
Example memgraph_run :
  snd (Memgraph.main Memgraph.store tiny_world) = inr tt /\
  map nlabel (nodes (conn (exec (Memgraph.main Memgraph.store) tiny_world)))
  = ["Region"; "Nation"; "Supplier"; "Customer"; "Part"; "Order";
     "LineItem"] /\
  directions_of (conn (exec (Memgraph.main Memgraph.store) tiny_world))
  = [ (Some "Nation", "BELONGS_TO", Some "Region");
      (Some "Supplier", "LOCATED_IN", Some "Nation");
      (Some "Customer", "LOCATED_IN", Some "Nation");
      (Some "Supplier", "SUPPLIES", Some "Part");
      (Some "Customer", "PLACED", Some "Order");
      (Some "Order", "CONTAINS", Some "LineItem");
      (Some "LineItem", "OF_PART", Some "Part");
      (Some "LineItem", "SUPPLIED_BY", Some "Supplier") ].
Proof.
  split; [vm_compute; reflexivity|].
  split; vm_compute; reflexivity.
Qed.

(** Loading again: the regions stay, the line items double. *)
Example memgraph_rerun :
  let w := exec (Memgraph.main Memgraph.store) tiny_world in
  node_count (conn w) = 7 /\
  node_count (conn (times 3 (Memgraph.aload_region Memgraph.store) w)) = 7 /\
  count_label "LineItem" (conn w) = 1 /\
  count_label "LineItem"
    (conn (times 2 (Memgraph.aload_lineitem Memgraph.store) w)) = 3.
Proof.
  cbv zeta. split; [vm_compute; reflexivity|].
  split; [vm_compute; reflexivity|].
  split; vm_compute; reflexivity.
Qed.

(** The writes of a whole run of the ArangoDB loader, by collection and
    number of records. *)
Example arango_run :
  snd (Arango.main mute (World tiny_files tt [] [])) = inr tt /\
  flat_map (fun c => match c with
                     | Arango.InsertMany coll docs => [(coll, length docs)]
                     | _ => []
                     end)
           (calls_of (trace (exec (Arango.main mute)
                                  (World tiny_files tt [] []))))
  = [ ("region", 1); ("nation", 1); ("nation_region", 1); ("supplier", 1);
      ("supplier_nation", 1); ("customer", 1); ("customer_nation", 1);
      ("part", 1); ("partsupp", 1); ("partsupp_part", 1);
      ("partsupp_supplier", 1); ("orders", 1); ("customer_orders", 1);
      ("lineitem", 1); ("order_lineitems", 1); ("lineitem_part", 1);
      ("lineitem_supplier", 1) ].
Proof. split; vm_compute; reflexivity. Qed.
End Tiny.

(* ================================================================== *)
(** * What a program never asks of the store *)

Section Only.
Variables (C B : Type).
Variable respond : B -> C -> B * reply.

(** The origins a program keeps to. *)
Variable allowed : origin C -> bool.

Local Abbreviation M := (M C B).

(** A run only appends events, and all of them come from allowed
    origins. *)
Definition only {A : Type} (m : M A) : Prop :=
  forall w, exists tr,
    trace (fst (m w)) = trace w ++ tr /\
    Forall (fun ev => allowed (fst ev) = true) tr.

Lemma only_ret {A : Type} (a : A) : only (ret a).
Proof. intros w. exists []. simpl. now rewrite app_nil_r. Qed.

Lemma only_print (s : string) : only (print s).
Proof. intros w. exists []. simpl. now rewrite app_nil_r. Qed.

Lemma only_bind {A X : Type} (m : M A) (k : A -> M X) :
  only m -> (forall a, only (k a)) -> only (bind m k).
Proof.
  intros Hm Hk w. unfold bind.
  destruct (Hm w) as (tr1 & T1 & O1).
  destruct (m w) as [w1 [e|a]]; simpl in *.
  - exists tr1. now split.
  - destruct (Hk a w1) as (tr2 & T2 & O2).
    exists (tr1 ++ tr2). split.
    + now rewrite T2, T1, app_assoc.
    + apply Forall_app. now split.
Qed.

Lemma only_request (c : C) :
  allowed (Store c) = true -> only (request respond c).
Proof.
  intros Hc w. unfold request.
  destruct (respond (conn w) c) as [b' [v|e]]; simpl;
    eexists [(Store c, _)]; (split; [reflexivity|]);
    repeat constructor; exact Hc.
Qed.

Lemma only_raise {A : Type} (what : string) (e : exn) :
  allowed (Python what) = true -> only (@raise C B A what e).
Proof.
  intros Hc w. exists [(Python what, Raise e)]. split; [reflexivity|].
  repeat constructor. exact Hc.
Qed.

Lemma only_read_csv (path : string) (n : nat) :
  allowed (Reader path n) = true -> only (@read_csv C B path n).
Proof.
  intros Hc w. unfold read_csv.
  destruct (files w path) as [e|lines]; [|destruct (forallb _ lines)];
    simpl; eexists [(Reader path n, _)]; (split; [reflexivity|]);
    repeat constructor; exact Hc.
Qed.

Lemma only_set_columns df names :
  allowed (Python "df.columns") = true -> only (@set_columns C B df names).
Proof.
  intros Hc. unfold set_columns.
  destruct (forallb _ df); [apply only_ret|now apply only_raise].
Qed.

Lemma only_floordiv a b :
  allowed (Python "//") = true -> only (@floordiv C B a b).
Proof.
  intros Hc. unfold floordiv.
  destruct (b =? 0)%Z; [now apply only_raise|apply only_ret].
Qed.

Lemma only_for {X : Type} (xs : list X) (f : X -> M unit) :
  (forall x, only (f x)) -> only (for_ xs f).
Proof.
  intros H. induction xs as [|x xs IH]; simpl.
  - apply only_ret.
  - apply only_bind; [apply H|intros _; exact IH].
Qed.

Lemma only_try {A : Type} (m : M A) (h : exn -> M A) :
  only m -> (forall e, only (h e)) -> only (try_except m h).
Proof.
  intros Hm Hh w. unfold try_except.
  destruct (Hm w) as (tr1 & T1 & O1).
  destruct (m w) as [w1 [e|a]]; simpl in *.
  - destruct (Hh e w1) as (tr2 & T2 & O2).
    exists (tr1 ++ tr2). split.
    + now rewrite T2, T1, app_assoc.
    + apply Forall_app. now split.
  - exists tr1. now split.
Qed.
End Only.

Arguments only {C B} allowed {A} m.

(** One step of a proof that a program keeps to its origins, by its
    head. *)
Ltac only_step :=
  match goal with
  | |- only _ (bind _ _) => apply only_bind; [|intros ?]
  | |- only _ (ret _) => apply only_ret
  | |- only _ (print _) => apply only_print
  | |- only _ (request _ _) => apply only_request; reflexivity
  | |- only _ (for_ _ _) => apply only_for; intros ?
  | |- only _ (try_except _ _) => apply only_try; [|intros ?]
  | |- only _ (read_csv _ _) => apply only_read_csv; reflexivity
  | |- only _ (set_columns _ _) => apply only_set_columns; reflexivity
  | |- only _ (floordiv _ _) => apply only_floordiv; reflexivity
  | |- only _ (raise _ _) => apply only_raise; reflexivity
  | |- only _ (if ?b then _ else _) => destruct b
  | |- only _ (match ?l with _ => _ end) => destruct l
  end.

Module Scope.

(** Reading a file and the interpreter's own errors touch no store. *)
Definition local {C : Type} (o : origin C) : bool :=
  match o with
  | Store _ => false
  | _ => true
  end.

(** The writes of the Memgraph load: a query with its rows, and a
    commit. *)
Definition memgraph_write (o : origin Memgraph.call) : bool :=
  match o with
  | Store (Memgraph.Execute (Query _) (Some _)) => true
  | Store Memgraph.Commit => true
  | o' => local o'
  end.

Definition arango_insert (o : origin Arango.call) : bool :=
  match o with
  | Store (Arango.InsertMany _ _) => true
  | o' => local o'
  end.

Definition arango_schema (o : origin Arango.call) : bool :=
  match o with
  | Store (Arango.HasCollection _) => true
  | Store (Arango.CreateCollection _ _) => true
  | Store (Arango.AddIndex _ _ _ _) => true
  | o' => local o'
  end.

Definition arango_removal (o : origin Arango.call) : bool :=
  match o with
  | Store (Arango.HasGraph _) => true
  | Store (Arango.DeleteGraph _ _) => true
  | Store (Arango.HasCollection _) => true
  | Store (Arango.DeleteCollection _) => true
  | o' => local o'
  end.

Definition arango_graph (o : origin Arango.call) : bool :=
  match o with
  | Store (Arango.HasGraph _) => true
  | Store (Arango.CreateGraph _) => true
  | Store (Arango.CreateEdgeDefinition _ _ _) => true
  | o' => local o'
  end.

Definition not_close (o : origin Memgraph.call) : bool :=
  match o with
  | Store Memgraph.Close => false
  | _ => true
  end.

Definition not_client_close (o : origin Arango.call) : bool :=
  match o with
  | Store Arango.ClientClose => false
  | _ => true
  end.

Section Loaders.
Variables B1 B2 : Type.
Variable mg : B1 -> Memgraph.call -> B1 * reply.
Variable ar : B2 -> Arango.call -> B2 * reply.

Lemma only_memgraph_aload (p : origin Memgraph.call -> bool) :
  (forall o, memgraph_write o = true -> p o = true) ->
  only p (Memgraph.aload mg).
Proof.
  intros H.
  unfold Memgraph.aload, Memgraph.aload_region, Memgraph.aload_nation,
    Memgraph.aload_supplier, Memgraph.aload_customer, Memgraph.aload_part,
    Memgraph.aload_partsupp, Memgraph.aload_orders, Memgraph.aload_lineitem,
    Memgraph.batch_load.
  cbv zeta.
  repeat first
    [ apply only_request; apply H; reflexivity
    | apply only_read_csv; apply H; reflexivity
    | apply only_set_columns; apply H; reflexivity
    | apply only_floordiv; apply H; reflexivity
    | only_step ].
Qed.

Lemma only_arango_aload (p : origin Arango.call -> bool) :
  (forall o, arango_insert o = true -> p o = true) ->
  only p (Arango.aload ar).
Proof.
  intros H.
  unfold Arango.aload, Arango.aload_region, Arango.aload_nation,
    Arango.aload_supplier, Arango.aload_customer, Arango.aload_part,
    Arango.aload_partsupp, Arango.aload_orders, Arango.aload_lineitem,
    Arango.lineitem_batches, Arango.insert_many.
  cbv zeta.
  repeat first
    [ apply only_request; apply H; reflexivity
    | apply only_read_csv; apply H; reflexivity
    | apply only_set_columns; apply H; reflexivity
    | apply only_floordiv; apply H; reflexivity
    | only_step ].
Qed.

Lemma only_asetup (p : origin Arango.call -> bool) :
  (forall o, arango_schema o = true -> p o = true) ->
  only p (Arango.asetup ar).
Proof.
  intros H.
  unfold Arango.asetup, Arango.ensure_collection, Arango.add_indices.
  cbv zeta.
  repeat first [apply only_request; apply H; reflexivity | only_step].
Qed.

Lemma only_aclear (p : origin Arango.call -> bool) :
  (forall o, arango_removal o = true -> p o = true) ->
  only p (Arango.aclear ar).
Proof.
  intros H. unfold Arango.aclear.
  repeat first [apply only_request; apply H; reflexivity | only_step].
Qed.

Lemma only_agraph (p : origin Arango.call -> bool) :
  (forall o, arango_graph o = true -> p o = true) ->
  only p (Arango.agraph ar).
Proof.
  intros H. unfold Arango.agraph.
  repeat first
    [ apply only_request; apply H; reflexivity
    | apply only_raise; apply H; reflexivity
    | only_step ].
Qed.

(** X1.  Each stage of the two loaders keeps to its own kind of store
    call, whatever the store answers.  The loads only write: the Memgraph
    load runs queries with rows and commits, the ArangoDB load calls
    [insert_many]; neither deletes anything or touches the schema.
    [asetup] only looks collections up, creates them and adds indices,
    [aclear] only looks up and deletes, and [agraph] only looks the graph
    up, creates it and defines its edges. *)
Theorem stages_keep_to_their_calls :
  only memgraph_write (Memgraph.aload mg) /\
  only arango_insert (Arango.aload ar) /\
  only arango_schema (Arango.asetup ar) /\
  only arango_removal (Arango.aclear ar) /\
  only arango_graph (Arango.agraph ar).
Proof.
  split; [now apply only_memgraph_aload|].
  split; [now apply only_arango_aload|].
  split; [now apply only_asetup|].
  split; [now apply only_aclear|now apply only_agraph].
Qed.
End Loaders.

End Scope.

(* ================================================================== *)
(** * Closing the connection *)

Section Closing.
Variables (C B : Type).
Variable respond : B -> C -> B * reply.
Variable close_call : C.
Variable before : origin C -> bool.

Local Abbreviation M := (M C B).

(** Either the run raises before it gets to closing, and then it never
    asks for it; or closing is the last thing it asks, once, and the run
    ends as the closing does. *)
Definition closes_last (m : M unit) : Prop :=
  forall w, exists tr,
    Forall (fun ev => before (fst ev) = true) tr /\
    ((trace (fst (m w)) = trace w ++ tr /\ exists e, snd (m w) = inl e) \/
     (exists r,
        trace (fst (m w)) = trace w ++ tr ++ [(Store close_call, r)] /\
        snd (m w) = match r with Ok _ => inr tt | Raise e => inl e end)).

Lemma closes_last_close :
  closes_last (bind (request respond close_call) (fun _ => ret tt)).
Proof.
  intros w. exists []. split; [constructor|]. right.
  unfold bind, request.
  destruct (respond (conn w) close_call) as [b' [v|e]]; simpl;
    eexists; split; reflexivity.
Qed.

Lemma closes_last_bind {A : Type} (m : M A) (k : M unit) :
  only before m -> closes_last k -> closes_last (bind m (fun _ => k)).
Proof.
  intros Hm Hk w. unfold bind.
  destruct (Hm w) as (tr1 & T1 & O1).
  destruct (m w) as [w1 [e|a]]; simpl in *.
  - exists tr1. split; [exact O1|]. left. split; [exact T1|now exists e].
  - destruct (Hk w1) as (tr2 & O2 & [[T2 E2]|(r & T2 & E2)]).
    + exists (tr1 ++ tr2). split; [apply Forall_app; now split|].
      left. split; [now rewrite T2, T1, app_assoc|exact E2].
    + exists (tr1 ++ tr2). split; [apply Forall_app; now split|].
      right. exists r. split; [|exact E2].
      now rewrite T2, T1, !app_assoc.
Qed.
End Closing.

Arguments closes_last {C B} close_call before m.

Section ClosingMains.
Import Scope.
Variables B1 B2 : Type.
Variable mg : B1 -> Memgraph.call -> B1 * reply.
Variable ar : B2 -> Arango.call -> B2 * reply.

Lemma memgraph_write_not_close o :
  memgraph_write o = true -> not_close o = true.
Proof. destruct o as [[]| |]; simpl; intros H; try reflexivity; exact H. Qed.

Lemma arango_stage_not_close o :
  arango_insert o = true \/ arango_schema o = true \/
  arango_removal o = true \/ arango_graph o = true ->
  not_client_close o = true.
Proof.
  destruct o as [[]| |]; simpl; intros H; try reflexivity.
  destruct H as [H|[H|[H|H]]]; exact H.
Qed.

(** X2.  Neither [main] closes its connection on failure: the connection
    is closed only as the very last call, after every stage before it has
    returned.  A run that raises earlier never asks the store to close,
    and a run that closes ends as the closing call does. *)
Theorem connection_closed_only_at_the_end :
  closes_last Memgraph.Close not_close (Memgraph.main mg) /\
  closes_last Arango.ClientClose not_client_close (Arango.main ar).
Proof.
  split.
  - unfold Memgraph.main.
    apply closes_last_bind;
      [unfold Memgraph.connect; repeat only_step|].
    apply closes_last_bind;
      [unfold Memgraph.clear; repeat only_step|].
    apply closes_last_bind.
    { unfold Memgraph.setup, Memgraph.setup_indices. repeat only_step. }
    apply closes_last_bind.
    { apply only_memgraph_aload. apply memgraph_write_not_close. }
    apply closes_last_close.
  - unfold Arango.main.
    apply closes_last_bind;
      [unfold Arango.aconnect; repeat only_step|].
    apply closes_last_bind.
    { apply only_aclear. intros o H. apply arango_stage_not_close. auto. }
    apply closes_last_bind.
    { apply only_asetup. intros o H. apply arango_stage_not_close. auto. }
    apply closes_last_bind.
    { apply only_arango_aload. intros o H. apply arango_stage_not_close.
      auto. }
    apply closes_last_bind.
    { apply only_agraph. intros o H. apply arango_stage_not_close. auto. }
    apply closes_last_close.
Qed.
End ClosingMains.

(* ================================================================== *)
(** * Batches when a write fails, and batch sizes that are not positive *)

Section Prefix.
Variables (C B : Type).
Variable respond : B -> C -> B * reply.

Local Abbreviation M := (M C B).

(** The store calls of a run are the calls [cs] up to some point, in
    order, and all of them if the run returns. *)
Definition prefix_calls {A : Type} (cs : list C) (m : M A) : Prop :=
  forall w, exists p rest,
    cs = p ++ rest /\
    calls_of (trace (fst (m w))) = calls_of (trace w) ++ p /\
    (forall a, snd (m w) = inr a -> rest = []).

Lemma prefix_ret {A : Type} (a : A) : prefix_calls [] (ret a).
Proof.
  intros w. exists [], []. simpl. rewrite app_nil_r. auto.
Qed.

Lemma prefix_print (s : string) : prefix_calls [] (print s).
Proof.
  intros w. exists [], []. simpl. rewrite app_nil_r. auto.
Qed.

Lemma prefix_floordiv a b : prefix_calls [] (@floordiv C B a b).
Proof.
  intros w. exists [], []. unfold floordiv, raise, ret.
  destruct (b =? 0)%Z; simpl; rewrite ?calls_of_app; simpl;
    rewrite app_nil_r; auto.
Qed.

Lemma prefix_request (c : C) : prefix_calls [c] (request respond c).
Proof.
  intros w. exists [c], []. unfold request.
  destruct (respond (conn w) c) as [b' [v|e]]; simpl;
    rewrite calls_of_app; simpl; auto.
Qed.

Lemma prefix_bind {A X : Type} (m : M A) (k : A -> M X) cs cs' :
  prefix_calls cs m -> (forall a, prefix_calls cs' (k a)) ->
  prefix_calls (cs ++ cs') (bind m k).
Proof.
  intros Hm Hk w. unfold bind.
  destruct (Hm w) as (p1 & r1 & E1 & T1 & F1).
  destruct (m w) as [w1 [e|a]]; simpl in *.
  - exists p1, (r1 ++ cs'). rewrite E1, <- app_assoc.
    split; [reflexivity|]. split; [exact T1|]. discriminate.
  - specialize (F1 a eq_refl). subst r1. rewrite app_nil_r in E1. subst p1.
    destruct (Hk a w1) as (p2 & r2 & E2 & T2 & F2).
    exists (cs ++ p2), r2. rewrite E2, <- app_assoc.
    split; [reflexivity|]. split; [|exact F2].
    now rewrite T2, T1, app_assoc.
Qed.

Lemma prefix_for {X : Type} (xs : list X) (f : X -> M unit)
                 (g : X -> list C) :
  (forall x, prefix_calls (g x) (f x)) ->
  prefix_calls (flat_map g xs) (for_ xs f).
Proof.
  intros H. induction xs as [|x xs IH]; simpl.
  - apply prefix_ret.
  - apply prefix_bind; [apply H|intros _; exact IH].
Qed.
End Prefix.

Arguments prefix_calls {C B A} cs m.

(** No error is to be survived. *)
Definition none {C : Type} (o : origin C) : bool := false.

Section BatchFailure.
Import Memgraph MemgraphRuns.
Variable B : Type.
Variable mg : B -> call -> B * reply.

(** X3.  Whatever the store answers, [batch_load] with a positive batch
    size sends the chunks strictly in order, an [execute] and a [commit]
    for each, and stops at the first call that raises: that error is its
    result and nothing is sent after it.  The chunks before the failing
    one have been committed and stay so; there is no rollback and no
    retry. *)
Theorem batch_load_stops_at_first_error
    (query : list clause) (data : list record) (table_name : string)
    (N : Z) :
  (0 < N)%Z ->
  prefix_calls (batch_calls query (Z.to_nat N) data)
               (batch_load mg query data table_name N) /\
  sound none (batch_load mg query data table_name N).
Proof.
  intros HN. split.
  - unfold batch_load, batch_calls.
    rewrite <- (batches_chunks data N HN), flat_map_map.
    change (flat_map ?g ?l) with ([] ++ flat_map g l).
    apply prefix_bind; [apply prefix_floordiv|intros tb].
    apply prefix_for. intros i.
    change [Execute (Query query) (Some (py_slice data i (i + N))); Commit]
      with ([Execute (Query query) (Some (py_slice data i (i + N)))]
            ++ [Commit] ++ []).
    apply prefix_bind; [apply prefix_request|intros _].
    apply prefix_bind; [apply prefix_request|intros _].
    apply prefix_print.
  - unfold batch_load. cbv zeta. repeat sound_step.
Qed.

(** X4.  A batch size that is not positive writes nothing: with 0,
    [batch_load] raises [ZeroDivisionError] before any call; with a
    negative size it returns without a single call, so the table is
    silently not loaded. *)
Theorem batch_load_without_batches
    (query : list clause) (data : list record) (table_name : string)
    (N : Z) (w : world call B) :
  (N <= 0)%Z ->
  calls_of (trace (fst (batch_load mg query data table_name N w)))
  = calls_of (trace w) /\
  conn (fst (batch_load mg query data table_name N w)) = conn w /\
  (N = 0%Z ->
   snd (batch_load mg query data table_name N w)
   = inl "ZeroDivisionError: integer division or modulo by zero") /\
  ((N < 0)%Z -> snd (batch_load mg query data table_name N w) = inr tt).
Proof.
  intros HN. unfold batch_load, bind, floordiv.
  destruct (Z.eqb_spec N 0) as [->|Hz].
  - simpl. rewrite calls_of_app. simpl. rewrite app_nil_r.
    repeat split; auto. lia.
  - assert (E : py_range 0 (Z.of_nat (length data)) N = []).
    { unfold py_range, range_len.
      destruct (Z.ltb_spec 0 N); [lia|].
      destruct (Z.ltb_spec N 0); [|lia].
      destruct (Z.ltb_spec (Z.of_nat (length data)) 0); [lia|].
      reflexivity. }
    simpl. rewrite E. simpl. repeat split; auto. contradiction.
Qed.

End BatchFailure.

(** A store that takes two calls and fails from the third on. *)
Definition fails_after_two (b : nat) (c : Memgraph.call) : nat * reply :=
  (S b, if b <? 2 then Ok RNone else Raise "Connection lost").

Lemma batch_load_stops_at_first_error_witness :
  prefix_calls (MemgraphRuns.batch_calls Memgraph.query_region 2 five_rows)
               (Memgraph.batch_load fails_after_two Memgraph.query_region
                                    five_rows "Region" 2) /\
  sound none (Memgraph.batch_load fails_after_two Memgraph.query_region
                                  five_rows "Region" 2).
Proof.
  apply (batch_load_stops_at_first_error nat fails_after_two
           Memgraph.query_region five_rows "Region" 2%Z).
  lia.
Defined.

(** The second chunk of five rows in twos is refused: the first chunk is
    committed, the third is never sent. *)
Example second_chunk_refused :
  let r := Memgraph.batch_load fails_after_two Memgraph.query_region
             five_rows "Region" 2 (World no_files 0 [] []) in
  snd r = inl "Connection lost" /\
  executed (calls_of (trace (fst r))) = firstn 2 (chunks 2 five_rows) /\
  calls_of (trace (fst r))
  = firstn 3 (MemgraphRuns.batch_calls Memgraph.query_region 2 five_rows).
Proof. cbv zeta. repeat split; vm_compute; reflexivity. Qed.

Lemma batch_load_without_batches_witness :
  snd (Memgraph.batch_load fails_after_two Memgraph.query_region five_rows
         "Region" (-3) (World no_files 0 [] [])) = inr tt /\
  calls_of (trace (fst (Memgraph.batch_load fails_after_two
                          Memgraph.query_region five_rows "Region" (-3)
                          (World no_files 0 [] [])))) = [].
Proof.
  destruct (batch_load_without_batches nat fails_after_two
              Memgraph.query_region five_rows "Region"
              (-3)%Z (World no_files 0 [] [])) as (H1 & _ & _ & H2);
    [lia|].
  split; [apply H2; lia|exact H1].
Defined.

(* ================================================================== *)
(** * A table that cannot be read *)

Section Halts.
Variables (C B : Type).
Variable respond : B -> C -> B * reply.
Variable F : string -> exn + table_file.

Local Abbreviation M := (M C B).

(** With the files [F], [m] raises after exactly the store calls [cs]. *)
Definition halts {A : Type} (m : M A) (cs : list C) : Prop :=
  forall w, files w = F ->
    exists w' e, m w = (w', inl e) /\ files w' = F /\
                 conn w' = play respond cs (conn w) /\
                 calls_of (trace w') = calls_of (trace w) ++ cs.

Lemma halts_bind_l {A X : Type} (m : M A) (k : A -> M X) cs :
  halts m cs -> halts (bind m k) cs.
Proof.
  intros H w Hw. destruct (H w Hw) as (w' & e & E & R).
  exists w', e. unfold bind. now rewrite E.
Qed.

Lemma halts_bind_r {A X : Type} (m : M A) (k : A -> M X) cs cs' a :
  does respond F m cs a -> halts (k a) cs' -> halts (bind m k) (cs ++ cs').
Proof.
  intros Hm Hk w Hw.
  destruct (Hm w Hw) as (w1 & E1 & F1 & C1 & T1).
  destruct (Hk w1 F1) as (w2 & e & E2 & F2 & C2 & T2).
  exists w2, e. unfold bind. rewrite E1, E2.
  repeat split; try assumption.
  - now rewrite C2, C1, play_app.
  - now rewrite T2, T1, app_assoc.
Qed.
End Halts.

Arguments halts {C B} respond F {A} m cs.

Section Unreadable.
Import ArangoSteps.
Variables B1 B2 : Type.
Variable mg : B1 -> Memgraph.call -> B1 * reply.
Variable ar : B2 -> Arango.call -> B2 * reply.
Hypothesis Rm : reliable mg.
Hypothesis Ra : reliable ar.
Variable F : string -> exn + table_file.
Variables mrows arows : table -> list record.

(** The tables before [t] in the load order. *)
Definition tables_before (t : table) : list table :=
  firstn (table_index t) load_order.

Lemma halts_memgraph_step t :
  frame_of F (MemgraphStore.path_of t) (MemgraphStore.columns_of t) = None ->
  halts mg F (MemgraphStore.aload_of mg t) [].
Proof.
  intros H w Hw. rewrite MemgraphStore.aload_of_load_table.
  destruct (MemgraphRuns.load_table_fails B1 mg F _ _
              (MemgraphStore.query_of t) (MemgraphStore.name_of t) H w Hw)
    as (w' & e & E & Fs & Cn & Tr).
  exists w', e. rewrite app_nil_r. auto.
Qed.

Lemma halts_arango_step t :
  frame_of F (ArangoRuns.path_of t) (ArangoRuns.columns_of t) = None ->
  halts ar F (ArangoRuns.aload_of ar t) [].
Proof.
  intros H w Hw. rewrite <- Hw in H.
  destruct (ArangoRuns.aload_of_fails B2 ar t w H)
    as (w' & e & E & Fs & Cn & Tr).
  exists w', e. rewrite app_nil_r. rewrite <- Hw. auto.
Qed.

End Unreadable.


(* ================================================================== *)
(** * Strings: pieces, separators and printed integers *)

From Stdlib Require DecimalZ.

Fixpoint count_char (c : ascii) (s : string) : nat :=
  match s with
  | EmptyString => 0
  | String c' s' => (if Ascii.eqb c' c then 1 else 0) + count_char c s'
  end.

Lemma split_on_cons (sep : ascii) (s : string) :
  exists w ws, split_on sep s = w :: ws.
Proof.
  induction s as [|c s (w & ws & IH)]; simpl; [eauto|].
  destruct (Ascii.eqb c sep); [eauto|]. rewrite IH. eauto.
Qed.

(** [sep.join(s.split(sep))] is [s], a string with [n] separators has
    [n + 1] pieces, and no piece holds a separator. *)
Lemma split_on_join (sep : ascii) (s : string) :
  String.concat (String sep "") (split_on sep s) = s /\
  length (split_on sep s) = S (count_char sep s) /\
  Forall (fun p => count_char sep p = 0) (split_on sep s).
Proof.
  induction s as [|c s IH].
  - simpl. repeat split. repeat constructor.
  - destruct IH as (IH1 & IH2 & IH3).
    destruct (split_on_cons sep s) as (w & ws & Hs).
    cbn [split_on count_char]. destruct (Ascii.eqb c sep) eqn:E.
    + apply Ascii.eqb_eq in E. subst c.
      split; [|split].
      * rewrite Hs.
        change (String.concat (String sep "") (""%string :: w :: ws))
          with (String sep (String.concat (String sep "") (w :: ws))).
        now rewrite <- Hs, IH1.
      * cbn [length]. now rewrite IH2.
      * constructor; [reflexivity|exact IH3].
    + rewrite Hs in *. split; [|split].
      * rewrite <- IH1. now destruct ws.
      * exact IH2.
      * inversion IH3 as [|? ? Hw Hws]; subst.
        constructor; [|exact Hws]. cbn [count_char]. now rewrite E.
Qed.

Lemma append_sep_inj (sep : ascii) (s1 s2 t1 t2 : string) :
  count_char sep s1 = 0 -> count_char sep s2 = 0 ->
  (s1 ++ String sep t1)%string = (s2 ++ String sep t2)%string ->
  s1 = s2 /\ t1 = t2.
Proof.
  revert s2; induction s1 as [|c s1 IH]; intros [|c2 s2] H1 H2 E;
    simpl in *.
  - injection E as <-. auto.
  - injection E as <- _. rewrite Ascii.eqb_refl in H2. discriminate.
  - injection E as -> _. rewrite Ascii.eqb_refl in H1. discriminate.
  - injection E as <- E.
    destruct (Ascii.eqb c sep); [discriminate|]. simpl in *.
    destruct (IH s2 H1 H2 E) as [-> ->]. auto.
Qed.

Lemma digits_no_underscore (d : Decimal.uint) :
  count_char "_" (NilEmpty.string_of_uint d) = 0.
Proof. induction d; simpl; assumption || reflexivity. Qed.

Lemma showZ_no_underscore (z : Z) : count_char "_" (showZ z) = 0.
Proof.
  unfold showZ, NilZero.string_of_int, NilZero.string_of_uint.
  destruct (Z.to_int z) as [d|d]; destruct d; simpl;
    try reflexivity; apply digits_no_underscore.
Qed.

Lemma to_int_not_nil (z : Z) :
  Z.to_int z <> Decimal.Pos Decimal.Nil /\
  Z.to_int z <> Decimal.Neg Decimal.Nil.
Proof.
  split; intros H;
    pose proof (DecimalZ.of_to z) as E; rewrite H in E; simpl in E;
    subst z; discriminate H.
Qed.

Lemma showZ_inj (a b : Z) : showZ a = showZ b -> a = b.
Proof.
  unfold showZ. intros H.
  destruct (to_int_not_nil a) as [A1 A2].
  destruct (to_int_not_nil b) as [B1 B2].
  pose proof (NilZero.isi (Z.to_int a) A1 A2) as Ia.
  pose proof (NilZero.isi (Z.to_int b) B1 B2) as Ib.
  rewrite H in Ia. rewrite Ia in Ib. injection Ib as Ib.
  now apply DecimalZ.to_int_inj.
Qed.

(* ================================================================== *)
(** * Identity keys of integer keys *)

Section KeyCollisions.
Import Arango.

(** X6.  On rows whose key fields are integers the composite keys are
    faithful: two partsupp rows with the same [_key] have the same
    [ps_partkey] and [ps_suppkey], two lineitem rows with the same [_key]
    the same [l_orderkey] and [l_linenumber], and a single key determines
    its integer.  Nothing checks the fields for the separator, though:
    there are rows with different string key fields and the same key. *)
Theorem composite_keys_faithful_on_integers
    (row row' : record) (a b a' b' : Z) :
  (row_get row "ps_partkey" = VInt a ->
   row_get row "ps_suppkey" = VInt b ->
   row_get row' "ps_partkey" = VInt a' ->
   row_get row' "ps_suppkey" = VInt b' ->
   partsupp_key row = partsupp_key row' -> a = a' /\ b = b')
  /\
  (row_get row "l_orderkey" = VInt a ->
   row_get row "l_linenumber" = VInt b ->
   row_get row' "l_orderkey" = VInt a' ->
   row_get row' "l_linenumber" = VInt b' ->
   lineitem_key row = lineitem_key row' -> a = a' /\ b = b')
  /\
  (str (VInt a) = str (VInt a') -> a = a')
  /\
  (exists r r',
     (row_get r "ps_partkey", row_get r "ps_suppkey")
     <> (row_get r' "ps_partkey", row_get r' "ps_suppkey") /\
     partsupp_key r = partsupp_key r').
Proof.
  assert (K : (showZ a ++ "_" ++ showZ b)%string
              = (showZ a' ++ "_" ++ showZ b')%string -> a = a' /\ b = b').
  { intros E.
    destruct (append_sep_inj "_" (showZ a) (showZ a') (showZ b) (showZ b'))
      as [Ea Eb]; try apply showZ_no_underscore; [exact E|].
    split; now apply showZ_inj. }
  split; [|split; [|split]].
  - intros H1 H2 H3 H4. unfold partsupp_key. rewrite H1, H2, H3, H4.
    exact K.
  - intros H1 H2 H3 H4. unfold lineitem_key. rewrite H1, H2, H3, H4.
    exact K.
  - simpl. apply showZ_inj.
  - exists [("ps_partkey", VStr "1_2"); ("ps_suppkey", VStr "3")],
           [("ps_partkey", VStr "1"); ("ps_suppkey", VStr "2_3")].
    split; [discriminate|reflexivity].
Qed.

Lemma composite_keys_faithful_on_integers_witness :
  partsupp_key [("ps_partkey", VInt 12); ("ps_suppkey", VInt 3)]
  = partsupp_key [("ps_suppkey", VInt 3); ("ps_partkey", VInt 12)] /\
  (12%Z = 12%Z /\ 3%Z = 3%Z).
Proof.
  split; [reflexivity|].
  apply (proj1 (composite_keys_faithful_on_integers
                  [("ps_partkey", VInt 12); ("ps_suppkey", VInt 3)]
                  [("ps_suppkey", VInt 3); ("ps_partkey", VInt 12)]
                  12 3 12 3)); reflexivity.
Defined.
End KeyCollisions.

(* ================================================================== *)
(** * The ArangoDB schema: collections, the graph and its edges *)

Section Answers.
Variables (C B : Type).
Variable respond : B -> C -> B * reply.
Variable F : string -> exn + table_file.

(** A call whose answer decides what comes next. *)
Lemma does_request_bind {X : Type} (c : C) (k : rvalue -> M C B X) cs x :
  (forall b, exists b' v,
     respond b c = (b', Ok v) /\ does respond F (k v) cs x) ->
  does respond F (bind (request respond c) k) (c :: cs) x.
Proof.
  intros H w Hw. unfold bind, request.
  destruct (H (conn w)) as (b' & v & E & Hk). rewrite E.
  match goal with
  | |- context [k v ?w0] => destruct (Hk w0 Hw) as (w1 & E1 & F1 & C1 & T1)
  end.
  exists w1. split; [exact E1|]. split; [exact F1|].
  simpl in C1, T1. rewrite calls_of_app in T1. simpl in T1.
  split.
  - rewrite C1. simpl. now rewrite E.
  - rewrite T1. now rewrite <- app_assoc.
Qed.
End Answers.

Module ArangoGraph.
Import Arango ArangoSteps.

(** The edge definition [agraph] derives from the name of an edge
    collection. *)
Definition edge_definition (coll : string) : option call :=
  match split_on "_"%char coll with
  | [_from; _to] => Some (CreateEdgeDefinition coll [_from] [_to])
  | _ => None
  end.

Definition edge_definitions : list call :=
  flat_map (fun coll => match edge_definition coll with
                        | Some d => [d]
                        | None => []
                        end) EDGES.

Section Graph.
Variable B : Type.
Variable ar : B -> call -> B * reply.
Hypothesis R : reliable ar.
Variable F : string -> exn + table_file.

Lemma does_edge_definitions (xs : list string) :
  Forall (fun coll => edge_definition coll <> None) xs ->
  does ar F
    (for_ xs (fun coll =>
       match split_on "_"%char coll with
       | [_from; _to] =>
           bind (request ar (CreateEdgeDefinition coll [_from] [_to]))
                (fun _ => ret tt)
       | _ => raise "unpack" "ValueError: not enough values to unpack"
       end))
    (flat_map (fun coll => match edge_definition coll with
                           | Some d => [d]
                           | None => []
                           end) xs) tt.
Proof.
  intros H. apply does_for. intros coll Hin.
  rewrite Forall_forall in H. specialize (H coll Hin).
  unfold edge_definition in *.
  destruct (split_on "_"%char coll) as [|f [|t [|u l]]];
    try (now contradiction H).
  apply does_request; [exact R|apply does_ret].
Qed.

(** X7.  [agraph] asks whether the graph exists.  If it does, it does
    nothing else.  If it does not, it creates the graph and then one edge
    definition per edge collection, in the order of [EDGES], between the
    two halves of the collection's name.  For eight of the nine edge
    collections these halves are the collections the edge records point
    from and to; [order_lineitems] is declared between [order] and
    [lineitems], while its records run from [orders/...] to
    [lineitem/...], and neither [order] nor [lineitems] is a collection of
    the loader. *)
Theorem agraph_defines_edges_by_name :
  ((forall b, exists b' v,
      ar b (HasGraph graph_name) = (b', Ok v) /\ truthy v = true) ->
   does ar F (agraph ar) [HasGraph graph_name] tt)
  /\
  ((forall b, exists b' v,
      ar b (HasGraph graph_name) = (b', Ok v) /\ truthy v = false) ->
   does ar F (agraph ar)
        (HasGraph graph_name :: CreateGraph graph_name :: edge_definitions)
        tt)
  /\
  map Some edge_definitions = map edge_definition EDGES
  /\
  (forall t e row, In e (edges_of t) ->
     exists f to,
       edge_definition (fst e)
       = Some (CreateEdgeDefinition (fst e) [f] [to]) /\
       fst e = (f ++ "_" ++ to)%string /\
       (fst e <> "order_lineitems" ->
        f = endpoint_coll (row_get (snd e row) "_from") /\
        to = endpoint_coll (row_get (snd e row) "_to")) /\
       (fst e = "order_lineitems" ->
        f = "order" /\ to = "lineitems" /\
        endpoint_coll (row_get (snd e row) "_from") = "orders" /\
        endpoint_coll (row_get (snd e row) "_to") = "lineitem" /\
        existsb (String.eqb f) VERTICES = false /\
        existsb (String.eqb to) VERTICES = false)).
Proof.
  split; [|split; [|split]].
  - intros H. unfold agraph. apply does_request_bind.
    intros b. destruct (H b) as (b' & v & E & Tv).
    exists b', v. split; [exact E|]. rewrite Tv. cbn [negb].
    apply does_ret.
  - intros H. unfold agraph. apply does_request_bind.
    intros b. destruct (H b) as (b' & v & E & Tv).
    exists b', v. split; [exact E|]. rewrite Tv. cbn [negb].
    apply does_request; [exact R|].
    assert (D : Forall (fun coll => edge_definition coll <> None) EDGES)
      by (repeat constructor; discriminate).
    exact (does_edge_definitions EDGES D).
  - reflexivity.
  - intros t e row He.
    destruct t; simpl in He; repeat destruct He as [<-|He];
      try contradiction; simpl;
      eexists; eexists; (split; [reflexivity|]);
      (split; [reflexivity|]);
      (split; [intros Hn;
               first [split; reflexivity | exfalso; apply Hn; reflexivity]
              |intros Hn; try discriminate Hn; repeat split]).
Qed.
End Graph.

End ArangoGraph.

Lemma agraph_defines_edges_by_name_witness :
  does mute no_files (Arango.agraph mute)
       (Arango.HasGraph Arango.graph_name
        :: Arango.CreateGraph Arango.graph_name
        :: ArangoGraph.edge_definitions) tt.
Proof.
  apply (proj1 (proj2 (ArangoGraph.agraph_defines_edges_by_name
                         unit mute mute_reliable no_files))).
  intros b. exists b, RNone. split; reflexivity.
Defined.

(* ================================================================== *)
(** * The collections before and after [asetup] and [aclear] *)

Section Requests.
Variables (C B : Type).
Variable respond : B -> C -> B * reply.

(** The world once the store has answered a call. *)
Definition answered (w : world C B) (c : C) (b' : B) (r : reply)
  : world C B :=
  World (files w) b' (trace w ++ [(Store c, r)]) (out w).

Lemma request_ok (c : C) (w : world C B) (b' : B) (v : rvalue) :
  respond (conn w) c = (b', Ok v) ->
  request respond c w = (answered w c b' (Ok v), inr v).
Proof. intros E. unfold request. rewrite E. reflexivity. Qed.

Lemma request_raise (c : C) (w : world C B) (b' : B) (e : exn) :
  respond (conn w) c = (b', Raise e) ->
  request respond c w = (answered w c b' (Raise e), inl e).
Proof. intros E. unfold request. rewrite E. reflexivity. Qed.

(** [m] returns from [w] in [w'], after exactly the store calls [cs]. *)
Definition runs (m : M C B unit) (w w' : world C B) (cs : list C) : Prop :=
  m w = (w', inr tt) /\ files w' = files w /\
  calls_of (trace w') = calls_of (trace w) ++ cs.

Lemma runs_ret (w : world C B) : runs (ret tt) w w [].
Proof. unfold runs. rewrite app_nil_r. auto. Qed.

Lemma runs_print (s : string) (w : world C B) :
  runs (print s) w (exec (print s) w) [] /\
  conn (exec (print s) w) = conn w.
Proof. unfold runs. simpl. rewrite app_nil_r. auto. Qed.

Lemma runs_seq (m m' : M C B unit) (w w1 w2 : world C B) cs1 cs2 :
  runs m w w1 cs1 -> runs m' w1 w2 cs2 ->
  runs (bind m (fun _ => m')) w w2 (cs1 ++ cs2).
Proof.
  intros (E1 & F1 & T1) (E2 & F2 & T2). unfold runs, bind.
  rewrite E1, E2. split; [reflexivity|]. split; [congruence|].
  now rewrite T2, T1, app_assoc.
Qed.

Lemma calls_of_answered (w : world C B) c b' r :
  calls_of (trace (answered w c b' r)) = calls_of (trace w) ++ [c].
Proof. unfold answered. simpl. now rewrite calls_of_app. Qed.

Lemma runs_exec (m : M C B unit) (w w' : world C B) cs :
  runs m w w' cs -> exec m w = w'.
Proof. intros (E & _). unfold exec. now rewrite E. Qed.
End Requests.

Arguments answered {C B} w c b' r.
Arguments runs {C B} m w w' cs.

Fixpoint nodupb (l : list string) : bool :=
  match l with
  | [] => true
  | x :: l' => negb (existsb (String.eqb x) l') && nodupb l'
  end.

Lemma existsb_eqb_In (x : string) (l : list string) :
  existsb (String.eqb x) l = true <-> In x l.
Proof.
  rewrite existsb_exists. split.
  - intros (y & Hy & E). apply String.eqb_eq in E. now subst.
  - intros H. exists x. split; [exact H|apply String.eqb_refl].
Qed.

Lemma nodupb_NoDup (l : list string) : nodupb l = true -> NoDup l.
Proof.
  induction l as [|x l IH]; simpl; intros H; constructor.
  - apply andb_prop in H. destruct H as [H _].
    intros Hin. apply existsb_eqb_In in Hin. rewrite Hin in H. discriminate.
  - apply IH. apply andb_prop in H. tauto.
Qed.

Module ArangoSchema.
Import Arango.

Section Catalogue.
Variable B : Type.
Variable ar : B -> call -> B * reply.

(** What can be seen of a server: which collections and which graphs it
    has. *)
Variable has : B -> string -> bool.
Variable has_graph : B -> string -> bool.

Definition keeps_collections (b b' : B) : Prop :=
  forall x, has b' x = has b x.

(** A server that answers the questions truthfully, creates a collection
    that is missing, deletes one that is there, and whose other answers,
    whatever they are, leave the collections alone.  An index request may
    raise. *)
Record lawful : Prop := {
  has_collection_law : forall b c, exists b',
    ar b (HasCollection c) = (b', Ok (RBool (has b c))) /\
    keeps_collections b b';
  has_graph_law : forall b g, exists b',
    ar b (HasGraph g) = (b', Ok (RBool (has_graph b g))) /\
    keeps_collections b b';
  create_collection_law : forall b c k, has b c = false ->
    exists b' v,
      ar b (CreateCollection c k) = (b', Ok v) /\
      forall x, has b' x = String.eqb x c || has b x;
  delete_collection_law : forall b c, has b c = true ->
    exists b' v,
      ar b (DeleteCollection c) = (b', Ok v) /\
      forall x, has b' x = negb (String.eqb x c) && has b x;
  add_index_law : forall b c f u n,
    keeps_collections b (fst (ar b (AddIndex c f u n)))
}.

(** The calls of the first two loops of [asetup] on the server [b]. *)
Definition ensure_calls (b : B) (k : kind) (xs : list string) : list call :=
  flat_map (fun c => HasCollection c
                     :: (if has b c then [] else [CreateCollection c k])) xs.

(** The calls of the index loop when every indexed collection exists. *)
Definition index_calls_of (nis : list (string * list (string * bool)))
  : list call :=
  flat_map (fun ni =>
    HasCollection (fst ni)
    :: map (fun fu => AddIndex (fst ni) (fst fu) (snd fu)
                               (fst ni ++ "_" ++ fst fu ++ "_idx")%string)
           (snd ni)) nis.

(** The calls of the loop of [aclear] on the server [b]. *)
Definition removal_calls (b : B) (xs : list string) : list call :=
  flat_map (fun c => HasCollection c
                     :: (if has b c then [DeleteCollection c] else [])) xs.

Hypothesis L : lawful.

Lemma ensure_step (k : kind) (c : string) (w : world call B) :
  exists w',
    runs (ensure_collection ar k c) w w'
         (HasCollection c
          :: (if has (conn w) c then [] else [CreateCollection c k])) /\
    forall x, has (conn w') x = String.eqb x c || has (conn w) x.
Proof.
  destruct (has_collection_law L (conn w) c) as (b1 & E1 & K1).
  unfold ensure_collection, bind, runs.
  rewrite (request_ok _ _ _ _ _ _ _ E1). cbn [truthy].
  destruct (has (conn w) c) eqn:Hc; cbn [negb].
  - eexists. split; [split; [reflexivity|split; [reflexivity|]]|].
    + apply calls_of_answered.
    + intros x. simpl. rewrite K1.
      destruct (String.eqb_spec x c); [subst; now rewrite Hc|reflexivity].
  - assert (Hb1 : has b1 c = false) by (now rewrite K1).
    destruct (create_collection_law L b1 c k Hb1) as (b2 & v & E2 & K2).
    rewrite (request_ok _ _ ar (CreateCollection c k)
                        (answered w (HasCollection c) b1
                                  (Ok (RBool false))) b2 v E2).
    eexists. split; [split; [reflexivity|split; [reflexivity|]]|].
    + rewrite !calls_of_answered. now rewrite <- app_assoc.
    + intros x. simpl. rewrite K2, K1. reflexivity.
Qed.

Lemma ensure_calls_ext (b b' : B) (k : kind) (xs : list string) :
  (forall c, In c xs -> has b' c = has b c) ->
  ensure_calls b' k xs = ensure_calls b k xs.
Proof.
  intros H. unfold ensure_calls. induction xs as [|c xs IH]; simpl.
  - reflexivity.
  - rewrite (H c) by now left. rewrite IH; [reflexivity|].
    intros y Hy. apply H. now right.
Qed.

Lemma ensure_loop (k : kind) (xs : list string) :
  NoDup xs -> forall w, exists w',
    runs (for_ xs (ensure_collection ar k)) w w'
         (ensure_calls (conn w) k xs) /\
    forall x, has (conn w') x
              = existsb (String.eqb x) xs || has (conn w) x.
Proof.
  induction xs as [|c xs IH]; intros ND w.
  - exists w. split; [apply runs_ret|reflexivity].
  - inversion ND as [|? ? Hnin ND']; subst.
    destruct (ensure_step k c w) as (w1 & R1 & H1).
    destruct (IH ND' w1) as (w2 & R2 & H2).
    exists w2. split.
    + cbn [for_]. change (ensure_calls (conn w) k (c :: xs))
        with ((HasCollection c
               :: (if has (conn w) c then [] else [CreateCollection c k]))
              ++ ensure_calls (conn w) k xs).
      apply runs_seq with (w1 := w1); [exact R1|].
      rewrite <- (ensure_calls_ext (conn w) (conn w1) k xs); [exact R2|].
      intros y Hy. rewrite H1.
      destruct (String.eqb_spec y c); [subst; contradiction|reflexivity].
    + intros x. rewrite H2, H1. cbn [existsb].
      destruct (String.eqb x c), (existsb (String.eqb x) xs),
        (has (conn w) x); reflexivity.
Qed.

(** One pass of the index loop of [asetup]. *)
Definition index_collection (ni : string * list (string * bool))
  : M call B unit :=
  bind (request ar (HasCollection (fst ni)))
       (fun has => if truthy has
                   then add_indices ar (fst ni) (snd ni)
                   else ret tt).

Definition index_call (name : string) (fu : string * bool) : call :=
  AddIndex name (fst fu) (snd fu) (name ++ "_" ++ fst fu ++ "_idx")%string.

(** An index request that raises is caught: the loop goes on. *)
Lemma add_index_step (name : string) (fu : string * bool)
                     (w : world call B) :
  exists w',
    runs (try_except
            (bind (request ar (index_call name fu)) (fun _ => ret tt))
            (fun e => print ("Index creation warning for "
                             ++ (name ++ "_" ++ fst fu ++ "_idx")
                             ++ ": " ++ e)%string))
         w w' [index_call name fu] /\
    keeps_collections (conn w) (conn w').
Proof.
  pose proof (add_index_law L (conn w) name (fst fu) (snd fu)
                (name ++ "_" ++ fst fu ++ "_idx")%string) as K.
  fold (index_call name fu) in K.
  destruct (ar (conn w) (index_call name fu)) as [b1 r] eqn:E.
  simpl in K. unfold try_except, bind, runs. destruct r as [v|e].
  - rewrite (request_ok _ _ _ _ _ _ _ E). eexists.
    split; [split; [reflexivity|split; [reflexivity|]]|exact K].
    apply calls_of_answered.
  - rewrite (request_raise _ _ _ _ _ _ _ E). eexists.
    split; [split; [reflexivity|split; [reflexivity|]]|exact K].
    simpl. now rewrite calls_of_app.
Qed.

Lemma add_indices_run (name : string) (indices : list (string * bool)) :
  forall w, exists w',
    runs (add_indices ar name indices) w w'
         (map (index_call name) indices) /\
    keeps_collections (conn w) (conn w').
Proof.
  unfold add_indices.
  induction indices as [|fu indices IH]; intros w.
  - exists w. split; [apply runs_ret|intros x; reflexivity].
  - destruct (add_index_step name fu w) as (w1 & R1 & K1).
    destruct (IH w1) as (w2 & R2 & K2).
    exists w2. split.
    + cbn [for_ map].
      change (index_call name fu :: map (index_call name) indices)
        with ([index_call name fu] ++ map (index_call name) indices).
      apply runs_seq with (w1 := w1); [exact R1|exact R2].
    + intros x. now rewrite K2, K1.
Qed.

Lemma index_step (ni : string * list (string * bool)) (w : world call B) :
  has (conn w) (fst ni) = true ->
  exists w',
    runs (index_collection ni) w w'
         (HasCollection (fst ni) :: map (index_call (fst ni)) (snd ni)) /\
    keeps_collections (conn w) (conn w').
Proof.
  intros Hc.
  destruct (has_collection_law L (conn w) (fst ni)) as (b1 & E1 & K1).
  rewrite Hc in E1.
  destruct (add_indices_run (fst ni) (snd ni)
              (answered w (HasCollection (fst ni)) b1 (Ok (RBool true))))
    as (w2 & (E2 & F2 & T2) & K2).
  exists w2. unfold index_collection, bind, runs.
  rewrite (request_ok _ _ _ _ _ _ _ E1). cbn [truthy].
  split; [split; [exact E2|split; [exact F2|]]|].
  - rewrite T2, calls_of_answered. now rewrite <- app_assoc.
  - intros x. rewrite K2. simpl. apply K1.
Qed.

Lemma index_loop (nis : list (string * list (string * bool))) :
  forall w,
    (forall ni, In ni nis -> has (conn w) (fst ni) = true) ->
    exists w',
      runs (for_ nis index_collection) w w' (index_calls_of nis) /\
      keeps_collections (conn w) (conn w').
Proof.
  induction nis as [|ni nis IH]; intros w H.
  - exists w. split; [apply runs_ret|intros x; reflexivity].
  - destruct (index_step ni w (H ni (or_introl eq_refl))) as (w1 & R1 & K1).
    destruct (IH w1) as (w2 & R2 & K2).
    { intros n Hn. rewrite K1. apply H. now right. }
    exists w2. split.
    + cbn [for_]. unfold index_calls_of. cbn [flat_map].
      apply runs_seq with (w1 := w1); [exact R1|exact R2].
    + intros x. now rewrite K2, K1.
Qed.

(** [asetup] on a lawful server: what it returns, what the server has
    afterwards, and its calls. *)
Lemma asetup_run (w : world call B) :
  exists w',
    runs (asetup ar) w w'
         (ensure_calls (conn w) DOCUMENT VERTICES
          ++ ensure_calls (conn w) EDGE EDGES
          ++ index_calls_of INDICES) /\
    forall x, has (conn w') x
              = existsb (String.eqb x) (VERTICES ++ EDGES)
                || has (conn w) x.
Proof.
  destruct (ensure_loop DOCUMENT VERTICES
              (nodupb_NoDup VERTICES eq_refl) w) as (w1 & R1 & H1).
  destruct (ensure_loop EDGE EDGES
              (nodupb_NoDup EDGES eq_refl) w1) as (w2 & R2 & H2).
  destruct (runs_print call B "Creating indices..." w2) as (R3 & C3).
  destruct (index_loop INDICES (exec (print "Creating indices...") w2))
    as (w4 & R4 & K4).
  { intros ni Hni. rewrite C3, H2, H1.
    simpl in Hni. repeat destruct Hni as [<-|Hni]; try contradiction;
      reflexivity. }
  exists w4. split.
  - change (asetup ar)
      with (bind (for_ VERTICES (ensure_collection ar DOCUMENT))
              (fun _ => bind (for_ EDGES (ensure_collection ar EDGE))
                 (fun _ => bind (print "Creating indices...")
                    (fun _ => for_ INDICES index_collection)))).
    apply runs_seq with (w1 := w1); [exact R1|].
    apply runs_seq with (w1 := w2).
    + rewrite <- (ensure_calls_ext (conn w) (conn w1) EDGE EDGES);
        [exact R2|].
      intros c Hc. rewrite H1.
      simpl in Hc. repeat destruct Hc as [<-|Hc]; try contradiction;
        reflexivity.
    + change (index_calls_of INDICES) with ([] ++ index_calls_of INDICES).
      apply runs_seq with (w1 := exec (print "Creating indices...") w2);
        [exact R3|exact R4].
  - intros x. rewrite K4, C3, H2, H1. rewrite existsb_app.
    destruct (existsb (String.eqb x) VERTICES),
      (existsb (String.eqb x) EDGES), (has (conn w) x); reflexivity.
Qed.

Lemma ensure_calls_present (b : B) (k : kind) (xs : list string) :
  (forall c, In c xs -> has b c = true) ->
  ensure_calls b k xs = map HasCollection xs.
Proof.
  intros H. unfold ensure_calls. induction xs as [|c xs IH]; simpl.
  - reflexivity.
  - rewrite (H c) by now left. simpl. f_equal. apply IH.
    intros y Hy. apply H. now right.
Qed.

Lemma ensure_calls_absent (b : B) (k : kind) (xs : list string) :
  (forall c, In c xs -> has b c = false) ->
  ensure_calls b k xs
  = flat_map (fun c => [HasCollection c; CreateCollection c k]) xs.
Proof.
  intros H. unfold ensure_calls. induction xs as [|c xs IH]; simpl.
  - reflexivity.
  - rewrite (H c) by now left. simpl. do 2 f_equal. apply IH.
    intros y Hy. apply H. now right.
Qed.

(** X8.  On a server that answers [has_collection] truthfully and creates
    a collection that is missing, [asetup] always returns, also when index
    requests raise.  It asks for each of the seventeen collections in turn
    and creates exactly those that were missing, the vertex collections as
    document collections and the edge collections as edge collections;
    then it asks for each of the eight indexed collections and requests
    its indices.  Afterwards the seventeen collections exist and no other
    collection has appeared or gone; a second [asetup] creates nothing. *)
Theorem asetup_creates_what_is_missing (w : world call B) :
  exists w',
    asetup ar w = (w', inr tt) /\
    (forall x, has (conn w') x
               = existsb (String.eqb x) (VERTICES ++ EDGES)
                 || has (conn w) x) /\
    calls_of (trace w')
    = calls_of (trace w)
      ++ ensure_calls (conn w) DOCUMENT VERTICES
      ++ ensure_calls (conn w) EDGE EDGES
      ++ index_calls_of INDICES /\
    calls_of (trace (exec (asetup ar) w'))
    = calls_of (trace w')
      ++ map HasCollection VERTICES
      ++ map HasCollection EDGES
      ++ index_calls_of INDICES.
Proof.
  destruct (asetup_run w) as (w1 & (E1 & F1 & T1) & H1).
  destruct (asetup_run w1) as (w2 & R2 & H2).
  exists w1. split; [exact E1|]. split; [exact H1|]. split; [exact T1|].
  rewrite (runs_exec _ _ _ _ _ _ R2). destruct R2 as (_ & _ & T2).
  rewrite T2.
  rewrite (ensure_calls_present (conn w1) DOCUMENT VERTICES).
  - rewrite (ensure_calls_present (conn w1) EDGE EDGES); [reflexivity|].
    intros c Hc. rewrite H1.
    simpl in Hc. repeat destruct Hc as [<-|Hc]; try contradiction;
      reflexivity.
  - intros c Hc. rewrite H1.
    simpl in Hc. repeat destruct Hc as [<-|Hc]; try contradiction;
      reflexivity.
Qed.

(** One pass of the loop of [aclear]. *)
Definition remove_collection (coll : string) : M call B unit :=
  bind (request ar (HasCollection coll))
       (fun has => if truthy has
                   then bind (request ar (DeleteCollection coll))
                             (fun _ => ret tt)
                   else ret tt).

Lemma remove_step (c : string) (w : world call B) :
  exists w',
    runs (remove_collection c) w w'
         (HasCollection c
          :: (if has (conn w) c then [DeleteCollection c] else [])) /\
    forall x, has (conn w') x = negb (String.eqb x c) && has (conn w) x.
Proof.
  destruct (has_collection_law L (conn w) c) as (b1 & E1 & K1).
  unfold remove_collection, bind, runs.
  rewrite (request_ok _ _ _ _ _ _ _ E1). cbn [truthy].
  destruct (has (conn w) c) eqn:Hc.
  - assert (Hb1 : has b1 c = true) by (now rewrite K1).
    destruct (delete_collection_law L b1 c Hb1) as (b2 & v & E2 & K2).
    rewrite (request_ok _ _ ar (DeleteCollection c)
                        (answered w (HasCollection c) b1
                                  (Ok (RBool true))) b2 v E2).
    eexists. split; [split; [reflexivity|split; [reflexivity|]]|].
    + rewrite !calls_of_answered. now rewrite <- app_assoc.
    + intros x. simpl. rewrite K2, K1. reflexivity.
  - eexists. split; [split; [reflexivity|split; [reflexivity|]]|].
    + apply calls_of_answered.
    + intros x. simpl. rewrite K1.
      destruct (String.eqb_spec x c); [subst; now rewrite Hc|reflexivity].
Qed.

Lemma removal_calls_ext (b b' : B) (xs : list string) :
  (forall c, In c xs -> has b' c = has b c) ->
  removal_calls b' xs = removal_calls b xs.
Proof.
  intros H. unfold removal_calls. induction xs as [|c xs IH]; simpl.
  - reflexivity.
  - rewrite (H c) by now left. rewrite IH; [reflexivity|].
    intros y Hy. apply H. now right.
Qed.

Lemma removal_loop (xs : list string) :
  NoDup xs -> forall w, exists w',
    runs (for_ xs remove_collection) w w' (removal_calls (conn w) xs) /\
    forall x, has (conn w') x
              = negb (existsb (String.eqb x) xs) && has (conn w) x.
Proof.
  induction xs as [|c xs IH]; intros ND w.
  - exists w. split; [apply runs_ret|reflexivity].
  - inversion ND as [|? ? Hnin ND']; subst.
    destruct (remove_step c w) as (w1 & R1 & H1).
    destruct (IH ND' w1) as (w2 & R2 & H2).
    exists w2. split.
    + cbn [for_]. change (removal_calls (conn w) (c :: xs))
        with ((HasCollection c
               :: (if has (conn w) c then [DeleteCollection c] else []))
              ++ removal_calls (conn w) xs).
      apply runs_seq with (w1 := w1); [exact R1|].
      rewrite <- (removal_calls_ext (conn w) (conn w1) xs); [exact R2|].
      intros y Hy. rewrite H1.
      destruct (String.eqb_spec y c); [subst; contradiction|reflexivity].
    + intros x. rewrite H2, H1. cbn [existsb].
      destruct (String.eqb x c), (existsb (String.eqb x) xs),
        (has (conn w) x); reflexivity.
Qed.

(** X9.  [aclear] asks whether the graph exists.  If it does, the only
    other call is [delete_graph] with [drop_collections=True], whatever
    that call answers: no collection is asked for or deleted by name.  If
    it does not, [aclear] returns after asking for each of the seventeen
    collections and deleting exactly those that exist; afterwards none of
    them exists, every other collection is as before, and the [asetup]
    that follows creates all seventeen. *)
Theorem aclear_removes_what_exists (w : world call B) :
  (has_graph (conn w) graph_name = true ->
   calls_of (trace (exec (aclear ar) w))
   = calls_of (trace w)
     ++ [HasGraph graph_name; DeleteGraph graph_name true])
  /\
  (has_graph (conn w) graph_name = false ->
   exists w',
     aclear ar w = (w', inr tt) /\
     (forall x, has (conn w') x
                = negb (existsb (String.eqb x) (VERTICES ++ EDGES))
                  && has (conn w) x) /\
     calls_of (trace w')
     = calls_of (trace w)
       ++ HasGraph graph_name
          :: removal_calls (conn w) (VERTICES ++ EDGES) /\
     calls_of (trace (exec (asetup ar) w'))
     = calls_of (trace w')
       ++ flat_map (fun c => [HasCollection c; CreateCollection c DOCUMENT])
                   VERTICES
       ++ flat_map (fun c => [HasCollection c; CreateCollection c EDGE])
                   EDGES
       ++ index_calls_of INDICES).
Proof.
  destruct (has_graph_law L (conn w) graph_name) as (b1 & E1 & K1).
  split; intros Hg; rewrite Hg in E1.
  - unfold exec, aclear, bind.
    rewrite (request_ok _ _ _ _ _ _ _ E1). cbn [truthy].
    set (w1 := answered w (HasGraph graph_name) b1 (Ok (RBool true))).
    destruct (ar (conn w1) (DeleteGraph graph_name true))
      as [b2 [v|e]] eqn:E2.
    + rewrite (request_ok _ _ _ _ _ _ _ E2). cbv iota beta.
      unfold ret. cbn [fst]. unfold w1. rewrite !calls_of_answered.
      now rewrite <- app_assoc.
    + rewrite (request_raise _ _ _ _ _ _ _ E2). cbv iota beta. cbn [fst].
      unfold w1. rewrite !calls_of_answered. now rewrite <- app_assoc.
  - set (w1 := answered w (HasGraph graph_name) b1 (Ok (RBool false))).
    destruct (removal_loop (VERTICES ++ EDGES)
                (nodupb_NoDup (VERTICES ++ EDGES) eq_refl) w1)
      as (w2 & (E2 & F2 & T2) & H2).
    assert (Hw2 : forall x, has (conn w2) x
                = negb (existsb (String.eqb x) (VERTICES ++ EDGES))
                  && has (conn w) x).
    { intros x. rewrite H2. unfold w1. simpl. now rewrite K1. }
    exists w2. split; [|split; [exact Hw2|split]].
    + unfold aclear, bind.
      rewrite (request_ok _ _ _ _ _ _ _ E1). cbn [truthy]. exact E2.
    + rewrite T2. unfold w1. rewrite calls_of_answered.
      rewrite <- app_assoc. cbn [app].
      rewrite (removal_calls_ext (conn w) b1); [reflexivity|].
      intros c _. apply K1.
    + destruct (asetup_run w2) as (w3 & R3 & _).
      rewrite (runs_exec _ _ _ _ _ _ R3). destruct R3 as (_ & _ & T3).
      rewrite T3.
      rewrite (ensure_calls_absent (conn w2) DOCUMENT VERTICES).
      * rewrite (ensure_calls_absent (conn w2) EDGE EDGES); [reflexivity|].
        intros c Hc. rewrite Hw2.
        simpl in Hc. repeat destruct Hc as [<-|Hc]; try contradiction;
          reflexivity.
      * intros c Hc. rewrite Hw2.
        simpl in Hc. repeat destruct Hc as [<-|Hc]; try contradiction;
          reflexivity.
Qed.
End Catalogue.

Arguments lawful {B} ar has has_graph.
Arguments ensure_calls {B} has b k xs.
Arguments removal_calls {B} has b xs.

(** ** A server that keeps a list of collections *)

(** The collections and whether the graph exists.  Creating a collection
    that exists, deleting one that does not, and every index request
    raise. *)
Definition server (b : list string * bool) (c : call)
  : (list string * bool) * reply :=
  match c with
  | HasCollection x => (b, Ok (RBool (existsb (String.eqb x) (fst b))))
  | CreateCollection x _ =>
      if existsb (String.eqb x) (fst b)
      then (b, Raise "duplicate name")
      else ((x :: fst b, snd b), Ok RNone)
  | DeleteCollection x =>
      if existsb (String.eqb x) (fst b)
      then ((filter (fun y => negb (String.eqb y x)) (fst b), snd b),
            Ok RNone)
      else (b, Raise "collection or view not found")
  | AddIndex _ _ _ _ => (b, Raise "index refused")
  | HasGraph _ => (b, Ok (RBool (snd b)))
  | CreateGraph _ => ((fst b, true), Ok RNone)
  | DeleteGraph _ drop =>
      ((if drop then [] else fst b, false), Ok RNone)
  | _ => (b, Ok RNone)
  end.

Definition server_has (b : list string * bool) (x : string) : bool :=
  existsb (String.eqb x) (fst b).

Definition server_has_graph (b : list string * bool) (g : string) : bool :=
  snd b.

Lemma existsb_filter_out (x c : string) (l : list string) :
  existsb (String.eqb x) (filter (fun y => negb (String.eqb y c)) l)
  = negb (String.eqb x c) && existsb (String.eqb x) l.
Proof.
  induction l as [|y l IH]; simpl.
  - now rewrite andb_false_r.
  - destruct (String.eqb_spec y c) as [->|Hy]; simpl.
    + rewrite IH. destruct (String.eqb_spec x c); simpl; reflexivity.
    + rewrite IH. destruct (String.eqb_spec x y) as [->|Hxy]; simpl.
      * destruct (String.eqb_spec y c); [contradiction|reflexivity].
      * reflexivity.
Qed.

Lemma server_lawful : lawful server server_has server_has_graph.
Proof.
  constructor.
  - intros b c. exists b. split; [reflexivity|intros x; reflexivity].
  - intros b g. exists b. split; [reflexivity|intros x; reflexivity].
  - intros b c k H. unfold server_has in H. simpl. rewrite H.
    eexists. eexists. split; [reflexivity|]. intros x. reflexivity.
  - intros b c H. unfold server_has in H. simpl. rewrite H.
    eexists. eexists. split; [reflexivity|]. intros x.
    unfold server_has. simpl. apply existsb_filter_out.
  - intros b c f u n x. reflexivity.
Qed.

End ArangoSchema.

(** A server with two of the collections and no graph. *)
Definition half_made : world Arango.call (list string * bool) :=
  World no_files (["orders"; "nation_region"], false) [] [].

Lemma asetup_creates_what_is_missing_witness :
  exists w',
    Arango.asetup ArangoSchema.server half_made = (w', inr tt) /\
    (forall x, ArangoSchema.server_has (conn w') x
               = existsb (String.eqb x) (Arango.VERTICES ++ Arango.EDGES)
                 || ArangoSchema.server_has (conn half_made) x) /\
    calls_of (trace w')
    = calls_of (trace half_made)
      ++ ArangoSchema.ensure_calls ArangoSchema.server_has (conn half_made)
           Arango.DOCUMENT Arango.VERTICES
      ++ ArangoSchema.ensure_calls ArangoSchema.server_has (conn half_made)
           Arango.EDGE Arango.EDGES
      ++ ArangoSchema.index_calls_of Arango.INDICES /\
    calls_of (trace (exec (Arango.asetup ArangoSchema.server) w'))
    = calls_of (trace w')
      ++ map Arango.HasCollection Arango.VERTICES
      ++ map Arango.HasCollection Arango.EDGES
      ++ ArangoSchema.index_calls_of Arango.INDICES.
Proof.
  exact (ArangoSchema.asetup_creates_what_is_missing
           _ ArangoSchema.server ArangoSchema.server_has
           ArangoSchema.server_has_graph ArangoSchema.server_lawful
           half_made).
Defined.

Lemma aclear_removes_what_exists_witness :
  exists w',
    Arango.aclear ArangoSchema.server half_made = (w', inr tt) /\
    (forall x, ArangoSchema.server_has (conn w') x
               = negb (existsb (String.eqb x)
                               (Arango.VERTICES ++ Arango.EDGES))
                 && ArangoSchema.server_has (conn half_made) x).
Proof.
  destruct (proj2 (ArangoSchema.aclear_removes_what_exists
                     _ ArangoSchema.server ArangoSchema.server_has
                     ArangoSchema.server_has_graph
                     ArangoSchema.server_lawful half_made) eq_refl)
    as (w' & E & H & _).
  exists w'. split; [exact E|exact H].
Defined.

(** On that server [asetup] creates the fifteen collections that are
    missing, and [aclear] deletes the two that are there. *)
Example asetup_on_half_made :
  flat_map (fun c => match c with
                     | Arango.CreateCollection x _ => [x]
                     | _ => []
                     end)
           (calls_of (trace (exec (Arango.asetup ArangoSchema.server)
                                  half_made)))
  = ["region"; "nation"; "supplier"; "customer"; "part"; "partsupp";
     "lineitem"; "customer_nation"; "supplier_nation"; "customer_orders";
     "order_lineitems"; "lineitem_supplier"; "lineitem_part";
     "partsupp_part"; "partsupp_supplier"] /\
  flat_map (fun c => match c with
                     | Arango.DeleteCollection x => [x]
                     | _ => []
                     end)
           (calls_of (trace (exec (Arango.aclear ArangoSchema.server)
                                  half_made)))
  = ["orders"; "nation_region"] /\
  snd (Arango.asetup ArangoSchema.server half_made) = inr tt.
Proof. split; [|split]; vm_compute; reflexivity. Qed.

(* ================================================================== *)
(** * Opening the database *)

Section Connecting.
Import Arango.
Variable B : Type.
Variable ar : B -> call -> B * reply.

(** X10.  [aconnect] opens the system database and asks whether the
    configured database exists.  If the answer is truthy it opens that
    database and prints nothing.  If it is falsy it prints a message and
    creates the database first; when the creation raises, [aconnect]
    raises the same exception and the database is never opened. *)
Theorem aconnect_creates_database_if_missing
    (w : world call B) (b1 b2 : B) (v1 v2 : rvalue) :
  ar (conn w) (Db "_system") = (b1, Ok v1) ->
  ar b1 (HasDatabase database) = (b2, Ok v2) ->
  (truthy v2 = true ->
   forall b3 v3, ar b2 (Db database) = (b3, Ok v3) ->
     exists w',
       runs (aconnect ar) w w'
            [Db "_system"; HasDatabase database; Db database] /\
       conn w' = b3 /\ out w' = out w)
  /\
  (truthy v2 = false ->
   forall b3 r, ar b2 (CreateDatabase database) = (b3, r) ->
     match r with
     | Ok _ =>
         forall b4 v4, ar b3 (Db database) = (b4, Ok v4) ->
           exists w',
             runs (aconnect ar) w w'
                  [Db "_system"; HasDatabase database;
                   CreateDatabase database; Db database] /\
             conn w' = b4 /\
             out w' = out w
                      ++ ["Database: tpch does not exist, creating..."]
     | Raise e =>
         snd (aconnect ar w) = inl e /\
         calls_of (trace (exec (aconnect ar) w))
         = calls_of (trace w)
           ++ [Db "_system"; HasDatabase database; CreateDatabase database]
     end).
Proof.
  intros E1 E2. split; intros Tv.
  - intros b3 v3 E3. unfold aconnect, bind, runs.
    rewrite (request_ok _ _ _ _ _ _ _ E1).
    rewrite (request_ok _ _ ar (HasDatabase database)
               (answered w (Db "_system") b1 (Ok v1)) b2 v2 E2).
    rewrite Tv. cbn [negb ret].
    rewrite (request_ok _ _ ar (Db database)
               (answered (answered w (Db "_system") b1 (Ok v1))
                         (HasDatabase database) b2 (Ok v2)) b3 v3 E3).
    eexists. split; [split; [reflexivity|split; [reflexivity|]]|].
    + rewrite !calls_of_answered. now rewrite <- !app_assoc.
    + split; reflexivity.
  - intros b3 r E3. destruct r as [v3|e].
    + intros b4 v4 E4. unfold aconnect, bind, runs.
      rewrite (request_ok _ _ _ _ _ _ _ E1).
      rewrite (request_ok _ _ ar (HasDatabase database)
                 (answered w (Db "_system") b1 (Ok v1)) b2 v2 E2).
      rewrite Tv. cbn [negb].
      set (w2 := answered (answered w (Db "_system") b1 (Ok v1))
                          (HasDatabase database) b2 (Ok v2)).
      set (w3 := fst (print ("Database: " ++ database
                             ++ " does not exist, creating...") w2)).
      change (print ("Database: " ++ database
                     ++ " does not exist, creating...") w2)
        with (w3, @inr exn unit tt).
      cbv iota beta.
      rewrite (request_ok _ _ ar (CreateDatabase database) w3 b3 v3 E3).
      cbv iota beta. unfold ret at 1. cbv iota beta.
      rewrite (request_ok _ _ ar (Db database)
                 (answered w3 (CreateDatabase database) b3 (Ok v3))
                 b4 v4 E4).
      eexists. split; [split; [reflexivity|split; [reflexivity|]]|].
      * rewrite !calls_of_answered. unfold w3, w2. simpl.
        rewrite !calls_of_app. simpl. now rewrite <- !app_assoc.
      * split; reflexivity.
    + unfold exec, aconnect, bind.
      rewrite (request_ok _ _ _ _ _ _ _ E1).
      rewrite (request_ok _ _ ar (HasDatabase database)
                 (answered w (Db "_system") b1 (Ok v1)) b2 v2 E2).
      rewrite Tv. cbn [negb].
      set (w2 := answered (answered w (Db "_system") b1 (Ok v1))
                          (HasDatabase database) b2 (Ok v2)).
      set (w3 := fst (print ("Database: " ++ database
                             ++ " does not exist, creating...") w2)).
      change (print ("Database: " ++ database
                     ++ " does not exist, creating...") w2)
        with (w3, @inr exn unit tt).
      cbv iota beta.
      rewrite (request_raise _ _ ar (CreateDatabase database) w3 b3 e E3).
      cbv iota beta. split; [reflexivity|]. cbn [fst].
      rewrite calls_of_answered. unfold w3, w2. simpl.
      rewrite !calls_of_app. simpl. now rewrite <- !app_assoc.
Qed.
End Connecting.

Lemma aconnect_creates_database_if_missing_witness :
  exists w',
    runs (Arango.aconnect mute) (World no_files tt [] []) w'
         [Arango.Db "_system"; Arango.HasDatabase Arango.database;
          Arango.CreateDatabase Arango.database;
          Arango.Db Arango.database] /\
    conn w' = tt /\
    out w' = ["Database: tpch does not exist, creating..."].
Proof.
  exact (proj2 (aconnect_creates_database_if_missing
                  unit mute (World no_files tt [] []) tt tt RNone RNone
                  eq_refl eq_refl)
               eq_refl tt (Ok RNone) eq_refl tt RNone eq_refl).
Defined.

(* ================================================================== *)
(** * The columns of a row in its ArangoDB records *)

Module ArangoDocuments.
Import Arango ArangoRuns ArangoSteps.

(** The records written for one row: the vertex record, then the edge
    records. *)
Definition documents (t : table) (row : record) : list record :=
  snd (vertex_of t) row :: map (fun e => snd e row) (edges_of t).

(** The value of a field in the first of the records that has it. *)
Fixpoint field_of (c : string) (docs : list record) : option value :=
  match docs with
  | [] => None
  | d :: ds =>
      match assoc c d with
      | Some v => Some v
      | None => field_of c ds
      end
  end.

(** The columns of a table, read back from the records of a row. *)
Definition read_back (t : table) (docs : list record)
  : list (string * option value) :=
  map (fun c => (c, field_of c docs)) (columns_of t).

(** The columns the vertex record of a row leaves out. *)
Definition left_out (t : table) (row : record) : list string :=
  filter (fun c => match assoc c (snd (vertex_of t) row) with
                   | Some _ => false
                   | None => true
                   end) (columns_of t).

Ltac shape_row H :=
  repeat match type of H with
         | map fst ?r = _ :: _ =>
             destruct r as [|[? ?] ?]; [discriminate H|];
             simpl in H; injection H as -> H
         | map fst ?r = [] =>
             destruct r; [clear H|discriminate H]
         end.

(** X11.  The records the ArangoDB loader writes for a row carry every
    column of the row under its own name and with its value, so the row
    can be read back from them.  The vertex record alone does not for
    nation, supplier, customer and orders: it leaves out the foreign key,
    which is kept on the edge record only.  No record has a field other
    than [_key], [_from], [_to] and the columns of its table. *)
Theorem documents_keep_every_column (t : table) (row : record) :
  map fst row = columns_of t ->
  read_back t (documents t row)
  = map (fun kv => (fst kv, Some (snd kv))) row
  /\
  left_out t row
  = match t with
    | nation => ["n_regionkey"]
    | supplier => ["s_nationkey"]
    | customer => ["c_nationkey"]
    | orders => ["o_custkey"]
    | _ => []
    end
  /\
  forall d k, In d (documents t row) -> In k (map fst d) ->
    In k (["_key"; "_from"; "_to"] ++ columns_of t).
Proof.
  intros H. split; [|split].
  - destruct t; simpl in H; shape_row H; reflexivity.
  - destruct t; reflexivity.
  - intros d k Hd Hk.
    destruct t; simpl in Hd; repeat destruct Hd as [<-|Hd];
      try contradiction; simpl in Hk;
      repeat destruct Hk as [<-|Hk]; try contradiction;
      simpl; tauto.
Qed.

End ArangoDocuments.

Lemma documents_keep_every_column_witness :
  ArangoDocuments.read_back nation
    (ArangoDocuments.documents nation
       [("n_nationkey", VInt 0); ("n_name", VStr "ALGERIA");
        ("n_regionkey", VInt 0); ("n_comment", VStr "final accounts")])
  = [("n_nationkey", Some (VInt 0)); ("n_name", Some (VStr "ALGERIA"));
     ("n_regionkey", Some (VInt 0));
     ("n_comment", Some (VStr "final accounts"))].
Proof.
  exact (proj1 (ArangoDocuments.documents_keep_every_column nation
                  [("n_nationkey", VInt 0); ("n_name", VStr "ALGERIA");
                   ("n_regionkey", VInt 0);
                   ("n_comment", VStr "final accounts")] eq_refl)).
Defined.

(* ================================================================== *)
(** * Rows whose references are missing *)

Module CypherDangling.
Import CypherFacts CypherCounts.

Definition is_match (c : clause) : bool :=
  match c with
  | MATCH_node _ _ _ _ => true
  | _ => false
  end.

Definition no_unwind (c : clause) : bool :=
  match c with
  | UNWIND_rows => false
  | _ => true
  end.

(** Every match of the chain finds a node for the row. *)
Definition complete (ms : list clause) (g : graph) (r : record) : bool :=
  forallb (fun c => match c with
                    | MATCH_node _ l k f =>
                        match find_nodes l k (row_get r f) g with
                        | [] => false
                        | _ => true
                        end
                    | _ => true
                    end) ms.

Lemma is_match_reads ms :
  forallb is_match ms = true -> forallb reads ms = true.
Proof.
  intros H. apply forallb_forall. intros c Hc.
  rewrite forallb_forall in H. specialize (H c Hc).
  destruct c; try discriminate; reflexivity.
Qed.

Lemma is_match_no_unwind ms :
  forallb is_match ms = true -> forallb no_unwind ms = true.
Proof.
  intros H. apply forallb_forall. intros c Hc.
  rewrite forallb_forall in H. specialize (H c Hc).
  destruct c; try discriminate; reflexivity.
Qed.

(** Only [UNWIND] looks at the rows of the batch. *)
Lemma step_rows rows rows' c g e :
  no_unwind c = true -> step rows c g e = step rows' c g e.
Proof. destruct c; intros H; try discriminate; reflexivity. Qed.

Lemma run_clause_rows rows rows' c g table :
  no_unwind c = true ->
  run_clause rows c g table = run_clause rows' c g table.
Proof.
  intros H. revert g; induction table as [|e t IH]; intros g; simpl.
  - reflexivity.
  - rewrite (step_rows rows rows' c g e H).
    destruct (step rows' c g e) as [g1 es]. now rewrite IH.
Qed.

Lemma run_clauses_rows rows rows' q g table :
  forallb no_unwind q = true ->
  run_clauses rows q g table = run_clauses rows' q g table.
Proof.
  revert g table; induction q as [|c q IH]; intros g table H; simpl.
  - reflexivity.
  - simpl in H. apply andb_true_iff in H. destruct H as [H1 H2].
    rewrite (run_clause_rows rows rows' c g table H1).
    destruct (run_clause rows' c g table) as [g1 t1]. now apply IH.
Qed.

Lemma run_clause_reads_eq rows c g table :
  reads c = true ->
  run_clause rows c g table
  = (g, flat_map (fun e => snd (step rows c g e)) table).
Proof.
  intros H.
  pose proof (run_clause_reads rows c g table H) as E1.
  pose proof (run_clause_reads_snd rows c g table H) as E2.
  destruct (run_clause rows c g table) as [g1 t1]. simpl in *. congruence.
Qed.

Lemma run_clauses_nil_fst rows q g :
  fst (run_clauses rows q g []) = g.
Proof.
  revert g; induction q as [|c q IH]; intros g; simpl; [reflexivity|].
  apply IH.
Qed.

(** A chain of matches works on each record of the table by itself. *)
Lemma through_app rows ms g t1 t2 :
  forallb is_match ms = true ->
  snd (run_clauses rows ms g (t1 ++ t2))
  = snd (run_clauses rows ms g t1) ++ snd (run_clauses rows ms g t2).
Proof.
  revert t1 t2; induction ms as [|c ms IH]; intros t1 t2 H.
  - reflexivity.
  - simpl in H. apply andb_true_iff in H. destruct H as [H1 H2].
    assert (Rc : reads c = true) by (destruct c; try discriminate; reflexivity).
    cbn [run_clauses]. rewrite !(run_clause_reads_eq rows c g _ Rc).
    rewrite flat_map_app. now apply IH.
Qed.

(** Records that lack a reference do not come through. *)
Lemma through_dangling rows ms g table :
  forallb is_match ms = true ->
  Forall (fun e => complete ms g (erow e) = false) table ->
  snd (run_clauses rows ms g table) = [].
Proof.
  revert table; induction ms as [|c ms IH]; intros table Hm H.
  - destruct table as [|e t]; [reflexivity|].
    inversion H as [|? ? He _]. discriminate He.
  - simpl in Hm. apply andb_true_iff in Hm. destruct Hm as [H1 H2].
    destruct c as [|x l k f|x ps|xs|x l k f|a r t b|x l ps|a t b];
      try discriminate.
    cbn [run_clauses].
    rewrite (run_clause_reads_eq rows (MATCH_node x l k f) g table eq_refl).
    apply IH; [exact H2|].
    apply Forall_forall. intros e' Hin.
    apply in_flat_map in Hin. destruct Hin as (e & He & Hin).
    rewrite Forall_forall in H. specialize (H e He).
    simpl in Hin. apply in_map_iff in Hin. destruct Hin as (i & <- & Hi).
    simpl in H. simpl.
    destruct (find_nodes l k (row_get (erow e) f) g); [contradiction|].
    exact H.
Qed.

Lemma matched_table ms rows g :
  matched ms rows g
  = snd (run_clauses rows ms g (map (fun r => Env r []) rows)).
Proof.
  unfold matched. cbn [run_clauses]. now rewrite run_clause_unwind.
Qed.

Lemma through_filter rs ms g rows :
  forallb is_match ms = true ->
  snd (run_clauses rs ms g (map (fun r => Env r []) rows))
  = snd (run_clauses rs ms g
           (map (fun r => Env r []) (filter (complete ms g) rows))).
Proof.
  intros Hm. induction rows as [|r rows IH]; [reflexivity|].
  change (map (fun r0 => Env r0 []) (r :: rows))
    with ([Env r []] ++ map (fun r0 => Env r0 []) rows).
  rewrite (through_app rs ms g _ _ Hm), IH.
  cbn [filter]. destruct (complete ms g r) eqn:E.
  - change (map (fun r0 => Env r0 []) (r :: filter (complete ms g) rows))
      with ([Env r []]
            ++ map (fun r0 => Env r0 []) (filter (complete ms g) rows)).
    now rewrite (through_app rs ms g _ _ Hm).
  - rewrite (through_dangling rs ms g [Env r []] Hm); [reflexivity|].
    constructor; [exact E|constructor].
Qed.

Lemma matched_filter ms rows g :
  forallb is_match ms = true ->
  matched ms rows g = matched ms (filter (complete ms g) rows) g.
Proof.
  intros Hm. rewrite !matched_table.
  rewrite (run_clauses_rows rows [] ms g _ (is_match_no_unwind ms Hm)).
  rewrite (run_clauses_rows (filter (complete ms g) rows) [] ms g _
             (is_match_no_unwind ms Hm)).
  now apply through_filter.
Qed.

(** A query that unwinds, matches and then writes: what it writes depends
    on the matched records only. *)
Lemma run_query_split ms post rows g :
  forallb is_match ms = true -> forallb no_unwind post = true ->
  run_query (UNWIND_rows :: ms ++ post) rows g
  = fst (run_clauses [] post g (matched ms rows g)).
Proof.
  intros Hm Hp. unfold run_query, matched.
  change (UNWIND_rows :: ms ++ post) with ((UNWIND_rows :: ms) ++ post).
  rewrite run_clauses_app.
  rewrite (run_clauses_reads rows (UNWIND_rows :: ms) g [Env [] []])
    by (simpl; now apply is_match_reads).
  now rewrite (run_clauses_rows rows [] post g _ Hp).
Qed.

Lemma run_query_skips ms post rows g :
  forallb is_match ms = true -> forallb no_unwind post = true ->
  run_query (UNWIND_rows :: ms ++ post) rows g
  = run_query (UNWIND_rows :: ms ++ post) (filter (complete ms g) rows) g.
Proof.
  intros Hm Hp. rewrite !(run_query_split ms post _ g Hm Hp).
  now rewrite (matched_filter ms rows g Hm).
Qed.

Lemma run_query_no_rows q g :
  run_query (UNWIND_rows :: q) [] g = g.
Proof. unfold run_query. simpl. apply run_clauses_nil_fst. Qed.

Lemma filter_none {A : Type} (p : A -> bool) (l : list A) :
  (forall a, In a l -> p a = false) -> filter p l = [].
Proof.
  induction l as [|a l IH]; intros H; simpl; [reflexivity|].
  rewrite (H a) by now left. apply IH. intros b Hb. apply H. now right.
Qed.

(** Batch after batch, as long as the batches before leave the matches as
    they were ([R]). *)
Lemma run_chunks_skips ms post (R : graph -> graph -> Prop) :
  forallb is_match ms = true -> forallb no_unwind post = true ->
  (forall g g' rows,
     R g g' -> R g (run_query (UNWIND_rows :: ms ++ post) rows g')) ->
  (forall g g' r, R g g' -> complete ms g' r = complete ms g r) ->
  forall chs g g', R g g' ->
    run_chunks (UNWIND_rows :: ms ++ post) chs g'
    = run_chunks (UNWIND_rows :: ms ++ post)
                 (map (filter (complete ms g)) chs) g'.
Proof.
  intros Hm Hp Hstep Hsame. unfold run_chunks.
  induction chs as [|ch chs IH]; intros g g' HR; [reflexivity|].
  cbn [map fold_left].
  rewrite (run_query_skips ms post ch g' Hm Hp).
  rewrite (filter_ext (complete ms g') (complete ms g))
    by (intros r; now apply Hsame).
  apply IH. now apply Hstep.
Qed.

Lemma run_chunks_nothing q chs g :
  Forall (fun ch => ch = []) chs ->
  run_chunks (UNWIND_rows :: q) chs g = g.
Proof.
  unfold run_chunks. induction 1 as [|ch chs -> _ IH]; simpl.
  - reflexivity.
  - now rewrite run_query_no_rows.
Qed.

End CypherDangling.

Section Dangling.
Import Memgraph MemgraphRuns MemgraphStore CypherFacts CypherDangling.

(** The nodes a row of a table refers to: the matches of its query. *)
Definition references (t : table) : list clause :=
  filter is_match (query_of t).

Lemma find_from_map {A X : Type} (h : A -> X) (p : X -> bool) (i : nat)
                    (l : list A) :
  find_from p i (map h l) = find_from (fun a => p (h a)) i l.
Proof.
  revert i; induction l as [|a l IH]; intros i; simpl; [reflexivity|].
  now rewrite IH.
Qed.

Lemma find_nodes_kview l k v g :
  find_nodes l k v g = find_from (entry_matches l v) 0 (kview k g).
Proof. unfold find_nodes, kview. now rewrite find_from_map. Qed.

Lemma partsupp_skips chs g :
  run_chunks query_partsupp chs g
  = run_chunks query_partsupp
               (map (filter (complete (references partsupp) g)) chs) g.
Proof.
  set (R := fun g0 g' : graph =>
              kview "partkey" g' = kview "partkey" g0 /\
              kview "suppkey" g' = kview "suppkey" g0).
  apply (run_chunks_skips (references partsupp)
           [MERGE_rel "s" (Some "ps") "SUPPLIES" "p";
            SET "ps" (same ["availqty"; "supplycost"; "comment"])] R).
  - reflexivity.
  - reflexivity.
  - intros g0 g' rows [H1 H2]. split.
    + rewrite <- H1. unfold run_query. now apply run_clauses_quiet.
    + rewrite <- H2. unfold run_query. now apply run_clauses_quiet.
  - intros g0 g' r [H1 H2].
    change (references partsupp)
      with [MATCH_node "p" "Part" "partkey" "partkey";
            MATCH_node "s" "Supplier" "suppkey" "suppkey"].
    unfold complete. cbn [forallb].
    now rewrite !find_nodes_kview, H1, H2.
  - split; reflexivity.
Qed.

Lemma lineitem_skips chs g :
  run_chunks query_lineitem chs g
  = run_chunks query_lineitem
               (map (filter (complete (references lineitem) g)) chs) g.
Proof.
  destruct query_lineitem_creates as [ps Cq].
  apply (run_chunks_skips (references lineitem)
           [CREATE_node "li" "LineItem"
              (same ["orderkey"; "partkey"; "suppkey"; "linenumber";
                     "quantity"; "extendedprice"; "discount"; "tax";
                     "returnflag"; "linestatus"; "shipdate"; "commitdate";
                     "receiptdate"; "shipinstruct"; "shipmode"; "comment"]);
            CREATE_rel "o" "CONTAINS" "li";
            CREATE_rel "li" "OF_PART" "p";
            CREATE_rel "li" "SUPPLIED_BY" "s"] (grown "LineItem")).
  - reflexivity.
  - reflexivity.
  - intros g0 g' rows G. apply grown_trans with g'; [exact G|].
    eexists. split.
    + exact (run_query_creates "LineItem" lineitem_matches ps
               query_lineitem rows g' Cq).
    + apply Forall_forall. intros n Hn. apply in_map_iff in Hn.
      destruct Hn as (e & <- & _). reflexivity.
  - intros g0 g' r G.
    change (references lineitem) with lineitem_matches.
    unfold complete, lineitem_matches. cbn [forallb].
    rewrite (find_nodes_grown "LineItem" "Order" _ _ g0 g' G eq_refl).
    rewrite (find_nodes_grown "LineItem" "Part" _ _ g0 g' G eq_refl).
    now rewrite (find_nodes_grown "LineItem" "Supplier" _ _ g0 g' G eq_refl).
  - apply grown_refl.
Qed.

(** X12.  A row of partsupp or lineitem that refers to a part, a supplier
    or an order the store does not have is skipped by the Memgraph loader
    without an error: the load returns, and the store is what the load of
    the other rows of each batch gives.  When every row refers to
    something missing the store is left exactly as it was. *)
Theorem dangling_rows_are_skipped
    (t : table) (w : world call graph) (data : list record) :
  t = partsupp \/ t = lineitem ->
  frame_of (files w) (path_of t) (columns_of t) = Some data ->
  snd (aload_of store t w) = inr tt /\
  conn (exec (aload_of store t) w)
  = run_chunks (query_of t)
      (map (filter (complete (references t) (conn w))) (chunks 1000 data))
      (conn w) /\
  ((forall row, In row data ->
      complete (references t) (conn w) row = false) ->
   conn (exec (aload_of store t) w) = conn w).
Proof.
  intros Ht Hf.
  assert (Hc : conn (exec (aload_of store t) w)
               = run_chunks (query_of t) (chunks 1000 data) (conn w)).
  { destruct (aload_of_store t w) as [_ ->]. unfold loaded. now rewrite Hf. }
  assert (Hs : run_chunks (query_of t) (chunks 1000 data) (conn w)
               = run_chunks (query_of t)
                   (map (filter (complete (references t) (conn w)))
                        (chunks 1000 data)) (conn w)).
  { destruct Ht as [-> | ->]; [apply partsupp_skips|apply lineitem_skips]. }
  split; [|split].
  - rewrite aload_of_load_table.
    destruct (does_load_table graph store store_reliable (files w)
                (path_of t) (columns_of t) (query_of t) (name_of t) data Hf
                w eq_refl) as (w' & E' & _).
    now rewrite E'.
  - now rewrite Hc.
  - intros Hall. rewrite Hc, Hs.
    assert (Hq : exists q, query_of t = UNWIND_rows :: q)
      by (destruct Ht as [-> | ->]; eexists; reflexivity).
    destruct Hq as [q ->]. apply run_chunks_nothing.
    apply Forall_forall. intros ch Hch. apply in_map_iff in Hch.
    destruct Hch as (ch0 & <- & Hch0). apply filter_none.
    intros r Hr. apply Hall.
    rewrite <- (concat_chunks 1000 data) by lia.
    apply in_concat. eauto.
Qed.
End Dangling.

(** Line items loaded into an empty store: the one row of the small
    database has no order, part or supplier to refer to. *)
Lemma dangling_rows_are_skipped_witness :
  conn (exec (MemgraphStore.aload_of Memgraph.store lineitem)
             (World tiny_files empty_graph [] []))
  = empty_graph.
Proof.
  destruct (dangling_rows_are_skipped lineitem
              (World tiny_files empty_graph [] []) _
              (or_intror eq_refl) eq_refl) as (_ & _ & H).
  apply H. intros row Hin. vm_compute in Hin.
  destruct Hin as [<-|[]]. vm_compute. reflexivity.
Defined.

(* ================================================================== *)
(** * Rows that are merged but whose reference is missing *)

Module CypherUnmatched.
Import CypherFacts CypherCounts CypherDangling.

Lemma run_clause_forall (P Q : env -> Prop) rows c table :
  (forall g e, P e -> Forall Q (snd (step rows c g e))) ->
  forall g, Forall P table -> Forall Q (snd (run_clause rows c g table)).
Proof.
  intros H. induction table as [|e t IH]; intros g Ht; simpl.
  - constructor.
  - inversion Ht as [|? ? He Ht']; subst.
    pose proof (H g e He) as S.
    destruct (step rows c g e) as [g1 es]. simpl in S.
    specialize (IH g1 Ht').
    destruct (run_clause rows c g1 t) as [g2 es']. simpl in *.
    apply Forall_app. now split.
Qed.

Lemma run_clause_merge_rels rows x l k f g table :
  rels (fst (run_clause rows (MERGE_node x l k f) g table)) = rels g.
Proof.
  revert g; induction table as [|e t IH]; intros g; simpl; [reflexivity|].
  destruct (find_nodes l k (row_get (erow e) f) g) as [|i ids].
  - specialize (IH (add_node (Node l [(k, row_get (erow e) f)]) g)).
    destruct (run_clause rows _ _ t) as [g2 es']. exact IH.
  - specialize (IH g).
    destruct (run_clause rows _ g t) as [g2 es']. exact IH.
Qed.

Lemma run_clause_merge_grown rows x l k f g table :
  grown l g (fst (run_clause rows (MERGE_node x l k f) g table)).
Proof.
  revert g; induction table as [|e t IH]; intros g; simpl.
  - apply grown_refl.
  - destruct (find_nodes l k (row_get (erow e) f) g) as [|i ids].
    + specialize (IH (add_node (Node l [(k, row_get (erow e) f)]) g)).
      destruct (run_clause rows _ _ t) as [g2 es']. simpl in *.
      apply grown_trans with (add_node (Node l [(k, row_get (erow e) f)]) g);
        [|exact IH].
      eexists. split; [reflexivity|]. now constructor.
    + specialize (IH g).
      destruct (run_clause rows _ g t) as [g2 es']. exact IH.
Qed.

(** A [SET] on a variable bound to nodes leaves the relationships. *)
Lemma run_clause_set_rels rows x ps g table :
  Forall (fun e => exists i, lookup_var x (evars e) = Some (NodeRef i))
         table ->
  rels (fst (run_clause rows (SET x ps) g table)) = rels g.
Proof.
  revert g; induction table as [|e t IH]; intros g H; simpl; [reflexivity|].
  inversion H as [|? ? [i Hi] Ht]; subst. rewrite Hi.
  match goal with
  | |- context [run_clause rows (SET x ps) ?g1 t] =>
      specialize (IH g1 Ht);
      destruct (run_clause rows (SET x ps) g1 t) as [g2 es']
  end.
  exact IH.
Qed.

(** The queries of nation, supplier, customer and orders: merge the node,
    set its properties, then match the node the row refers to and merge
    the relationship. *)
Definition merge_then_match x l k f ps xs y l' k' f' post : list clause :=
  UNWIND_rows :: MERGE_node x l k f :: SET x ps :: WITH xs
  :: MATCH_node y l' k' f' :: post.

Lemma merge_then_match_run x l k f ps xs y l' k' f' post rows g :
  String.eqb l' l = false ->
  existsb (String.eqb k') (map fst ps) = false ->
  existsb (String.eqb "row") xs = true ->
  forallb node_silent post = true ->
  let g' := run_query (merge_then_match x l k f ps xs y l' k' f' post)
                      rows g in
  (forall v, find_nodes l' k' v g' = find_nodes l' k' v g) /\
  ((forall r, In r rows -> find_nodes l' k' (row_get r f') g = []) ->
   rels g' = rels g).
Proof.
  intros Hl Hk Hrow Hpost. cbv zeta.
  unfold run_query, merge_then_match. cbn [run_clauses].
  rewrite run_clause_unwind. cbn [evars].
  set (T0 := map (fun r => Env r []) rows).
  assert (P0 : Forall (fun e => In (erow e) rows) T0).
  { apply Forall_forall. intros e He. apply in_map_iff in He.
    destruct He as (r & <- & Hr). exact Hr. }
  (* the merge *)
  pose proof (run_clause_merge_rels rows x l k f g T0) as R1.
  pose proof (run_clause_merge_grown rows x l k f g T0) as G1.
  assert (P1 : Forall (fun e => In (erow e) rows /\
                          exists i, lookup_var x (evars e) = Some (NodeRef i))
                      (snd (run_clause rows (MERGE_node x l k f) g T0))).
  { apply (run_clause_forall (fun e => In (erow e) rows)); [|exact P0].
    intros g0 e He. simpl.
    destruct (find_nodes l k (row_get (erow e) f) g0) as [|i ids] eqn:Ef;
      simpl.
    - constructor; [|constructor]. split; [exact He|].
      exists (length (nodes g0)). simpl. now rewrite String.eqb_refl.
    - change (bind_var x (NodeRef i) e :: map _ ids)
        with (map (fun i0 => bind_var x (NodeRef i0) e) (i :: ids)).
      apply Forall_forall. intros e' He'. apply in_map_iff in He'.
      destruct He' as (j & <- & _). split; [exact He|].
      exists j. simpl. now rewrite String.eqb_refl. }
  destruct (run_clause rows (MERGE_node x l k f) g T0) as [g1 T1].
  simpl in R1, G1, P1.
  (* the assignment *)
  pose proof (run_clause_quiet k' rows (SET x ps) g1 T1) as K2.
  simpl in K2. rewrite Hk in K2. specialize (K2 eq_refl).
  assert (R2 : rels (fst (run_clause rows (SET x ps) g1 T1)) = rels g1).
  { apply run_clause_set_rels. apply Forall_forall. intros e He.
    rewrite Forall_forall in P1. now destruct (P1 e He). }
  assert (P2 : Forall (fun e => In (erow e) rows)
                      (snd (run_clause rows (SET x ps) g1 T1))).
  { apply (run_clause_forall
             (fun e => In (erow e) rows /\
                       exists i, lookup_var x (evars e) = Some (NodeRef i)));
      [|exact P1].
    intros g0 e [He [i Hi]]. simpl. rewrite Hi. simpl.
    constructor; [exact He|constructor]. }
  destruct (run_clause rows (SET x ps) g1 T1) as [g2 T2].
  simpl in K2, R2, P2.
  (* the projection *)
  rewrite (run_clause_reads_eq rows (WITH xs) g2 T2 eq_refl).
  set (T3 := flat_map (fun e => snd (step rows (WITH xs) g2 e)) T2).
  assert (P3 : Forall (fun e => In (erow e) rows) T3).
  { apply Forall_forall. intros e He. apply in_flat_map in He.
    destruct He as (e0 & He0 & He). cbn [step snd] in He.
    rewrite Hrow in He. destruct He as [<-|[]]. cbn [erow].
    rewrite Forall_forall in P2. now apply P2. }
  (* the match *)
  rewrite (run_clause_reads_eq rows (MATCH_node y l' k' f') g2 T3 eq_refl).
  assert (Hfind : forall v, find_nodes l' k' v g2 = find_nodes l' k' v g).
  { intros v. rewrite (find_nodes_kview l' k' v g2), K2.
    rewrite <- (find_nodes_kview l' k' v g1).
    now apply find_nodes_grown with l. }
  split.
  - intros v.
    unfold find_nodes at 1.
    rewrite (run_clauses_node_silent rows post g2 _ Hpost).
    apply Hfind.
  - intros Hd.
    assert (E4 : flat_map
                   (fun e => snd (step rows (MATCH_node y l' k' f') g2 e)) T3
                 = []).
    { clear - Hd Hfind P3. induction T3 as [|e t IH]; [reflexivity|].
      inversion P3 as [|? ? He Ht]; subst. cbn [flat_map].
      rewrite IH by exact Ht. simpl.
      rewrite Hfind, (Hd _ He). reflexivity. }
    rewrite E4, run_clauses_nil_fst. congruence.
Qed.

End CypherUnmatched.

Section Unmatched.
Import Memgraph MemgraphRuns MemgraphStore.
Import CypherFacts CypherDangling CypherUnmatched.

Lemma unmatched_chunks x l k f ps xs y l' k' f' post chs g0 :
  String.eqb l' l = false ->
  existsb (String.eqb k') (map fst ps) = false ->
  existsb (String.eqb "row") xs = true ->
  forallb node_silent post = true ->
  (forall ch r, In ch chs -> In r ch ->
     find_nodes l' k' (row_get r f') g0 = []) ->
  forall g,
    (forall v, find_nodes l' k' v g = find_nodes l' k' v g0) ->
    rels (run_chunks (merge_then_match x l k f ps xs y l' k' f' post) chs g)
    = rels g.
Proof.
  intros Hl Hk Hrow Hpost. unfold run_chunks.
  induction chs as [|ch chs IH]; intros Hd g Hg; [reflexivity|].
  cbn [fold_left].
  destruct (merge_then_match_run x l k f ps xs y l' k' f' post ch g
              Hl Hk Hrow Hpost) as [Hf Hr].
  rewrite IH.
  - apply Hr. intros r Hin. rewrite Hg. apply (Hd ch r); [now left|exact Hin].
  - intros c r Hc. apply Hd. now right.
  - intros v. now rewrite Hf.
Qed.

Lemma unmatched_table t x l k f ps xs y l' k' f' post
                      (w : world call graph) data :
  query_of t = merge_then_match x l k f ps xs y l' k' f' post ->
  String.eqb l' l = false ->
  existsb (String.eqb k') (map fst ps) = false ->
  existsb (String.eqb "row") xs = true ->
  forallb node_silent post = true ->
  frame_of (files w) (path_of t) (columns_of t) = Some data ->
  (forall row, In row data ->
     find_nodes l' k' (row_get row f') (conn w) = []) ->
  rels (conn (exec (aload_of store t) w)) = rels (conn w).
Proof.
  intros Hq Hl Hk Hrow Hpost Hf Hd.
  destruct (aload_of_store t w) as [_ ->]. unfold loaded.
  rewrite Hf, Hq.
  apply (unmatched_chunks x l k f ps xs y l' k' f' post
           (chunks 1000 data) (conn w) Hl Hk Hrow Hpost); [|reflexivity].
  intros ch r Hch Hr. apply Hd.
  rewrite <- (concat_chunks 1000 data) by lia. apply in_concat. eauto.
Qed.

(** X13.  A row of nation, supplier, customer or orders that refers to a
    region, a nation or a customer the store does not have is loaded by
    the Memgraph loader without an error: its node is merged, but no
    relationship is written for it.  When every row of the table refers to
    something missing, the load returns, the store has a node for the key
    of every row, and its relationships are exactly those it had. *)
Theorem unmatched_rows_get_no_relationship
    (t : table) (w : world call graph) (data : list record) :
  In t [nation; supplier; customer; orders] ->
  frame_of (files w) (path_of t) (columns_of t) = Some data ->
  (forall row, In row data ->
     complete (references t) (conn w) row = false) ->
  let g' := conn (exec (aload_of store t) w) in
  snd (aload_of store t w) = inr tt /\
  rels g' = rels (conn w) /\
  exists l k,
    In (t, (l, k)) merged_tables /\
    forall row, In row data ->
      existsb (node_matches l k (row_get row k)) (nodes g') = true.
Proof.
  intros Ht Hf Hd g'. split; [|split].
  - rewrite aload_of_load_table.
    destruct (does_load_table graph store store_reliable (files w)
                (path_of t) (columns_of t) (query_of t) (name_of t) data Hf
                w eq_refl) as (w' & E' & _).
    now rewrite E'.
  - unfold g'.
    simpl in Ht. destruct Ht as [<-|[<-|[<-|[<-|[]]]]];
      (eapply unmatched_table;
       [reflexivity|reflexivity|reflexivity|reflexivity|reflexivity
       |exact Hf|]);
      intros row Hrow; specialize (Hd row Hrow);
      unfold complete, references in Hd; simpl in Hd;
      match type of Hd with
      | context [find_nodes ?a ?b ?c ?d] =>
          destruct (find_nodes a b c d); [reflexivity|discriminate Hd]
      end.
  - assert (Hk : exists l k, In (t, (l, k)) merged_tables).
    { simpl in Ht. destruct Ht as [<-|[<-|[<-|[<-|[]]]]];
        eexists; eexists; simpl; tauto. }
    destruct Hk as (l & k & Hin). exists l, k. split; [exact Hin|].
    assert (U : upserts l k k (query_of t) = true).
    { pose proof merged_tables_upsert as Hu.
      rewrite Forall_forall in Hu. apply (Hu _ Hin). }
    intros row Hrow. unfold g'.
    destruct (aload_of_store t w) as [_ ->]. unfold loaded. rewrite Hf.
    rewrite existsb_kview, (run_chunks_upserts l k k _ _ _ U).
    rewrite concat_chunks by lia.
    apply merge_keys_covers.
    now apply (in_map (fun r => row_get r k)).
Qed.
End Unmatched.

(** The nation of the small database loaded into an empty store: the
    Nation node is there, the BELONGS_TO relationship is not. *)
Lemma unmatched_rows_get_no_relationship_witness :
  rels (conn (exec (MemgraphStore.aload_of Memgraph.store nation)
                   (World tiny_files empty_graph [] [])))
  = [] /\
  map nlabel
      (nodes (conn (exec (MemgraphStore.aload_of Memgraph.store nation)
                         (World tiny_files empty_graph [] []))))
  = ["Nation"].
Proof.
  split; [|vm_compute; reflexivity].
  refine (proj1 (proj2 (unmatched_rows_get_no_relationship nation
                          (World tiny_files empty_graph [] []) _
                          (or_introl eq_refl) eq_refl _))).
  intros row Hin. vm_compute in Hin.
  destruct Hin as [<-|[]]. vm_compute. reflexivity.
Defined.

(* ================================================================== *)
(** * The properties the Memgraph loader stores on nodes *)

Module CypherProperties.
Import CypherTyping.

(** The properties a clause writes on nodes, with the label of the node:
    read off the clause and what the query knows of its variables. *)
Definition clause_props (c : clause) (G : ctx) : list (string * string) :=
  match c with
  | MERGE_node _ l k _ => [(l, k)]
  | CREATE_node _ l ps => map (fun p => (l, fst p)) ps
  | SET x ps =>
      match ctx_get x G with
      | Some (Some l) => map (fun p => (l, fst p)) ps
      | _ => []
      end
  | _ => []
  end.

Fixpoint query_props (q : list clause) (G : ctx) : list (string * string) :=
  match q with
  | [] => []
  | c :: q' => clause_props c G ++ query_props q' (ctx_step c G)
  end.

(** Every property of every node is one of [P], for the node's label. *)
Definition props_in (P : list (string * string)) (g : graph) : Prop :=
  forall n k, In n (nodes g) -> In k (map fst (nprops n)) ->
              In (nlabel n, k) P.

Lemma props_in_nodes P g g' :
  nodes g' = nodes g -> props_in P g -> props_in P g'.
Proof. intros E H n k Hn. rewrite E in Hn. now apply H. Qed.

Lemma props_in_add_node P n g :
  (forall k, In k (map fst (nprops n)) -> In (nlabel n, k) P) ->
  props_in P g -> props_in P (add_node n g).
Proof.
  intros Hn H m k Hm Hk. simpl in Hm. apply in_app_or in Hm.
  destruct Hm as [Hm|[<-|[]]]; [now apply H|now apply Hn].
Qed.

Lemma assoc_set_keys k v r k' :
  In k' (map fst (assoc_set k v r)) -> k' = k \/ In k' (map fst r).
Proof.
  induction r as [|[k0 v0] r IH]; simpl.
  - intros [<-|[]]. now left.
  - destruct (String.eqb_spec k k0) as [->|Hk]; simpl.
    + tauto.
    + intros [<-|H]; [tauto|]. destruct (IH H); tauto.
Qed.

Lemma set_props_keys row ps props k :
  In k (map fst (set_props row ps props)) ->
  In k (map fst props) \/ In k (map fst ps).
Proof.
  unfold set_props. revert props.
  induction ps as [|p ps IH]; intros props H; simpl in *; [now left|].
  destruct (IH _ H) as [H1|H1]; [|tauto].
  destruct (assoc_set_keys _ _ _ _ H1) as [->|H2]; tauto.
Qed.

Lemma in_update_nth {A : Type} (f : A -> A) (i : nat) (l : list A) (a : A) :
  In a (update_nth i f l) ->
  In a l \/ exists b, nth_error l i = Some b /\ a = f b.
Proof.
  revert i; induction l as [|b l IH]; intros i H.
  - destruct i; contradiction.
  - destruct i; simpl in H.
    + destruct H as [<-|H]; [right; now exists b|left; now right].
    + destruct H as [<-|H]; [left; now left|].
      destruct (IH i H) as [H1|H1]; [left; now right|now right].
Qed.

Lemma assoc_key k r v : assoc k r = Some v -> In k (map fst r).
Proof.
  induction r as [|[k0 v0] r IH]; simpl; [discriminate|].
  destruct (String.eqb_spec k k0) as [->|Hk]; [now left|].
  intros H. right. now apply IH.
Qed.

(** One clause on one well-typed record. *)
Lemma step_props P rows c g e G :
  env_typed g G e -> incl (clause_props c G) P ->
  props_in P g -> props_in P (fst (step rows c g e)).
Proof.
  intros He Hc Hg. destruct c; simpl in *; try exact Hg.
  - (* MERGE node *)
    destruct (find_nodes l k (row_get (erow e) f) g); simpl; [|exact Hg].
    apply props_in_add_node; [|exact Hg].
    simpl. intros k0 [<-|[]]. apply Hc. now left.
  - (* SET *)
    pose proof (lookup_typed g G e x He) as Tx.
    destruct (lookup_var x (evars e)) as [[i|i]|]; simpl; try exact Hg.
    destruct Tx as (l & Gx & Lx). rewrite Gx in Hc.
    intros n k Hn Hk. simpl in Hn.
    destruct (in_update_nth _ _ _ _ Hn) as [H1|(b & Hb & ->)];
      [now apply Hg|].
    simpl in *.
    assert (Hl : nlabel b = l).
    { unfold label_at in Lx. rewrite Hb in Lx. simpl in Lx. congruence. }
    destruct (set_props_keys _ _ _ _ Hk) as [H1|H1].
    + apply Hg; [|exact H1]. now apply nth_error_In with i.
    + apply Hc. rewrite Hl. apply in_map_iff in H1.
      destruct H1 as (p & <- & Hp).
      now apply (in_map (fun p0 => (l, fst p0))).
  - (* MERGE relationship *)
    destruct (lookup_var a (evars e)) as [[i|i]|]; try exact Hg.
    destruct (lookup_var b (evars e)) as [[j|j]|]; try exact Hg.
    destruct (find_rels i t j g); exact Hg.
  - (* CREATE node *)
    apply props_in_add_node; [|exact Hg].
    simpl. intros k Hk. apply Hc. unfold props_of in Hk.
    rewrite map_map in Hk. simpl in Hk. apply in_map_iff in Hk.
    destruct Hk as (p & <- & Hp).
    now apply (in_map (fun p0 => (l, fst p0))).
  - (* CREATE relationship *)
    destruct (lookup_var a (evars e)) as [[i|i]|]; try exact Hg.
    destruct (lookup_var b (evars e)) as [[j|j]|]; exact Hg.
Qed.

Lemma run_clause_props P rows c g table G :
  Forall (env_typed g G) table -> incl (clause_props c G) P ->
  props_in P g -> props_in P (fst (run_clause rows c g table)).
Proof.
  intros Ht Hc. revert g Ht; induction table as [|e t IH]; intros g Ht Hg.
  - exact Hg.
  - inversion Ht as [|? ? He Ht']; subst. simpl.
    pose proof (step_props P rows c g e G He Hc Hg) as S.
    destruct (step_typed rows c g e G He) as (K1 & _ & _).
    destruct (step rows c g e) as [g1 es]. simpl in S, K1.
    assert (Ht1 : Forall (env_typed g1 G) t).
    { apply Forall_forall. intros e' H. rewrite Forall_forall in Ht'.
      apply env_typed_keeps with g; auto. }
    specialize (IH g1 Ht1 S).
    destruct (run_clause rows c g1 t) as [g2 es']. exact IH.
Qed.

Lemma run_clauses_props P rows q g table G :
  Forall (env_typed g G) table -> incl (query_props q G) P ->
  props_in P g -> props_in P (fst (run_clauses rows q g table)).
Proof.
  revert g table G; induction q as [|c q IH]; intros g table G Ht Hq Hg.
  - exact Hg.
  - simpl in Hq. simpl.
    assert (Hc : incl (clause_props c G) P)
      by (intros a Ha; apply Hq; apply in_or_app; now left).
    assert (Hq' : incl (query_props q (ctx_step c G)) P)
      by (intros a Ha; apply Hq; apply in_or_app; now right).
    pose proof (run_clause_props P rows c g table G Ht Hc Hg) as S.
    destruct (run_clause_typed rows c g table G Ht) as (_ & E1 & _).
    destruct (run_clause rows c g table) as [g1 t1]. simpl in S, E1.
    now apply IH with (ctx_step c G).
Qed.

(** A query stores on a node only the properties it names for the node's
    label. *)
Lemma run_query_props P q rows g :
  incl (query_props q []) P -> props_in P g ->
  props_in P (run_query q rows g).
Proof.
  intros Hq Hg. unfold run_query. apply run_clauses_props with []; auto.
  constructor; [constructor|constructor].
Qed.

(** A property that is not stored for a label matches no node. *)
Lemma find_nodes_not_stored P l p v g :
  props_in P g -> ~ In (l, p) P -> find_nodes l p v g = [].
Proof.
  intros Hg Hn. unfold find_nodes. apply CypherFacts.find_from_none.
  intros n Hin. unfold node_matches.
  destruct (String.eqb_spec (nlabel n) l) as [El|]; [|reflexivity].
  destruct (assoc p (nprops n)) as [v'|] eqn:E; [|reflexivity].
  exfalso. apply Hn. rewrite <- El. apply (Hg n p Hin).
  now apply assoc_key with v'.
Qed.

End CypherProperties.

Section Maintains.
Variables (C B : Type).
Variable respond : B -> C -> B * reply.
Variable I : B -> Prop.

(** [m] keeps the store within [I], whether it returns or raises. *)
Definition maintains {A : Type} (m : M C B A) : Prop :=
  forall w, I (conn w) -> I (conn (fst (m w))).

Lemma maintains_ret {A : Type} (a : A) : maintains (ret a).
Proof. intros w H. exact H. Qed.

Lemma maintains_print (s : string) : maintains (print s).
Proof. intros w H. exact H. Qed.

Lemma maintains_bind {A X : Type} (m : M C B A) (k : A -> M C B X) :
  maintains m -> (forall a, maintains (k a)) -> maintains (bind m k).
Proof.
  intros Hm Hk w H. unfold bind. specialize (Hm w H).
  destruct (m w) as [w1 [e|a]]; [exact Hm|]. now apply Hk.
Qed.

Lemma maintains_request (c : C) :
  (forall b, I b -> I (fst (respond b c))) -> maintains (request respond c).
Proof.
  intros Hc w H. unfold request. specialize (Hc _ H).
  destruct (respond (conn w) c) as [b' [v|e]]; exact Hc.
Qed.

Lemma maintains_for {X : Type} (xs : list X) (f : X -> M C B unit) :
  (forall x, In x xs -> maintains (f x)) -> maintains (for_ xs f).
Proof.
  induction xs as [|x xs IH]; intros H; simpl.
  - apply maintains_ret.
  - apply maintains_bind; [apply H; now left|].
    intros _. apply IH. intros y Hy. apply H. now right.
Qed.

Lemma maintains_try {A : Type} (m : M C B A) (h : exn -> M C B A) :
  maintains m -> (forall e, maintains (h e)) -> maintains (try_except m h).
Proof.
  intros Hm Hh w H. unfold try_except. specialize (Hm w H).
  destruct (m w) as [w1 [e|a]]; [now apply Hh|exact Hm].
Qed.
End Maintains.

Arguments maintains {C B} I {A} m.

Section StoredProperties.
Import Memgraph MemgraphRuns MemgraphStore CypherFacts CypherProperties.

(** The properties the eight queries store, with the label they store them
    on. *)
Definition loader_props : list (string * string) :=
  flat_map (fun t => query_props (query_of t) []) load_order.

Definition stored (l p : string) : bool :=
  existsb (fun q => String.eqb (fst q) l && String.eqb (snd q) p)
          loader_props.

(** The indices on a property that no query stores for the label. *)
Definition unused_indices : list stmt :=
  filter (fun s => match s with
                   | CreateIndex l p => negb (stored l p)
                   | _ => false
                   end) indices.

Lemma stored_false l p : stored l p = false -> ~ In (l, p) loader_props.
Proof.
  unfold stored. intros H Hin.
  assert (E : existsb (fun q => String.eqb (fst q) l && String.eqb (snd q) p)
                      loader_props = true).
  { apply existsb_exists. exists (l, p). split; [exact Hin|].
    simpl. now rewrite !String.eqb_refl. }
  congruence.
Qed.

Lemma loaded_props F t g :
  props_in loader_props g -> props_in loader_props (loaded F t g).
Proof.
  intros Hg. unfold loaded.
  destruct (frame_of F (path_of t) (columns_of t)) as [data|]; [|exact Hg].
  unfold run_chunks. revert g Hg.
  induction (chunks 1000 data) as [|ch chs IH]; intros g Hg; [exact Hg|].
  simpl. apply IH. apply run_query_props; [|exact Hg].
  intros a Ha. unfold loader_props. apply in_flat_map.
  exists t. split; [destruct t; simpl; tauto|exact Ha].
Qed.

Lemma maintains_aload_of t :
  maintains (props_in loader_props) (aload_of store t).
Proof.
  intros w H. destruct (aload_of_store t w) as [_ E].
  unfold exec in E. rewrite E. now apply loaded_props.
Qed.

Lemma maintains_rest :
  maintains (props_in loader_props)
            (bind (setup store)
                  (fun _ => bind (aload store) (fun _ => close store))).
Proof.
  apply maintains_bind; [|intros _; apply maintains_bind].
  - unfold setup, setup_indices. apply maintains_for. intros s Hs.
    apply maintains_try; [|intros e; apply maintains_print].
    apply maintains_bind; [|intros _; apply maintains_ret].
    apply maintains_request. intros g Hg.
    simpl in Hs. repeat destruct Hs as [<-|Hs]; try contradiction; exact Hg.
  - unfold aload.
    apply maintains_bind; [apply maintains_print|intros _].
    apply maintains_bind; [apply (maintains_aload_of region)|intros _].
    apply maintains_bind; [apply (maintains_aload_of nation)|intros _].
    apply maintains_bind; [apply (maintains_aload_of supplier)|intros _].
    apply maintains_bind; [apply (maintains_aload_of customer)|intros _].
    apply maintains_bind; [apply (maintains_aload_of part)|intros _].
    apply maintains_bind; [apply (maintains_aload_of partsupp)|intros _].
    apply maintains_bind; [apply (maintains_aload_of orders)|intros _].
    apply maintains_bind; [apply (maintains_aload_of lineitem)|intros _].
    apply maintains_print.
  - intros _. unfold close.
    apply maintains_bind; [|intros _; apply maintains_ret].
    apply maintains_request. intros g Hg. exact Hg.
Qed.

(** X14.  After a run of the Memgraph [main], whatever the store held
    before and whether or not the tables could be read, every node has
    only properties that one of the eight queries stores for its label;
    a load step alone keeps it so.  Four of the thirteen indices of
    [setup_indices] are on a property that no query stores for the label,
    the foreign keys [Customer(nationkey)], [Supplier(nationkey)],
    [Nation(regionkey)] and [Order(custkey)]: a match on such a label and
    property finds no node. *)
Theorem indices_on_properties_never_stored (w : world call graph) :
  let g := conn (exec (main store) w) in
  props_in loader_props g /\
  unused_indices
  = [ CreateIndex "Customer" "nationkey";
      CreateIndex "Supplier" "nationkey";
      CreateIndex "Nation" "regionkey";
      CreateIndex "Order" "custkey" ] /\
  (forall l p v, In (CreateIndex l p) unused_indices ->
     find_nodes l p v g = []) /\
  (forall t w', props_in loader_props (conn w') ->
     props_in loader_props (conn (exec (aload_of store t) w'))).
Proof.
  intros g.
  assert (Hg : props_in loader_props g).
  { unfold g, exec, main. unfold bind at 1.
    change (connect store w)
      with (answered w Connect (conn w) (Ok RNone), @inr exn unit tt).
    cbv iota beta. unfold bind at 1.
    change (clear store (answered w Connect (conn w) (Ok RNone)))
      with (answered (answered w Connect (conn w) (Ok RNone))
                     (Execute DetachDeleteAll None) empty_graph (Ok RNone),
            @inr exn unit tt).
    cbv iota beta. apply maintains_rest.
    intros n k []. }
  split; [exact Hg|]. split; [vm_compute; reflexivity|]. split.
  - intros l p v Hin. apply find_nodes_not_stored with loader_props;
      [exact Hg|].
    apply stored_false. unfold unused_indices in Hin.
    apply filter_In in Hin. destruct Hin as [_ Hs].
    now apply negb_true_iff in Hs.
  - intros t w' Hw'. apply (maintains_aload_of t w' Hw').
Qed.
End StoredProperties.

(* ================================================================== *)
(** * Where the edge records point *)

Module ArangoReferences.
Import Arango ArangoRuns ArangoSteps ArangoDocuments.

(** The handle [collection/_key] under which the vertex record of a row is
    stored. *)
Definition handle (t : table) (row : record) : value :=
  VStr (fst (vertex_of t) ++ "/"
        ++ str (row_get (snd (vertex_of t) row) "_key")).

(** The foreign keys of the loader: the table of the row, the position of
    the edge among the edges of that table, the column that refers, the
    table referred to and its key column, and whether the edge starts at
    the row's own record. *)
Definition foreign_keys
  : list (table * nat * string * table * string * bool) :=
  [ (nation, 0, "n_regionkey", region, "r_regionkey", true);
    (supplier, 0, "s_nationkey", nation, "n_nationkey", true);
    (customer, 0, "c_nationkey", nation, "n_nationkey", true);
    (partsupp, 0, "ps_partkey", part, "p_partkey", true);
    (partsupp, 1, "ps_suppkey", supplier, "s_suppkey", true);
    (orders, 0, "o_custkey", customer, "c_custkey", false);
    (lineitem, 0, "l_orderkey", orders, "o_orderkey", false);
    (lineitem, 1, "l_partkey", part, "p_partkey", true);
    (lineitem, 2, "l_suppkey", supplier, "s_suppkey", true) ].

(** X15.  Every edge record is tied to the vertex record of its own row:
    one end is the handle of that record.  Its other end is the handle of
    the vertex record of any row of the table referred to whose key is the
    value of the foreign key, so an edge resolves whenever the row it
    refers to has been loaded.  Every edge of every table is listed: the
    loader writes no edge that is not a foreign key of the row.  Customer
    to order and order to line item start at the row referred to; all
    other edges start at the row's own record. *)
Theorem edges_point_at_vertex_records :
  (forall t i fk t' pk own row row' e,
     In (t, i, fk, t', pk, own) foreign_keys ->
     nth_error (edges_of t) i = Some e ->
     row_get row fk = row_get row' pk ->
     let d := snd e row in
     if own
     then row_get d "_from" = handle t row /\
          row_get d "_to" = handle t' row'
     else row_get d "_from" = handle t' row' /\
          row_get d "_to" = handle t row)
  /\
  (forall t, length (edges_of t)
             = length (filter (fun k => match k with
                                        | (t0, _, _, _, _, _) =>
                                            Nat.eqb (table_index t0)
                                                    (table_index t)
                                        end) foreign_keys)).
Proof.
  split.
  - intros t i fk t' pk own row row' e Hin He Hk.
    simpl in Hin.
    repeat (destruct Hin as [Hin|Hin];
            [injection Hin as <- <- <- <- <- <-;
             simpl in He; injection He as <-;
             unfold handle; cbn -[row_get str String.append];
             unfold nation_region_edge, supplier_nation_edge,
               customer_nation_edge, partsupp_part_edge,
               partsupp_supplier_edge, customer_orders_edge,
               order_lineitems_edge, lineitem_part_edge,
               lineitem_supplier_edge, edge_of, region_doc, nation_doc,
               supplier_doc, customer_doc, part_doc, partsupp_doc,
               order_doc, lineitem_doc, doc_of;
             cbn [row_get assoc String.eqb Ascii.eqb Bool.eqb str];
             try rewrite Hk; split; reflexivity|]).
    contradiction.
  - intros t. destruct t; reflexivity.
Qed.

End ArangoReferences.

Lemma edges_point_at_vertex_records_witness :
  let row := [("n_nationkey", VInt 7); ("n_name", VStr "GERMANY");
              ("n_regionkey", VInt 3); ("n_comment", VStr "blithely")] in
  let row' := [("r_regionkey", VInt 3); ("r_name", VStr "EUROPE");
               ("r_comment", VStr "ly final")] in
  row_get (Arango.nation_region_edge row) "_from" = VStr "nation/7" /\
  row_get (Arango.nation_region_edge row) "_to"
  = ArangoReferences.handle region row'.
Proof.
  exact (proj1 ArangoReferences.edges_point_at_vertex_records
           nation 0 "n_regionkey" region "r_regionkey" true
           [("n_nationkey", VInt 7); ("n_name", VStr "GERMANY");
            ("n_regionkey", VInt 3); ("n_comment", VStr "blithely")]
           [("r_regionkey", VInt 3); ("r_name", VStr "EUROPE");
            ("r_comment", VStr "ly final")]
           ("nation_region", Arango.nation_region_edge)
           (or_introl eq_refl) eq_refl eq_refl).
Defined.

(* ================================================================== *)
(** * What a load leaves in place *)

Section Monotone.
Import Memgraph MemgraphRuns MemgraphStore CypherFacts CypherTyping.

Lemma keeps_counts g g' :
  keeps g g' ->
  node_count g <= node_count g' /\ length (rels g) <= length (rels g').
Proof.
  intros [KL KR]. unfold node_count. split.
  - destruct (Nat.le_gt_cases (length (nodes g)) (length (nodes g')))
      as [H|H]; [exact H|exfalso].
    destruct (nth_error (nodes g) (length (nodes g'))) as [n|] eqn:E.
    + specialize (KL (length (nodes g')) (nlabel n)).
      unfold label_at in KL. rewrite E in KL. specialize (KL eq_refl).
      rewrite (proj2 (nth_error_None (nodes g') _) (Nat.le_refl _)) in KL.
      discriminate.
    + apply nth_error_None in E. lia.
  - destruct (Nat.le_gt_cases (length (rels g)) (length (rels g')))
      as [H|H]; [exact H|exfalso].
    destruct (nth_error (rels g) (length (rels g'))) as [r|] eqn:E.
    + destruct (KR _ _ E) as (r' & E' & _).
      rewrite (proj2 (nth_error_None (rels g') _) (Nat.le_refl _)) in E'.
      discriminate.
    + apply nth_error_None in E. lia.
Qed.

Lemma loaded_keeps F t g : keeps g (loaded F t g).
Proof.
  unfold loaded.
  destruct (frame_of F (path_of t) (columns_of t)) as [data|];
    [|apply keeps_refl].
  apply run_chunks_typed.
Qed.

Lemma maintains_keeps_aload_of g0 t :
  maintains (keeps g0) (aload_of store t).
Proof.
  intros w H. destruct (aload_of_store t w) as [_ E].
  unfold exec in E. rewrite E.
  apply keeps_trans with (conn w); [exact H|apply loaded_keeps].
Qed.

(** X16.  On the Memgraph store a load only adds and overwrites.  After
    [aload], complete or cut short by a table that cannot be read, every
    node the store had is still at its place with its label, and every
    relationship it had still joins the same two nodes with the same
    type; so there are at least as many nodes and relationships as
    before.  The same holds for the index statements of [setup].  Only
    [clear] removes anything. *)
Theorem load_never_removes (w : world call graph) :
  keeps (conn w) (conn (exec (aload store) w)) /\
  keeps (conn w) (conn (exec (setup store) w)) /\
  node_count (conn w) <= node_count (conn (exec (aload store) w)) /\
  length (rels (conn w)) <= length (rels (conn (exec (aload store) w))) /\
  conn (exec (clear store) w) = empty_graph.
Proof.
  assert (Ha : keeps (conn w) (conn (exec (aload store) w))).
  { assert (M : maintains (keeps (conn w)) (aload store));
      [|exact (M w (keeps_refl (conn w)))].
    unfold aload.
    apply maintains_bind; [apply maintains_print|intros _].
    apply maintains_bind;
      [apply (maintains_keeps_aload_of _ region)|intros _].
    apply maintains_bind;
      [apply (maintains_keeps_aload_of _ nation)|intros _].
    apply maintains_bind;
      [apply (maintains_keeps_aload_of _ supplier)|intros _].
    apply maintains_bind;
      [apply (maintains_keeps_aload_of _ customer)|intros _].
    apply maintains_bind;
      [apply (maintains_keeps_aload_of _ part)|intros _].
    apply maintains_bind;
      [apply (maintains_keeps_aload_of _ partsupp)|intros _].
    apply maintains_bind;
      [apply (maintains_keeps_aload_of _ orders)|intros _].
    apply maintains_bind;
      [apply (maintains_keeps_aload_of _ lineitem)|intros _].
    apply maintains_print. }
  split; [exact Ha|]. split; [|split; [|split]].
  - assert (M : maintains (keeps (conn w)) (setup store));
      [|exact (M w (keeps_refl (conn w)))].
    unfold setup, setup_indices. apply maintains_for. intros s Hs.
    apply maintains_try; [|intros e; apply maintains_print].
    apply maintains_bind; [|intros _; apply maintains_ret].
    apply maintains_request. intros g Hg.
    simpl in Hs. repeat destruct Hs as [<-|Hs]; try contradiction; exact Hg.
  - apply (keeps_counts _ _ Ha).
  - apply (keeps_counts _ _ Ha).
  - reflexivity.
Qed.
End Monotone.

(* ================================================================== *)
(** * What the batch loops print *)

Section Says.
Variables (C B : Type).
Variable respond : B -> C -> B * reply.
Hypothesis R : reliable respond.

(** [m] returns, having printed exactly [msgs]. *)
Definition says (m : M C B unit) (msgs : list string) : Prop :=
  forall w, exists w', m w = (w', inr tt) /\ out w' = out w ++ msgs.

Lemma says_ret : says (ret tt) [].
Proof. intros w. exists w. now rewrite app_nil_r. Qed.

Lemma says_print (s : string) : says (print s) [s].
Proof. intros w. eexists. split; reflexivity. Qed.

Lemma says_bind (m m' : M C B unit) msgs msgs' :
  says m msgs -> says m' msgs' ->
  says (bind m (fun _ => m')) (msgs ++ msgs').
Proof.
  intros Hm Hm' w. destruct (Hm w) as (w1 & E1 & O1).
  destruct (Hm' w1) as (w2 & E2 & O2).
  exists w2. unfold bind. rewrite E1, E2. split; [reflexivity|].
  now rewrite O2, O1, app_assoc.
Qed.

Lemma says_request (c : C) (m : M C B unit) msgs :
  says m msgs -> says (bind (request respond c) (fun _ => m)) msgs.
Proof.
  intros Hm w. unfold bind, request.
  destruct (R (conn w) c) as [v Hv].
  destruct (respond (conn w) c) as [b' r]. simpl in Hv. subst r.
  match goal with
  | |- context [m ?w0] => destruct (Hm w0) as (w1 & E1 & O1)
  end.
  exists w1. split; [exact E1|exact O1].
Qed.

Lemma says_call (c : C) (m : M C B unit) msgs :
  says m msgs ->
  says (bind (bind (request respond c) (fun _ => ret tt)) (fun _ => m)) msgs.
Proof.
  intros Hm. change msgs with ([] ++ msgs).
  apply says_bind; [|exact Hm]. apply says_request. apply says_ret.
Qed.

Lemma says_for {X : Type} (xs : list X) (f : X -> M C B unit)
               (msg : X -> string) :
  (forall x, In x xs -> says (f x) [msg x]) ->
  says (for_ xs f) (map msg xs).
Proof.
  induction xs as [|x xs IH]; intros H; simpl.
  - apply says_ret.
  - change (msg x :: map msg xs) with ([msg x] ++ map msg xs).
    apply says_bind; [apply H; now left|].
    apply IH. intros y Hy. apply H. now right.
Qed.

Lemma says_for_map {X Y : Type} (g : X -> Y) (xs : list X)
                   (f : Y -> M C B unit) (msg : Y -> string) msgs :
  msgs = map (fun x => msg (g x)) xs ->
  (forall y, says (f y) [msg y]) ->
  says (for_ (map g xs) f) msgs.
Proof.
  intros -> H. rewrite <- (map_map g msg). apply says_for. auto.
Qed.

Lemma says_floordiv (a b : Z) (k : Z -> M C B unit) msgs :
  b <> 0%Z -> says (k (a / b)%Z) msgs -> says (bind (floordiv a b) k) msgs.
Proof.
  intros Hb Hk w. unfold bind, floordiv.
  destruct (Z.eqb_spec b 0); [contradiction|]. apply Hk.
Qed.
End Says.

Arguments says {C B} m msgs.

Section Progress.
Variables B1 B2 : Type.
Variable mg : B1 -> Memgraph.call -> B1 * reply.
Variable ar : B2 -> Arango.call -> B2 * reply.
Hypothesis Rm : reliable mg.
Hypothesis Ra : reliable ar.

Lemma seq_from_one {X : Type} (f : nat -> X) (n : nat) :
  map (fun j => f (S j)) (seq 0 n) = map f (seq 1 n).
Proof. now rewrite <- seq_shift, map_map. Qed.

Lemma range_len_unit (c : nat) :
  Z.to_nat (range_len 0 (Z.of_nat c) 1) = c.
Proof.
  unfold range_len. change (0 <? 1)%Z with true. cbv iota.
  destruct (Z.ltb_spec 0 (Z.of_nat c)); [rewrite Z.div_1_r|]; lia.
Qed.

(** X17.  With a store that answers every call and a batch size [N > 0],
    the batch loops report every batch, once and in order, numbered from 1
    to the number of batches [T = ceil (R / N)], and give [T] as the
    total: [batch_load] prints ["<table>: Loaded batch k of T"] for
    [k = 1 .. T] and nothing else; the lineitem loop of the ArangoDB
    loader prints the opening line with [R], [T] and [N], then
    ["Completed batch k/T (n records)"] with [n] the size of the [k]-th
    batch, then the closing line with [R]. *)
Theorem batch_loops_report_every_batch
    (query : list clause) (data : list record) (table_name : string)
    (N : Z) :
  (0 < N)%Z ->
  let T := ceil_div (length data) (Z.to_nat N) in
  says (Memgraph.batch_load mg query data table_name N)
       (map (fun k => (table_name ++ ": Loaded batch " ++ showZ (Z.of_nat k)
                       ++ " of " ++ showZ (Z.of_nat T))%string)
            (seq 1 T))
  /\
  says (Arango.lineitem_batches ar N data)
       ([("Processing " ++ showZ (Z.of_nat (length data))
          ++ " lineitem records in " ++ showZ (Z.of_nat T)
          ++ " batches of " ++ showZ N)%string]
        ++ map (fun k => ("Completed batch " ++ showZ (Z.of_nat k) ++ "/"
                          ++ showZ (Z.of_nat T) ++ " ("
                          ++ showZ (Z.of_nat
                               (length (chunk_at (Z.to_nat N) data (k - 1))))
                          ++ " records)")%string)
               (seq 1 T)
        ++ [("Loaded " ++ showZ (Z.of_nat (length data))
             ++ " lineitem records and all relationships successfully!")
            %string]).
Proof.
  intros HN T. split.
  - unfold Memgraph.batch_load. cbv zeta.
    apply says_floordiv; [lia|].
    rewrite (total_batches_ceil (length data) N HN). fold T.
    rewrite <- seq_from_one.
    assert (E : py_range 0 (Z.of_nat (length data)) N
                = map (fun j => (Z.of_nat j * N)%Z) (seq 0 T)).
    { unfold py_range. rewrite (range_len_ceil _ _ HN). fold T.
      apply map_ext. intros j. lia. }
    rewrite E.
    apply (says_for_map _ _ (fun j => (Z.of_nat j * N)%Z) (seq 0 T) _
             (fun i => (table_name ++ ": Loaded batch "
                        ++ showZ (i / N + 1) ++ " of "
                        ++ showZ (Z.of_nat T))%string)).
    + apply map_ext. intros j. cbv beta.
      replace (Z.of_nat j * N / N + 1)%Z with (Z.of_nat (S j));
        [reflexivity|].
      rewrite Z.div_mul by lia. lia.
    + intros i.
      apply says_request; [exact Rm|].
      apply says_request; [exact Rm|].
      apply says_print.
  - unfold Arango.lineitem_batches. cbv zeta.
    apply says_floordiv; [lia|].
    rewrite (total_batches_ceil (length data) N HN). fold T.
    apply says_bind; [apply says_print|].
    apply says_bind; [|apply says_print].
    rewrite <- seq_from_one.
    assert (E : py_range 0 (Z.of_nat T) 1 = map Z.of_nat (seq 0 T)).
    { unfold py_range. rewrite range_len_unit.
      apply map_ext. intros j. lia. }
    rewrite E.
    assert (Hc : forall j, In j (seq 0 T) ->
               py_slice data (Z.of_nat j * N)
                 (Z.min ((Z.of_nat j + 1) * N) (Z.of_nat (length data)))
               = chunk_at (Z.to_nat N) data j).
    { intros j Hj. apply in_seq in Hj.
      rewrite py_slice_min by nia.
      replace (Z.of_nat j * N)%Z with (0 + Z.of_nat j * N)%Z at 1 by lia.
      replace ((Z.of_nat j + 1) * N)%Z
        with (0 + Z.of_nat j * N + N)%Z by lia.
      apply py_slice_chunk; [exact HN|].
      destruct (ceil_div_bounds (length data) (Z.to_nat N) ltac:(lia))
        as [B1' B2']. fold T in B1', B2'. nia. }
    apply (says_for_map _ _ Z.of_nat (seq 0 T) _
             (fun b => ("Completed batch " ++ showZ (b + 1) ++ "/"
                        ++ showZ (Z.of_nat T) ++ " ("
                        ++ Arango.count
                             (map Arango.lineitem_doc
                                (py_slice data (b * N)
                                   (Z.min ((b + 1) * N)
                                          (Z.of_nat (length data)))))
                        ++ " records)")%string)).
    + apply map_ext_in. intros j Hj. cbv beta.
      rewrite (Hc j Hj). unfold Arango.count. rewrite length_map.
      replace (Z.of_nat j + 1)%Z with (Z.of_nat (S j)) by lia.
      replace (S j - 1) with j by lia.
      reflexivity.
    + intros b. unfold Arango.insert_many.
      repeat (apply says_call; [exact Ra|]).
      apply says_print.
Qed.
End Progress.

(** Five rows in batches of two: three batches, the last of one row. *)
Lemma batch_loops_report_every_batch_witness :
  says (Memgraph.batch_load mute Memgraph.query_region five_rows "Region" 2)
       ["Region: Loaded batch 1 of 3"; "Region: Loaded batch 2 of 3";
        "Region: Loaded batch 3 of 3"]
  /\
  says (Arango.lineitem_batches mute 2 five_rows)
       ["Processing 5 lineitem records in 3 batches of 2";
        "Completed batch 1/3 (2 records)"; "Completed batch 2/3 (2 records)";
        "Completed batch 3/3 (1 records)";
        "Loaded 5 lineitem records and all relationships successfully!"].
Proof.
  exact (batch_loops_report_every_batch unit unit mute mute
           mute_reliable mute_reliable Memgraph.query_region five_rows
           "Region" 2%Z eq_refl).
Defined.

(* ================================================================== *)
(** * The query runner ([src/neo4jdb/main.py]) *)

Section Blocks.
Variables (C B : Type).

(** [try: m  finally: fin], which is also how an [async with] block is
    left: [fin] runs whether [m] returns or raises; an exception of [fin]
    replaces the outcome of [m]. *)
Definition finally_ {A X : Type} (m : M C B A) (fin : M C B X) : M C B A :=
  fun w =>
    let (w1, r) := m w in
    match fin w1 with
    | (w2, inr _) => (w2, r)
    | (w2, inl e) => (w2, inl e)
    end.

Lemma only_finally (allowed : origin C -> bool) {A X : Type}
                   (m : M C B A) (fin : M C B X) :
  only allowed m -> only allowed fin -> only allowed (finally_ m fin).
Proof.
  intros Hm Hf w. unfold finally_.
  destruct (Hm w) as (tr1 & T1 & O1).
  destruct (m w) as [w1 r]. simpl in T1.
  destruct (Hf w1) as (tr2 & T2 & O2).
  exists (tr1 ++ tr2). split.
  - destruct (fin w1) as [w2 [e|x]]; simpl in *;
      now rewrite T2, T1, app_assoc.
  - apply Forall_app. now split.
Qed.

(** [m] always returns, after exactly the store calls [cs]. *)
Definition always (m : M C B unit) (cs : list C) : Prop :=
  forall w, exists w', runs m w w' cs.

Lemma always_seq (m m' : M C B unit) cs cs' :
  always m cs -> always m' cs' ->
  always (bind m (fun _ => m')) (cs ++ cs').
Proof.
  intros Hm Hm' w. destruct (Hm w) as (w1 & R1).
  destruct (Hm' w1) as (w2 & R2). exists w2.
  now apply runs_seq with w1.
Qed.
End Blocks.

Arguments finally_ {C B A X} m fin.
Arguments always {C B} m cs.

Module Neo4j.

(** What the runner asks of the [neo4j] driver. *)
Inductive call : Type :=
| Driver                     (* AsyncGraphDatabase.driver *)
| Session                    (* driver.session(...), entering the block *)
| Run (query : string)       (* session.run *)
| Data                       (* result.data *)
| SessionClose               (* leaving the block *)
| DriverClose.               (* driver.close *)

Definition query_a1 : string :=
  "
        MATCH (c:Customer)
        WHERE c.mktsegment = 'BUILDING'
        RETURN c.name, c.address, c.phone
        LIMIT 10
    ".

Definition query_a2 : string :=
  "
        MATCH (p:Part)
        WHERE p.type CONTAINS 'STEEL' AND p.size > 25
        RETURN p.name, p.type, p.size, p.retailprice
        LIMIT 10
    ".

Definition query_a3 : string :=
  "
        MATCH (s:Supplier)
        WHERE s.suppkey IN [1, 10, 100]
        RETURN s.suppkey, s.name, s.address
    ".

Definition query_b1 : string :=
  "
        MATCH (c:Customer)-[:LOCATED_IN]->(n:Nation)
        RETURN n.name as nation, COUNT(c) as customer_count
        ORDER BY customer_count DESC
        LIMIT 5
    ".

Definition query_b2 : string :=
  "
        MATCH (o:Order)
        RETURN MAX(o.totalprice) as max_order_value,
               MIN(o.totalprice) as min_order_value,
               AVG(o.totalprice) as avg_order_value
    ".

Definition query_c1 : string :=
  "
        MATCH (c:Customer)-[:LOCATED_IN]->(n:Nation)
        WHERE c.mktsegment = 'AUTOMOBILE'
        RETURN c.name, n.name as nation
        LIMIT 10
    ".

Definition query_c2 : string :=
  "
        MATCH (o:Order)<-[:PLACED]-(c:Customer)
        WHERE o.orderkey = 1
        RETURN o.orderkey, o.totalprice, c.name, c.custkey
    ".

Definition query_c3 : string :=
  "
        MATCH (c:Customer)-[:PLACED]->(o:Order)-[:CONTAINS]->(li:LineItem)-[:OF_PART]->(p:Part)
        WHERE p.type CONTAINS 'BRASS'
        RETURN c.name, o.orderkey, p.name, li.quantity, li.extendedprice
        LIMIT 10
    ".

Definition query_c4 : string :=
  "
        MATCH (s:Supplier)-[:LOCATED_IN]->(n:Nation)-[:BELONGS_TO]->(r:Region)
        MATCH (s)-[:SUPPLIES]->(p:Part)
        WHERE r.name = 'AMERICA'
        RETURN s.name, n.name, p.name, p.retailprice
        LIMIT 10
    ".

Definition query_c5 : string :=
  "
        MATCH (c:Customer {custkey: 1})-[:PLACED]->(o:Order)-[:CONTAINS]->(li:LineItem)
        RETURN c.name, COUNT(o) as order_count, SUM(li.extendedprice) as total_spent
    ".

Definition query_c6 : string :=
  "
        MATCH path = shortestPath((s:Supplier)-[*]-(c:Customer))
        WHERE s.suppkey = 1 AND c.custkey = 1
        RETURN length(path) as path_length, nodes(path)
        LIMIT 1
    ".

Definition query_c7 : string :=
  "
        MATCH (c:Customer)
        OPTIONAL MATCH (c)-[:PLACED]->(o:Order)
        RETURN c.name, COUNT(o) as order_count
        ORDER BY order_count DESC
        LIMIT 10
    ".

Definition query_d3 : string :=
  "
        MATCH (c:Customer)
        WHERE NOT EXISTS((c)-[:PLACED]->(:Order))
        RETURN c.name, c.custkey
        LIMIT 10
    ".

Definition query_e1 : string :=
  "
        MATCH (p:Part)
        RETURN p.name, p.retailprice
        ORDER BY p.retailprice DESC
        LIMIT 10
    ".

Definition query_e2 : string :=
  "
        MATCH (c:Customer)
        RETURN c.custkey, c.name, c.acctbal
        ORDER BY c.custkey ASC
        LIMIT 10
    ".

Definition query_e3 : string :=
  "
        MATCH (li:LineItem)
        RETURN DISTINCT li.shipmode
        ORDER BY li.shipmode
    ".

(** The queries [main] runs, in the order of the file. *)
Definition queries : list string :=
  [query_a1; query_a2; query_a3; query_b1; query_b2; query_c1;
   query_c2; query_c3; query_c4; query_c5; query_c6; query_c7;
   query_d3; query_e1; query_e2; query_e3].

Section Runner.
Variable B : Type.
Variable respond : B -> call -> B * reply.

(** How the records of a result are printed; a reply of the store does not
    carry them. *)
Variable render : rvalue -> string.

Local Abbreviation M := (M call B).
Local Abbreviation call_ c := (request respond c).

Definition connect : M unit :=
  _ <- call_ Driver;; ret tt.

Definition arun (query : string) : M rvalue :=
  _ <- call_ Session;;
  finally_
    (_ <- call_ (Run query);;
     records <- call_ Data;;
     ret records)
    (call_ SessionClose).

(** [main] has connected when it closes, so the driver is set. *)
Definition aclose : M unit :=
  _ <- call_ DriverClose;; ret tt.

(** [print(label, await db.arun(query))]. *)
Definition report (label query : string) : M unit :=
  records <- arun query;;
  print (label ++ " " ++ render records).

Definition main : M unit :=
  connect;;
  report "A1. Selection/Projection (Non-Indexed):" query_a1;;
  report "A2. Selection/Projection (Non-Indexed Complex):" query_a2;;
  report "A3. Selection/Projection (Indexed):" query_a3;;
  report "B1. Aggregation (COUNT):" query_b1;;
  report "B2. Aggregation (MAX/MIN/AVG):" query_b2;;
  report "C1. Joins (Non-Indexed):" query_c1;;
  report "C2. Joins (Indexed):" query_c2;;
  report "C3. Complex Join 1:" query_c3;;
  report "C4. Complex Join 2:" query_c4;;
  report "C5. Neighborhood Search:" query_c5;;
  report "C6. Shortest Path:" query_c6;;
  report "C7. Optional Traversal:" query_c7;;
  report "D3. Set Operations (DIFFERENCE):" query_d3;;
  report "E1. Result Modification (Non-Indexed Sorting):" query_e1;;
  report "E2. Result Modification (Indexed Sorting):" query_e2;;
  report "E3. Result Modification (DISTINCT):" query_e3;;
  aclose.
End Runner.

Arguments connect {B} respond.
Arguments arun {B} respond query.
Arguments aclose {B} respond.
Arguments report {B} respond render label query.
Arguments main {B} respond render.

End Neo4j.

Section Sessions.
Import Neo4j.
Variable B : Type.
Variable nj : B -> call -> B * reply.
Variable render : rvalue -> string.

(** Reading a history with a session open or not: a session is opened
    only when none is open, [run] and [data] are called only inside an
    open session, leaving it closes it, and the driver is touched only
    outside.  [None] when the history breaks one of these. *)
Fixpoint scan (open : bool) (tr : list (event call)) : option bool :=
  match tr with
  | [] => Some open
  | (Store Session, Ok _) :: tr' => if open then None else scan true tr'
  | (Store Session, Raise _) :: tr' => if open then None else scan false tr'
  | (Store (Run _), _) :: tr' => if open then scan true tr' else None
  | (Store Data, _) :: tr' => if open then scan true tr' else None
  | (Store SessionClose, _) :: tr' => if open then scan false tr' else None
  | (Store Driver, _) :: tr' => if open then None else scan false tr'
  | (Store DriverClose, _) :: tr' => if open then None else scan false tr'
  | _ :: tr' => scan open tr'
  end.

(** What [m] adds to the history starts and ends with no session open. *)
Definition bracketed {A : Type} (m : M call B A) : Prop :=
  forall w, exists tr,
    trace (fst (m w)) = trace w ++ tr /\ scan false tr = Some false.

Lemma scan_app (o : bool) (tr tr' : list (event call)) :
  scan o (tr ++ tr')
  = match scan o tr with
    | Some o' => scan o' tr'
    | None => None
    end.
Proof.
  revert o; induction tr as [|[[c|p n|s] r] tr IH]; intros o; simpl;
    try apply IH; [reflexivity|].
  destruct c, r, o; simpl; try reflexivity; apply IH.
Qed.

Lemma bracketed_ret {A : Type} (a : A) : bracketed (ret a).
Proof. intros w. exists []. simpl. now rewrite app_nil_r. Qed.

Lemma bracketed_print (s : string) : bracketed (print s).
Proof. intros w. exists []. simpl. now rewrite app_nil_r. Qed.

Lemma bracketed_bind {A X : Type} (m : M call B A) (k : A -> M call B X) :
  bracketed m -> (forall a, bracketed (k a)) -> bracketed (bind m k).
Proof.
  intros Hm Hk w. unfold bind.
  destruct (Hm w) as (tr1 & T1 & S1).
  destruct (m w) as [w1 [e|a]]; simpl in *.
  - exists tr1. now split.
  - destruct (Hk a w1) as (tr2 & T2 & S2).
    exists (tr1 ++ tr2). split.
    + now rewrite T2, T1, app_assoc.
    + now rewrite scan_app, S1.
Qed.

Lemma bracketed_outside (c : call) :
  c = Driver \/ c = DriverClose -> bracketed (request nj c).
Proof.
  intros Hc w. unfold request.
  destruct (nj (conn w) c) as [b' [v|e]]; simpl;
    eexists [(Store c, _)]; (split; [reflexivity|]);
    destruct Hc as [-> | ->]; reflexivity.
Qed.

(** A query runs in a session of its own, which is left whatever
    happens. *)
Lemma bracketed_arun (query : string) : bracketed (arun nj query).
Proof.
  intros w. unfold arun, bind, finally_, request.
  destruct (nj (conn w) Session) as [b1 [v1|e1]]; simpl;
    [|eexists [(Store Session, _)]; split; reflexivity].
  destruct (nj b1 (Run query)) as [b2 [v2|e2]]; simpl.
  - destruct (nj b2 Data) as [b3 [v3|e3]]; simpl;
      destruct (nj b3 SessionClose) as [b4 [v4|e4]]; simpl;
      eexists; (split; [rewrite <- !app_assoc; reflexivity|reflexivity]).
  - destruct (nj b2 SessionClose) as [b4 [v4|e4]]; simpl;
      eexists; (split; [rewrite <- !app_assoc; reflexivity|reflexivity]).
Qed.

Lemma bracketed_report (label query : string) :
  bracketed (report nj render label query).
Proof.
  unfold report. apply bracketed_bind; [apply bracketed_arun|].
  intros a. apply bracketed_print.
Qed.

Definition not_driver_close (o : origin call) : bool :=
  match o with
  | Store DriverClose => false
  | _ => true
  end.

Lemma only_report (label query : string) :
  only not_driver_close (report nj render label query).
Proof.
  unfold report, arun.
  apply only_bind; [|intros a; apply only_print].
  apply only_bind; [apply only_request; reflexivity|intros _].
  apply only_finally; [|apply only_request; reflexivity].
  apply only_bind; [apply only_request; reflexivity|intros _].
  apply only_bind; [apply only_request; reflexivity|intros records].
  apply only_ret.
Qed.

(** The calls of one query. *)
Definition session_calls (query : string) : list call :=
  [Session; Run query; Data; SessionClose].

Lemma always_report (label query : string) :
  reliable nj ->
  always (report nj render label query) (session_calls query).
Proof.
  intros R w. unfold report, arun, bind, finally_, request, runs.
  destruct (R (conn w) Session) as [v1 H1].
  destruct (nj (conn w) Session) as [b1 r1]. simpl in H1. subst r1. simpl.
  destruct (R b1 (Run query)) as [v2 H2].
  destruct (nj b1 (Run query)) as [b2 r2]. simpl in H2. subst r2. simpl.
  destruct (R b2 Data) as [v3 H3].
  destruct (nj b2 Data) as [b3 r3]. simpl in H3. subst r3. simpl.
  destruct (R b3 SessionClose) as [v4 H4].
  destruct (nj b3 SessionClose) as [b4 r4]. simpl in H4. subst r4. simpl.
  eexists. split; [reflexivity|]. split; [reflexivity|]. simpl.
  rewrite !calls_of_app. simpl. now rewrite <- !app_assoc.
Qed.

Lemma always_outside (c : call) :
  reliable nj -> always (bind (request nj c) (fun _ => ret tt)) [c].
Proof.
  intros R w. unfold bind, request, runs.
  destruct (R (conn w) c) as [v H].
  destruct (nj (conn w) c) as [b1 r1]. simpl in H. subst r1. simpl.
  eexists. split; [reflexivity|]. split; [reflexivity|]. simpl.
  now rewrite calls_of_app.
Qed.

(** X18.  In the query runner every query runs in a session of its own,
    and the session is left through the [async with] block whatever
    happens: in every run of [main], whatever the driver answers, a
    session is opened only when none is open, [run] and [data] are called
    only inside an open session, and every session that was opened is
    closed before anything else is asked, also when [run] or [data]
    raises.  The driver is not treated so: it is closed only as the very
    last call, after all sixteen queries have returned; a query that fails
    ends [main] with the driver open.  With a driver that answers every
    call, [main] asks the sixteen queries in the order of the file, the
    two that are commented out left aside. *)
Theorem sessions_closed_driver_left_open :
  bracketed (main nj render) /\
  closes_last DriverClose not_driver_close (main nj render) /\
  (reliable nj ->
   always (main nj render)
          ([Driver] ++ flat_map session_calls queries ++ [DriverClose])) /\
  length queries = 16.
Proof.
  split; [|split; [|split]].
  - unfold main.
    apply bracketed_bind.
    { unfold connect. apply bracketed_bind;
        [apply bracketed_outside; now left|intros _; apply bracketed_ret]. }
    intros _.
    repeat (apply bracketed_bind; [apply bracketed_report|intros _]).
    unfold aclose. apply bracketed_bind;
      [apply bracketed_outside; now right|intros _; apply bracketed_ret].
  - unfold main.
    apply closes_last_bind.
    { unfold connect. apply only_bind;
        [apply only_request; reflexivity|intros _; apply only_ret]. }
    repeat (apply closes_last_bind; [apply only_report|]).
    apply closes_last_close.
  - intros R. unfold main, queries. cbn [flat_map].
    apply always_seq; [apply (always_outside Driver R)|].
    repeat (apply (always_seq _ _ _ _ (session_calls _));
            [apply (always_report _ _ R)|]).
    apply (always_outside DriverClose R).
  - reflexivity.
Qed.
End Sessions.

Arguments bracketed {B A} m.

(** A driver that answers every call with nothing. *)
Lemma sessions_closed_driver_left_open_witness :
  always (Neo4j.main mute (fun _ => "[]"))
         ([Neo4j.Driver] ++ flat_map session_calls Neo4j.queries
          ++ [Neo4j.DriverClose]) /\
  length (flat_map session_calls Neo4j.queries) = 64.
Proof.
  split; [|reflexivity].
  exact (proj1 (proj2 (proj2 (sessions_closed_driver_left_open
                                unit mute (fun _ => "[]"))))
               mute_reliable).
Defined.
